(** * Fantasy-league trade fairness: valuation and trade-impact engine

    A shallow embedding of [src/fairness.js] and of the evaluation pipeline of
    [src/index.js] ([/api/evaluate], from the normalised rosters onwards),
    with the properties of the engine stated and proved over it.

    Conventions of the embedding.
    - A JavaScript Number is an IEEE-754 binary64 value: the kernel's
      primitive [float].  The arithmetic the scorer and the lineup code use
      is collected in the interface [NumberOps]; the engine is written
      over that interface and run at the [float] instance.  What is proved
      over the interface uses no law of arithmetic; what depends on the
      arithmetic is proved at [float], from the specification of binary64.
    - Values that arrive from the provider as parsed JSON are [JsVal]s;
      the leaves the engine coerces with [Number(...)] and [||] are [Prim]s.
    - A plain object used as a dictionary is an association list of its own
      properties; where the program indexes such an object with a key taken
      from the request, the members inherited from [Object.prototype] are
      part of the lookup.
    - A thrown [TypeError] is the [TypeError] result of the [Result] type.
    - Slot counts are Numbers, as [computeStartersByPos] returns them:
      the loops test them with [count > 0] and store [count - 1] in
      binary64.  Where a property needs whole counts it says so.
    - [Array.prototype.sort] with the comparator of the lineup code is an
      insertion sort; it is shown to return a permutation of its input, in
      descending order of value, with equal values in their input order,
      which is what the language requires of a sort.
    - [evaluate] starts from the category list and the slot counts the
      handler has computed from the league settings.
    - [computeStartersByPos], [normalize] and [resolveLeagueKey] are
      embedded after the engine.  What the provider answers is data: it is
      an argument of the function that awaits it, and the session is passed
      in and returned. *)

From Stdlib Require Import ZArith List String Ascii Bool Lia Floats.
From Stdlib Require Import DecimalString.
From Stdlib Require Import Permutation Sorted.
Import ListNotations.
Set Warnings "-inexact-float,-register-all".

Local Open Scope string_scope.
Local Open Scope list_scope.

(* ================================================================== *)
(** * Numbers *)

(** The Number operations the engine performs.  [num_falsy x] is
    [!x] (true on [0], [-0] and [NaN]); [num_gtb x y] is [x > y];
    [num_max] is [Math.max]; [num_sqrt] is [Math.sqrt];
    [num_toFixed4 x] is [Number(x.toFixed(4))]; [num_eps] is the literal
    [1e-9]. *)
Class NumberOps (num : Type) : Type := {
  num_zero : num;
  num_one : num;
  num_eps : num;
  num_add : num -> num -> num;
  num_sub : num -> num -> num;
  num_mul : num -> num -> num;
  num_div : num -> num -> num;
  num_sqrt : num -> num;
  num_max : num -> num -> num;
  num_gtb : num -> num -> bool;
  num_falsy : num -> bool;
  num_toFixed4 : num -> num
}.

Declare Scope js_scope.
Delimit Scope js_scope with js.
Notation "x + y" := (num_add x y) : js_scope.
Notation "x - y" := (num_sub x y) : js_scope.
Notation "x * y" := (num_mul x y) : js_scope.
Notation "x / y" := (num_div x y) : js_scope.

(** [x || d] on Numbers. *)
Definition orElse {num} `{NumberOps num} (x d : num) : num :=
  if num_falsy x then d else x.

(** [arr.reduce((acc, x) => acc + x, 0)]. *)
Definition sumOf {num} `{NumberOps num} (xs : list num) : num :=
  fold_left num_add xs num_zero.

(* ------------------------------------------------------------------ *)
(** ** The binary64 instance *)

Module F64.

(** The double nearest to an integer. *)
Definition ofZ (z : Z) : float :=
  SF2Prim (binary_normalize prec emax z 0 false).

(** The double nearest to [n / d]. *)
Definition ofRatio (n d : positive) : float :=
  SF2Prim (SFdiv prec emax (S754_finite false n 0) (S754_finite false d 0)).

Definition falsy (x : float) : bool :=
  PrimFloat.is_zero x || PrimFloat.is_nan x.

(** [Math.max(x, y)]: [NaN] if either is, and [+0] above [-0]. *)
Definition max (x y : float) : float :=
  if PrimFloat.is_nan x || PrimFloat.is_nan y then PrimFloat.nan
  else if PrimFloat.ltb x y then y
  else if PrimFloat.ltb y x then x
  else if PrimFloat.is_zero x && PrimFloat.ltb (PrimFloat.div 1 x) 0 then y
  else x.

(** The integer [n] closest to [m * 2^e * 10^4], the larger one on a tie
    (step 6.a of Number.prototype.toFixed). *)
Definition scaled4 (m : positive) (e : Z) : Z :=
  let y := (Zpos m * 10000)%Z in
  if (0 <=? e)%Z then (y * 2 ^ e)%Z
  else ((2 * y + 2 ^ (- e)) / 2 ^ (1 - e))%Z.

(** [Number(x.toFixed(4))].  A non-finite [x], or one of magnitude at least
    [1e21], is printed by [ToString] and read back unchanged; otherwise the
    magnitude is rounded to four decimals, ties upwards, the sign is put
    back, and the decimal string is read as the nearest double. *)
Definition toFixed4 (x : float) : float :=
  if negb (PrimFloat.is_finite x) then x
  else if PrimFloat.leb 1e21 (PrimFloat.abs x) then x
  else
    let neg := PrimFloat.ltb x 0 in
    let r :=
      match Prim2SF (PrimFloat.abs x) with
      | S754_finite _ m e =>
          match scaled4 m e with
          | Zpos n => ofRatio n 10000
          | _ => PrimFloat.zero
          end
      | _ => PrimFloat.zero
      end in
    if neg then PrimFloat.opp r else r.

End F64.

#[export] Instance float_ops : NumberOps float := {
  num_zero := PrimFloat.zero;
  num_one := PrimFloat.one;
  num_eps := 1e-9%float;
  num_add := PrimFloat.add;
  num_sub := PrimFloat.sub;
  num_mul := PrimFloat.mul;
  num_div := PrimFloat.div;
  num_sqrt := PrimFloat.sqrt;
  num_max := F64.max;
  num_gtb := fun x y => PrimFloat.ltb y x;
  num_falsy := F64.falsy;
  num_toFixed4 := F64.toFixed4
}.

(* ================================================================== *)
(** * JavaScript values *)

(** The result of code that can throw: the only exception the engine can
    raise on JSON data is a [TypeError]. *)
Inductive Result (A : Type) : Type :=
| Ok (a : A)
| TypeError.
Arguments Ok {A} a.
Arguments TypeError {A}.

Definition bind {A B} (r : Result A) (k : A -> Result B) : Result B :=
  match r with
  | Ok a => k a
  | TypeError => TypeError
  end.

Notation "x <- r ;; k" := (bind r (fun x => k))
  (at level 61, r at next level, right associativity).

(** Scalars. *)
Inductive Prim : Type :=
| PUndef
| PNull
| PBool (b : bool)
| PNum (x : float)
| PStr (s : string).

(** Parsed JSON: scalars, arrays, and objects as the list of their own
    properties (keys distinct). *)
Inductive JsVal : Type :=
| JP (p : Prim)
| JArr (items : list JsVal)
| JObj (props : list (string * JsVal)).

Definition JUndef : JsVal := JP PUndef.
Definition JNull : JsVal := JP PNull.
Definition JNum (x : float) : JsVal := JP (PNum x).
Definition JStr (s : string) : JsVal := JP (PStr s).

(** The two built-ins of the host that convert between strings and
    Numbers ([StringToNumber] of ECMA-262 7.1.4.1.1 and [Number::toString]):
    they are not code of this repository and are taken as given. *)
Record Runtime : Type := {
  StringToNumber : string -> float;
  NumberToString : float -> string
}.

(** Own-property lookup in a dictionary. *)
Fixpoint assoc {V} (k : string) (d : list (string * V)) : option V :=
  match d with
  | [] => None
  | (k', v) :: d' => if String.eqb k k' then Some v else assoc k d'
  end.

(** [d[k] = v] on a dictionary: overwrite in place, or append a new
    property. *)
Fixpoint assocSet {V} (k : string) (v : V) (d : list (string * V))
  : list (string * V) :=
  match d with
  | [] => [(k, v)]
  | (k', v') :: d' =>
      if String.eqb k k' then (k', v) :: d' else (k', v') :: assocSet k v d'
  end.

(** [ToBoolean]. *)
Definition truthyPrim (p : Prim) : bool :=
  match p with
  | PUndef | PNull => false
  | PBool b => b
  | PNum x => negb (F64.falsy x)
  | PStr s => negb (String.eqb s "")
  end.

Definition truthy (v : JsVal) : bool :=
  match v with
  | JP p => truthyPrim p
  | _ => true
  end.

(** [a || b]. *)
Definition orPrim (a b : Prim) : Prim := if truthyPrim a then a else b.
Definition orVal (a b : JsVal) : JsVal := if truthy a then a else b.

(** [Number(p)] on a scalar. *)
Definition ToNumberPrim (rt : Runtime) (p : Prim) : float :=
  match p with
  | PUndef => PrimFloat.nan
  | PNull => PrimFloat.zero
  | PBool b => if b then PrimFloat.one else PrimFloat.zero
  | PNum x => x
  | PStr s => StringToNumber rt s
  end.

Definition ToStringPrim (rt : Runtime) (p : Prim) : string :=
  match p with
  | PUndef => "undefined"
  | PNull => "null"
  | PBool b => if b then "true" else "false"
  | PNum x => NumberToString rt x
  | PStr s => s
  end.

Definition hasOwn {V} (k : string) (d : list (string * V)) : bool :=
  match assoc k d with Some _ => true | None => false end.

Definition joinComma (parts : list string) : string :=
  String.concat "," parts.

(** [ToString] of a JSON value.  An array is joined with commas, [null]
    and [undefined] items printing as the empty string; an object prints
    through the inherited [toString] unless an own (hence not callable)
    [toString] property shadows it, in which case the conversion throws. *)
Fixpoint ToString (rt : Runtime) (v : JsVal) : Result string :=
  match v with
  | JP p => Ok (ToStringPrim rt p)
  | JArr items =>
      let fix go (l : list JsVal) : Result (list string) :=
        match l with
        | [] => Ok []
        | x :: l' =>
            s <- match x with
                 | JP PUndef | JP PNull => Ok ""
                 | _ => ToString rt x
                 end ;;
            ss <- go l' ;;
            Ok (s :: ss)
        end in
      parts <- go items ;;
      Ok (joinComma parts)
  | JObj props =>
      if hasOwn "toString" props then TypeError else Ok "[object Object]"
  end.

(** [Number(v)]. *)
Definition ToNumber (rt : Runtime) (v : JsVal) : Result float :=
  match v with
  | JP p => Ok (ToNumberPrim rt p)
  | _ => s <- ToString rt v ;; Ok (StringToNumber rt s)
  end.

(** [v.k] for the property names this program reads
    ([stat_categories], [stats], [stat], [stat_id], [name],
    [position_type]): none of them is inherited by an object, an array or a
    wrapped scalar, so only own properties of objects answer. *)
Definition getProp (v : JsVal) (k : string) : Result JsVal :=
  match v with
  | JP PUndef | JP PNull => TypeError
  | JObj props =>
      Ok (match assoc k props with Some x => x | None => JUndef end)
  | _ => Ok JUndef
  end.

(** [v?.k]. *)
Definition optProp (v : JsVal) (k : string) : JsVal :=
  match getProp v k with
  | Ok x => x
  | TypeError => JUndef
  end.

(** The items a [for ... of] loop visits: the elements of an array, the
    characters of a string; anything else is not iterable.  (The loop of
    [buildCategoryListFromSettings] skips every item that is a string, so
    how a string is cut into characters does not matter.) *)
Definition chars (s : string) : list JsVal :=
  map (fun c => JStr (String c EmptyString)) (list_ascii_of_string s).

Definition iterate (v : JsVal) : Result (list JsVal) :=
  match v with
  | JArr items => Ok items
  | JP (PStr s) => Ok (chars s)
  | _ => TypeError
  end.

(* ------------------------------------------------------------------ *)
(** ** Strings *)

(** [toLowerCase] on the ASCII letters.  No character outside ASCII
    lower-cases to one of the letters of ["games played"], so for the test
    below this agrees with the full Unicode mapping. *)
Definition lowerAscii (c : ascii) : ascii :=
  let n := nat_of_ascii c in
  if (65 <=? n)%nat && (n <=? 90)%nat then ascii_of_nat (n + 32) else c.

Fixpoint toLowerCase (s : string) : string :=
  match s with
  | EmptyString => EmptyString
  | String c s' => String (lowerAscii c) (toLowerCase s')
  end.

(** [s.includes(needle)]. *)
Fixpoint includes (needle s : string) : bool :=
  String.prefix needle s
  || match s with
     | EmptyString => false
     | String _ s' => includes needle s'
     end.

(* ================================================================== *)
(** * fairness.js: buildCategoryListFromSettings *)

Record Category : Type := {
  id : float;
  name : JsVal;
  position_type : JsVal
}.

Inductive Step (A : Type) : Type :=
| Skip
| Push (a : A).
Arguments Skip {A}.
Arguments Push {A} a.

(** One turn of the loop over the descriptors: [continue] or [push]. *)
Definition categoryOf (rt : Runtime) (s : JsVal) : Result (Step Category) :=
  inner <- getProp s "stat" ;;
  let stat := orVal inner s in
  rawId <- getProp stat "stat_id" ;;
  n <- ToNumber rt rawId ;;
  if negb (PrimFloat.is_finite n) then Ok Skip
  else
    rawName <- getProp stat "name" ;;
    lowered <- match orVal rawName (JStr "") with
               | JP (PStr str) => Ok (toLowerCase str)
               | _ => TypeError
               end ;;
    if includes "games played" lowered then Ok Skip
    else
      pt <- getProp stat "position_type" ;;
      Ok (Push {| id := n; name := rawName;
                  position_type := orVal pt JNull |}).

Fixpoint collectCategories (rt : Runtime) (items : list JsVal)
  : Result (list Category) :=
  match items with
  | [] => Ok []
  | s :: rest =>
      step <- categoryOf rt s ;;
      cats <- collectCategories rt rest ;;
      Ok (match step with Skip => cats | Push c => c :: cats end)
  end.

(** [settings?.stat_categories?.stats || settings?.stat_categories?.stat || []]. *)
Definition statDescriptors (settings : JsVal) : JsVal :=
  let sc := optProp settings "stat_categories" in
  orVal (optProp sc "stats") (orVal (optProp sc "stat") (JArr [])).

Definition buildCategoryListFromSettings (rt : Runtime) (settings : JsVal)
  : Result (list Category) :=
  items <- iterate (statDescriptors settings) ;;
  collectCategories rt items.

(* ================================================================== *)
(** * The engine over an arbitrary Number instance *)

Section Engine.

Context {num : Type} {ops : NumberOps num}.
Local Open Scope js_scope.

(** A player as [normalize] of index.js builds it, with the two fields
    the pipeline adds: [per] (by [computePerGame]) and [value] (by
    [valuePlayers]).  [per] is empty and [value] is [None] ([undefined])
    until then.  Raw statistics and the games-played fields are scalars.
    The display name is carried along by the program and never read by the
    engine; it is left out. *)
Record Player : Type := {
  player_key : option string;
  pos : list string;
  isGoalie : bool;
  stats : list (string * Prim);
  gp : Prim;
  games_played : Prim;
  per : list (string * num);
  value : option num
}.

Definition setPer (p : Player) (d : list (string * num)) : Player :=
  {| player_key := player_key p; pos := pos p; isGoalie := isGoalie p;
     stats := stats p; gp := gp p; games_played := games_played p;
     per := d; value := value p |}.

Definition setValue (p : Player) (v : num) : Player :=
  {| player_key := player_key p; pos := pos p; isGoalie := isGoalie p;
     stats := stats p; gp := gp p; games_played := games_played p;
     per := per p; value := Some v |}.

(* ------------------------------------------------------------------ *)
(** ** fairness.js: valuePlayers *)

(** The property key [c.id] of the dictionaries. *)
Definition catKey (rt : Runtime) (c : Category) : string :=
  NumberToString rt (id c).

(** [Number(p.per?.[c.id]) || 0]. *)
Definition perValue (rt : Runtime) (p : Player) (c : Category) : num :=
  match assoc (catKey rt c) (per p) with
  | Some v => orElse v num_zero
  | None => num_zero
  end.

Definition Dict : Type := list (string * num).

(** [d[k]] where the key has been initialised.  Every read below is of a
    key the first loop of [valuePlayers] has set, so the default is never
    taken. *)
Definition dictGet (d : Dict) (k : string) : num :=
  match assoc k d with
  | Some x => x
  | None => num_zero
  end.

(** [d[k] += v]. *)
Definition dictAdd (d : Dict) (k : string) (v : num) : Dict :=
  assocSet k (dictGet d k + v) d.

Record Totals : Type := {
  sums : Dict;
  sums2 : Dict;
  counts : Dict
}.

(** [for (const c of cats) { sums[c.id] = 0; sums2[c.id] = 0; counts[c.id] = 0; }] *)
Definition initTotals (rt : Runtime) (cats : list Category) : Totals :=
  fold_left
    (fun t c =>
       let k := catKey rt c in
       {| sums := assocSet k num_zero (sums t);
          sums2 := assocSet k num_zero (sums2 t);
          counts := assocSet k num_zero (counts t) |})
    cats {| sums := []; sums2 := []; counts := [] |}.

(** The inner loop of the accumulation, for one player. *)
Definition addPlayer (rt : Runtime) (cats : list Category)
  (t : Totals) (p : Player) : Totals :=
  fold_left
    (fun t c =>
       let k := catKey rt c in
       let v := perValue rt p c in
       {| sums := dictAdd (sums t) k v;
          sums2 := dictAdd (sums2 t) k (v * v);
          counts := dictAdd (counts t) k num_one |})
    cats t.

Definition accumulate (rt : Runtime) (pool : list Player)
  (cats : list Category) : Totals :=
  fold_left (addPlayer rt cats) pool (initTotals rt cats).

Record Moments : Type := {
  mean : Dict;
  stdev : Dict
}.

(** The loop that fills [mean] and [stdev]. *)
Definition moments (rt : Runtime) (t : Totals) (cats : list Category)
  : Moments :=
  fold_left
    (fun ms c =>
       let k := catKey rt c in
       let n := orElse (dictGet (counts t) k) num_one in
       let m := dictGet (sums t) k / n in
       let variance := num_max (dictGet (sums2 t) k / n - m * m) num_zero in
       {| mean := assocSet k m (mean ms);
          stdev := assocSet k (orElse (num_sqrt variance) num_eps) (stdev ms) |})
    cats {| mean := []; stdev := [] |}.

(** The body of the last loop: the composite score of one player before
    it is rounded. *)
Definition composite (rt : Runtime) (ms : Moments) (cats : list Category)
  (p : Player) : num :=
  fold_left
    (fun val c =>
       let k := catKey rt c in
       let v := perValue rt p c in
       val + (v - dictGet (mean ms) k) / dictGet (stdev ms) k)
    cats num_zero.

(** [valuePlayers(pool, cats)]: each player of the pool gets its [value]
    written; the pool is returned. *)
Definition valuePlayers (rt : Runtime) (pool : list Player)
  (cats : list Category) : list Player :=
  let ms := moments rt (accumulate rt pool cats) cats in
  map (fun p => setValue p (num_toFixed4 (composite rt ms cats p))) pool.

(* ------------------------------------------------------------------ *)
(** ** Sorting by value, descending *)

(** [p.value || 0], which is also [Number(p.value) || 0]. *)
Definition value0 (p : Player) : num :=
  match value p with
  | Some v => orElse v num_zero
  | None => num_zero
  end.

(** The comparator [(a, b) => (b.value || 0) - (a.value || 0)]. *)
Definition byValueDesc (a b : Player) : num := value0 b - value0 a.

(** The comparator puts [a] after [b]: its result is positive. *)
Definition sortsAfter (a b : Player) : bool :=
  num_gtb (byValueDesc a b) num_zero.

Fixpoint insertByValue (x : Player) (l : list Player) : list Player :=
  match l with
  | [] => [x]
  | y :: l' => if sortsAfter x y then y :: insertByValue x l' else x :: l
  end.

(** [[...players].sort(byValueDesc)].  [Array.prototype.sort] is stable;
    an element moves behind exactly those it must sort after, which is
    what inserting from the right computes. *)
Definition sortByValue (players : list Player) : list Player :=
  fold_right insertByValue [] players.

(* ------------------------------------------------------------------ *)
(** ** Greedy slot filling (pickStarters of index.js and the first loop of
       tradeImpactForTeam) *)

(** Slot requirements: the own properties of [startersByPos], in
    declaration order, each with the Number it holds. *)
Definition Need : Type := list (string * num).

(** [pos === "Util" ? !p.isGoalie : pos === "G" ? p.isGoalie : p.pos.includes(pos)] *)
Definition eligible (p : Player) (slot : string) : bool :=
  if String.eqb slot "Util" then negb (isGoalie p)
  else if String.eqb slot "G" then isGoalie p
  else existsb (String.eqb slot) (pos p).

(** The scan [for (const [pos, count] of Object.entries(need))] up to its
    [break]: the entry at which the player is placed, if any. *)
Fixpoint findSlot (p : Player) (entries : Need) : option (string * num) :=
  match entries with
  | [] => None
  | (slot, count) :: rest =>
      if eligible p slot && num_gtb count num_zero then Some (slot, count)
      else findSlot p rest
  end.

(** One player of the outer loop: placed, with [need[pos] = count - 1],
    or not placed. *)
Definition place (p : Player) (need : Need) : option Need :=
  match findSlot p need with
  | Some (slot, count) => Some (assocSet slot (count - num_one) need)
  | None => None
  end.

(** The outer loop over the sorted players: those placed, those not
    placed, and the counts that remain. *)
Fixpoint fillSlots (sorted : list Player) (need : Need)
  : list Player * list Player * Need :=
  match sorted with
  | [] => ([], [], need)
  | p :: rest =>
      match place p need with
      | Some need' =>
          let '(placed, unplaced, final) := fillSlots rest need' in
          (p :: placed, unplaced, final)
      | None =>
          let '(placed, unplaced, final) := fillSlots rest need in
          (placed, p :: unplaced, final)
      end
  end.

Record RosterSplit : Type := {
  starters : list Player;
  bench : list Player
}.

(** [pickStarters] of index.js, with the [startersByPos] it closes over
    made a parameter. *)
Definition pickStarters (startersByPos : Need) (players : list Player)
  : RosterSplit :=
  let '(placed, unplaced, _) :=
    fillSlots (sortByValue players) startersByPos in
  {| starters := placed; bench := unplaced |}.

(* ------------------------------------------------------------------ *)
(** ** fairness.js: tradeImpactForTeam *)

(** [Object.values(need).some((n) => n > 0)]. *)
Definition anyOpen (need : Need) : bool :=
  existsb (fun e => num_gtb (snd e) num_zero) need.

(** The loop over the sorted free agents: a free agent that fits is
    pushed onto [chosen]; the loop stops as soon as no slot is open. *)
Fixpoint backfill (faSorted : list Player) (chosen : list Player)
  (need : Need) : list Player * Need :=
  match faSorted with
  | [] => (chosen, need)
  | p :: rest =>
      let '(chosen', need') :=
        match place p need with
        | Some n => (chosen ++ [p], n)
        | None => (chosen, need)
        end in
      if negb (anyOpen need') then (chosen', need')
      else backfill rest chosen' need'
  end.

Record TradeArgs : Type := {
  arg_starters : list Player;
  arg_bench : list Player;
  incoming : list Player;
  freeAgents : list Player;
  startersByPos : Need
}.

(** The array [chosen] when the two loops are over. *)
Definition chosenLineup (a : TradeArgs) : list Player :=
  let after := arg_starters a ++ arg_bench a in
  let withIncoming := after ++ incoming a in
  let '(chosen, _, need) :=
    fillSlots (sortByValue withIncoming) (startersByPos a) in
  if anyOpen need
  then fst (backfill (sortByValue (freeAgents a)) chosen need)
  else chosen.

Definition tradeImpactForTeam (a : TradeArgs) : num :=
  let strength := sumOf (map value0 (chosenLineup a)) in
  let baseline := sumOf (map value0 (arg_starters a)) in
  strength - baseline.

(* ------------------------------------------------------------------ *)
(** ** index.js: dictionaries by player key, outgoing players *)

(** The names every plain object inherits from [Object.prototype]. *)
Definition objectPrototypeKeys : list string :=
  [ "constructor"; "hasOwnProperty"; "isPrototypeOf";
    "propertyIsEnumerable"; "toLocaleString"; "toString"; "valueOf";
    "__proto__"; "__defineGetter__"; "__defineSetter__";
    "__lookupGetter__"; "__lookupSetter__" ].

(** The outcome of [obj[k]] on a plain object: an own property, a member
    inherited from [Object.prototype], or [undefined]. *)
Inductive Lookup : Type :=
| Own (p : Player)
| Inherited
| Absent.

Definition objGet (d : list (string * Player)) (k : string) : Lookup :=
  match assoc k d with
  | Some p => Own p
  | None =>
      if existsb (String.eqb k) objectPrototypeKeys then Inherited
      else Absent
  end.

(** What the program sees of an inherited member (a built-in function, or
    the prototype object for [__proto__]) when it treats it as a player:
    it is truthy, and [player_key], [pos], [isGoalie], [value] all read as
    [undefined]. *)
Definition protoMember : Player :=
  {| player_key := None; pos := []; isGoalie := false; stats := [];
     gp := PUndef; games_played := PUndef; per := []; value := None |}.

(** The property key made from [p.player_key]. *)
Definition keyOf (p : Player) : string :=
  match player_key p with
  | Some k => k
  | None => "undefined"
  end.

(** [Object.fromEntries(list.map((p) => [p.player_key, p]))]: a later
    entry overwrites an earlier one with the same key. *)
Definition byKey (l : list Player) : list (string * Player) :=
  fold_left (fun d p => assocSet (keyOf p) p d) l [].

(** [arr.map((p) => mapByKey[p.player_key] || p)]. *)
Definition withValues (mapByKey : list (string * Player))
  (arr : list Player) : list Player :=
  map (fun p =>
         match objGet mapByKey (keyOf p) with
         | Own q => q
         | Inherited => protoMember
         | Absent => p
         end) arr.

(** [send.map((k) => teamMap[k]).filter(Boolean)]. *)
Definition resolveOutgoing (teamMap : list (string * Player))
  (send : list string) : list Player :=
  flat_map (fun k =>
              match objGet teamMap k with
              | Own q => [q]
              | Inherited => [protoMember]
              | Absent => []
              end) send.

(** [o.player_key === p.player_key]. *)
Definition sameKey (o p : Player) : bool :=
  match player_key o, player_key p with
  | Some a, Some b => String.eqb a b
  | None, None => true
  | _, _ => false
  end.

(** [arr.filter((p) => !outgoing.some((o) => o.player_key === p.player_key))]. *)
Definition removeOutgoing (arr outgoing : list Player) : list Player :=
  filter (fun p => negb (existsb (fun o => sameKey o p) outgoing)) arr.

End Engine.

Arguments Player num : clear implicits.
Arguments Totals num : clear implicits.
Arguments Moments num : clear implicits.
Arguments RosterSplit num : clear implicits.
Arguments TradeArgs num : clear implicits.
Arguments Lookup num : clear implicits.
Arguments Dict num : clear implicits.
Arguments Need num : clear implicits.

(* ================================================================== *)
(** * The engine at binary64 *)

(** ** fairness.js: computePerGame *)

(** [Number(p.gp || p.games_played || 0) || 0]. *)
Definition gamesPlayed (rt : Runtime) (p : Player float) : float :=
  orElse (ToNumberPrim rt (orPrim (gp p) (orPrim (games_played p) (PNum 0))))
         0%float.

(** The rate written for one entry of [p.stats]: [(Number(v) || 0) / gp]. *)
Definition perGameRate (rt : Runtime) (g : float) (v : Prim) : float :=
  (orElse (ToNumberPrim rt v) 0 / g)%float.

(** The callback of the [map]: a copy of the player with [per] set.
    [p.stats] is an object, so its entries have distinct keys and writing
    [out.per[k]] entry by entry yields one rate per entry, in order. *)
Definition perGameOf (rt : Runtime) (p : Player float) : Player float :=
  let g := gamesPlayed rt p in
  if F64.falsy g then setPer p []
  else setPer p (map (fun kv => (fst kv, perGameRate rt g (snd kv))) (stats p)).

(** [computePerGame(players)]; [None] is a missing ([undefined] or [null])
    argument. *)
Definition computePerGame (rt : Runtime) (players : option (list (Player float)))
  : list (Player float) :=
  map (perGameOf rt) (match players with Some l => l | None => [] end).

(* ------------------------------------------------------------------ *)
(** ** fairness.js: verdict *)

Inductive Status : Type :=
| APPROVE
| REVIEW.

Record Verdict : Type := {
  status : Status;
  color : string
}.

(** The third argument of [verdict]; a field that is [None] is
    [undefined] and takes its default. *)
Record Thresholds : Type := {
  lossTol : option float;
  gainMin : option float;
  imbalanceMax : option float
}.

Definition noThresholds : Thresholds :=
  {| lossTol := None; gainMin := None; imbalanceMax := None |}.

Definition withDefault (o : option float) (d : float) : float :=
  match o with
  | Some x => x
  | None => d
  end.

(** [x >= y] on Numbers. *)
Definition geb (x y : float) : bool := PrimFloat.leb y x.

Definition verdict (tiA tiB : float) (opts : option Thresholds) : Verdict :=
  let o := match opts with Some o => o | None => noThresholds end in
  let lossTol := withDefault (lossTol o) (-0.35)%float in
  let gainMin := withDefault (gainMin o) 0.25%float in
  let imbalanceMax := withDefault (imbalanceMax o) 1.0%float in
  let imbalance := PrimFloat.abs (tiA - tiB)%float in
  let bothAboveLossTol := geb tiA lossTol && geb tiB lossTol in
  let oneAboveGain := geb tiA gainMin || geb tiB gainMin in
  let okImbalance := PrimFloat.leb imbalance imbalanceMax in
  if bothAboveLossTol && oneAboveGain && okImbalance
  then {| status := APPROVE; color := "green" |}
  else {| status := REVIEW; color := "yellow" |}.

(* ------------------------------------------------------------------ *)
(** ** index.js: the evaluation of a trade *)

(** What [/api/evaluate] computes once the two rosters and the free agents
    are normalised: the intermediate arrays are kept so that they can be
    named. *)
Record Evaluation : Type := {
  Aall : list (Player float);
  Ball : list (Player float);
  FAall : list (Player float);
  Asplit : RosterSplit float;
  Bsplit : RosterSplit float;
  outgoingA : list (Player float);
  outgoingB : list (Player float);
  argsA : TradeArgs float;
  argsB : TradeArgs float;
  tiA : float;
  tiB : float;
  verdictOf : Verdict
}.

Definition evaluate (rt : Runtime) (lt gm im : float)
  (startersByPos : Need float) (cats : list Category)
  (A B FA : list (Player float)) (sendA sendB : list string) : Evaluation :=
  let pool := computePerGame rt (Some (A ++ B ++ FA)) in
  let pool := valuePlayers rt pool cats in
  let mapByKey := byKey pool in
  let Aall := withValues mapByKey A in
  let Ball := withValues mapByKey B in
  let FAall := withValues mapByKey FA in
  let Asplit := pickStarters startersByPos Aall in
  let Bsplit := pickStarters startersByPos Ball in
  let Amap := byKey Aall in
  let Bmap := byKey Ball in
  let outgoingA := resolveOutgoing Amap sendA in
  let outgoingB := resolveOutgoing Bmap sendB in
  let argsA :=
    {| arg_starters := removeOutgoing (starters Asplit) outgoingA;
       arg_bench := removeOutgoing (bench Asplit) outgoingA;
       incoming := outgoingB;
       freeAgents := FAall;
       startersByPos := startersByPos |} in
  let argsB :=
    {| arg_starters := removeOutgoing (starters Bsplit) outgoingB;
       arg_bench := removeOutgoing (bench Bsplit) outgoingB;
       incoming := outgoingA;
       freeAgents := FAall;
       startersByPos := startersByPos |} in
  let tiA := tradeImpactForTeam argsA in
  let tiB := tradeImpactForTeam argsB in
  {| Aall := Aall; Ball := Ball; FAall := FAall;
     Asplit := Asplit; Bsplit := Bsplit;
     outgoingA := outgoingA; outgoingB := outgoingB;
     argsA := argsA; argsB := argsB;
     tiA := tiA; tiB := tiB;
     verdictOf := verdict tiA tiB
                    (Some {| lossTol := Some lt; gainMin := Some gm;
                             imbalanceMax := Some im |}) |}.

(* ------------------------------------------------------------------ *)
(** ** A host for running the engine on examples *)

Module Host.

Definition isDigit (c : ascii) : bool :=
  let n := nat_of_ascii c in (48 <=? n)%nat && (n <=? 57)%nat.

Fixpoint digitsValue (acc : Z) (s : string) : option Z :=
  match s with
  | EmptyString => Some acc
  | String c s' =>
      if isDigit c
      then digitsValue (10 * acc + Z.of_nat (nat_of_ascii c - 48)) s'
      else None
  end.

(** [StringToNumber] on the empty string and on unsigned decimal
    integers; [NaN] on the strings that are not numeric literals, and on
    the other literal forms, which the examples do not use. *)
Definition parse (s : string) : float :=
  match digitsValue 0 s with
  | Some z => F64.ofZ z
  | None => PrimFloat.nan
  end.

(** [Number::toString] on the integers of magnitude below [1e21] and on
    the values that are not finite; the examples print no other Number. *)
Definition print (x : float) : string :=
  match Prim2SF x with
  | S754_zero _ => "0"
  | S754_infinity false => "Infinity"
  | S754_infinity true => "-Infinity"
  | S754_nan => "NaN"
  | S754_finite neg m e =>
      let z := if (0 <=? e)%Z then (Zpos m * 2 ^ e)%Z
               else (Zpos m / 2 ^ (- e))%Z in
      NilZero.string_of_int (Z.to_int (if neg then (- z)%Z else z))
  end.

Definition runtime : Runtime :=
  {| StringToNumber := parse; NumberToString := print |}.

End Host.

(* ================================================================== *)
(** * Definitions used to state the properties *)

Section Stated.

Context {num : Type} {ops : NumberOps num}.
Local Open Scope js_scope.

(** The per-game rate of a player in a category: the entry of [per]
    under the id of the category, and [0] when there is no entry or the
    entry is zero or not a number. *)
Definition rate (rt : Runtime) (p : Player num) (c : Category) : num :=
  match assoc (NumberToString rt (id c)) (per p) with
  | Some v => if num_falsy v then num_zero else v
  | None => num_zero
  end.

(** The per-game rates of one category over the pool. *)
Definition column (rt : Runtime) (pool : list (Player num)) (c : Category)
  : list num :=
  map (fun p => rate rt p c) pool.

(** The Numbers of a list added up from [0], left to right. *)
Definition total (xs : list num) : num := fold_left num_add xs num_zero.

(** The size of a population as a Number, [1] standing in for an empty
    one. *)
Definition populationSize (xs : list num) : num :=
  let n := fold_left (fun n _ => n + num_one) xs num_zero in
  if num_falsy n then num_one else n.

(** Population mean: the sum over the count. *)
Definition populationMean (xs : list num) : num :=
  total xs / populationSize xs.

(** Population variance, as the mean of the squares less the square of
    the mean, and never below [0]. *)
Definition populationVariance (xs : list num) : num :=
  let m := populationMean xs in
  num_max (total (map (fun x => x * x) xs) / populationSize xs - m * m)
          num_zero.

(** Population standard deviation, with the floor [1e-9] when it is
    zero. *)
Definition populationStdev (xs : list num) : num :=
  let s := num_sqrt (populationVariance xs) in
  if num_falsy s then num_eps else s.




(** [fillSlots] with each placement labelled by the slot it took: the
    program does not record the label, so this is the same loop with the
    label kept. *)
Fixpoint fillTrace (sorted : list (Player num)) (need : Need num)
  : list (Player num * string) :=
  match sorted with
  | [] => []
  | p :: rest =>
      match findSlot p need with
      | Some (slot, count) =>
          (p, slot) :: fillTrace rest (assocSet slot (count - num_one) need)
      | None => fillTrace rest need
      end
  end.

(** How many placements of a trace went to a slot label. *)
Definition placedUnder (slot : string) (trace : list (Player num * string))
  : nat :=
  List.length (filter (fun e => String.eqb slot (snd e)) trace).

(** A slot is open for a player: it has a count left and the player is
    eligible for it. *)
Definition fits (p : Player num) (e : string * num) : Prop :=
  eligible p (fst e) = true /\ num_gtb (snd e) num_zero = true.

(** Adjacent elements of the sorted array, as the comparator judges them:
    it puts the second after the first, or does not put the first after
    the second. *)
Definition inOrder (a b : Player num) : Prop :=
  sortsAfter b a = true \/ sortsAfter a b = false.

End Stated.

(* ------------------------------------------------------------------ *)
(** ** Statements about the binary64 engine, and sample inputs *)

(** [x <= y] and [x >= y] on Numbers, as propositions. *)
Definition fle (x y : float) : Prop := PrimFloat.leb x y = true.
Definition fge (x y : float) : Prop := fle y x.

(** The decision rule in the words of the specification, for given
    thresholds. *)
Definition approves (lossTol gainMin imbalanceMax tiA tiB : float) : Prop :=
  (fge tiA lossTol /\ fge tiB lossTol) /\
  (fge tiA gainMin \/ fge tiB gainMin) /\
  fle (PrimFloat.abs (tiA - tiB)%float) imbalanceMax.

(** The thresholds in force: the ones passed, and the defaults -0.35,
    0.25 and 1.0 for those that are not. *)
Definition lossTolOf (opts : option Thresholds) : float :=
  match opts with
  | Some {| lossTol := Some x |} => x
  | _ => (-0.35)%float
  end.
Definition gainMinOf (opts : option Thresholds) : float :=
  match opts with
  | Some {| gainMin := Some x |} => x
  | _ => 0.25%float
  end.
Definition imbalanceMaxOf (opts : option Thresholds) : float :=
  match opts with
  | Some {| imbalanceMax := Some x |} => x
  | _ => 1.0%float
  end.

(** The value of a binary64 datum as an integer number of units of
    [2^-1074], the spacing of the subnormals; an infinity lies beyond
    every finite value. *)
Definition scaled (x : spec_float) : Z :=
  match x with
  | S754_zero _ | S754_nan => 0%Z
  | S754_infinity s => cond_Zopp s (2 ^ 2100)%Z
  | S754_finite s m e => cond_Zopp s (Zpos m * 2 ^ (e + 1074))%Z
  end.

Definition isNaN (x : spec_float) : bool :=
  match x with S754_nan => true | _ => false end.

(** Strictly above zero. *)
Definition positiveSF (r : spec_float) : Prop :=
  match r with
  | S754_finite false _ _ | S754_infinity false => True
  | _ => False
  end.

Definition notPositiveSF (r : spec_float) : Prop :=
  match r with
  | S754_finite false _ _ | S754_infinity false => False
  | _ => True
  end.

(** The default thresholds, passed explicitly. *)
Definition defaults : option Thresholds :=
  Some {| lossTol := Some (-0.35)%float; gainMin := Some 0.25%float;
          imbalanceMax := Some 1.0%float |}.


(** The object the loop calls [stat]: [s.stat || s]. *)
Definition descriptorOf (s : JsVal) : JsVal := orVal (optProp s "stat") s.

(** The lower-cased name of a descriptor contains ["games played"]. *)
Definition namedGamesPlayed (stat : JsVal) : Prop :=
  exists str,
    optProp stat "name" = JStr str /\
    includes "games played" (toLowerCase str) = true.

(** The categories pushed by a run of loop turns. *)
Definition pushed (steps : list (Step Category)) : list Category :=
  flat_map (fun st => match st with Push c => [c] | Skip => [] end) steps.

(** A descriptor of the expected shape: an object whose [stat_id] is a
    scalar or absent and whose [name] is a string or absent. *)
Definition plainDescriptor (stat : JsVal) : Prop :=
  (exists props, stat = JObj props) /\
  (exists pr, optProp stat "stat_id" = JP pr) /\
  (optProp stat "name" = JUndef \/ exists str, optProp stat "name" = JStr str).

(** The [value] of a player read as a Number: [0] when the field is
    missing, zero or [NaN]. *)
Definition worth (p : Player float) : float :=
  match value p with
  | Some v => if PrimFloat.is_zero v || PrimFloat.is_nan v then 0%float else v
  | None => 0%float
  end.

(** The sum of [value] over a list of players, added up from [0] in the
    order of the list. *)
Definition totalWorth (l : list (Player float)) : float :=
  fold_left (fun acc p => (acc + worth p)%float) l 0%float.


(** The impact as the specification words it: the value of the chosen
    lineup less the value of the team's starting lineup before the trade
    (the starters of the roster split, outgoing players included). *)
Definition impactOverOriginalStarters (split : RosterSplit float)
  (a : TradeArgs float) : float :=
  (totalWorth (chosenLineup a) - totalWorth (starters split))%float.

(** The integer part of a Number that is finite, [0] otherwise. *)
Definition wholePart (x : float) : Z :=
  match Prim2SF x with
  | S754_finite s m e =>
      cond_Zopp s (if (0 <=? e)%Z then Zpos m * 2 ^ e
                   else Zpos m / 2 ^ (- e))%Z
  | _ => 0%Z
  end.

(** A count that is above [0] is a whole number: one of 1, 2, ... below
    [2^53], the range in which [count - 1] is exact.  A count that is not
    above [0] (zero, negative, [NaN]) is never read further. *)
Definition wholeCount (count : float) : Prop :=
  PrimFloat.ltb 0 count = true ->
  exists n : Z, (0 < n < 2 ^ 53)%Z /\ count = F64.ofZ n.

Definition wholeCounts (need : Need float) : Prop :=
  Forall (fun e => wholeCount (snd e)) need.

(** The number of players a slot mapping can still take: the counts above
    [0], added up. *)
Definition capacity (need : Need float) : Z :=
  fold_right
    (fun e acc =>
       ((if PrimFloat.ltb 0 (snd e) then wholePart (snd e) else 0) + acc)%Z)
    0%Z need.

(** Sample inputs. *)
Module Examples.

Definition skater (key : string) (positions : list string) (stat : float)
  : Player float :=
  {| player_key := Some key; pos := positions; isGoalie := false;
     stats := [("1", PNum stat)]; gp := PNum 1; games_played := PUndef;
     per := []; value := None |}.

Definition goals : Category :=
  {| id := 1%float; name := JStr "Goals"; position_type := JNull |}.



Definition oneCentre : Need float :=
  [("C", 1%float); ("Util", 0%float); ("G", 0%float)].

Definition centreAndUtil : Need float :=
  [("C", 1%float); ("Util", 1%float); ("G", 0%float)].

Definition teamA : list (Player float) := [skater "a1" ["C"] 2].
Definition teamB : list (Player float) := [skater "b1" ["C"] 0].
Definition pool3 : list (Player float) := [skater "f1" ["C"] 3].

(** Team A sends its only starter and receives nothing. *)
Definition starterLeaves : Evaluation :=
  evaluate Host.runtime (-0.35) 0.25 1.0 oneCentre [goals]
    teamA teamB [] ["a1"] [].

(** Nothing is exchanged. *)
Definition noTrade : Evaluation :=
  evaluate Host.runtime (-0.35) 0.25 1.0 centreAndUtil [goals]
    teamA teamB pool3 [] [].

(** A centre of A for a winger of B: A is left with an open centre slot,
    which a free agent fills. *)
Definition tradeA : list (Player float) :=
  [skater "a1" ["C"] 4; skater "a2" ["LW"] 1].
Definition tradeB : list (Player float) :=
  [skater "b1" ["C"] 0; skater "b2" ["LW"] 3].
Definition tradeFA : list (Player float) := [skater "f1" ["C"] 2].

Definition swap : Evaluation :=
  evaluate Host.runtime (-0.35) 0.25 1.0 centreAndUtil [goals]
    tradeA tradeB tradeFA ["a1"] ["b2"].

(** The request names a key that is on no roster. *)
Definition strangerKey : Evaluation :=
  evaluate Host.runtime (-0.35) 0.25 1.0 centreAndUtil [goals]
    teamA teamB pool3 ["constructor"] [].

Definition unknownKey : Evaluation :=
  evaluate Host.runtime (-0.35) 0.25 1.0 centreAndUtil [goals]
    teamA teamB pool3 ["zz9"] [].

Definition nullDescriptor : JsVal :=
  JObj [("stat_categories", JObj [("stats", JArr [JNull])])].

Definition sampleSettings : JsVal :=
  JObj [("stat_categories",
         JObj [("stats",
                JArr [ JObj [("stat", JObj [("stat_id", JNum 1);
                                            ("name", JStr "Goals")])];
                       JObj [("stat", JObj [("stat_id", JNum 0);
                                            ("name", JStr "GAMES Played")])];
                       JObj [("stat", JObj [("name", JStr "Assists")])];
                       JObj [("stat_id", JStr "2");
                             ("name", JStr "Assists");
                             ("position_type", JStr "P")] ])])].

End Examples.

(** Inputs at which the theorems are instantiated. *)
Module Witness.

Import Examples.

Definition goalie (key : string) (stat : float) : Player float :=
  {| player_key := Some key; pos := ["G"]; isGoalie := true;
     stats := [("1", PNum stat)]; gp := PNum 1; games_played := PUndef;
     per := []; value := None |}.

Definition valued (p : Player float) (x : float) : Player float :=
  setValue p x.

(** Three valued players of one team. *)
Definition roster : list (Player float) :=
  [ valued (skater "w1" ["LW"] 1) 0.5;
    valued (skater "c1" ["C"; "LW"] 3) 1.5;
    valued (goalie "g1" 2) (-0.25) ].

Definition slots : Need float :=
  [("C", 1%float); ("LW", 0%float); ("Util", 1%float); ("G", 0%float)].

(** A player with two raw statistics, one of them not numeric, and four
    games played. *)
Definition rawPlayer : Player float :=
  {| player_key := Some "r1"; pos := ["C"]; isGoalie := false;
     stats := [("1", PNum 6); ("2", PStr "n/a")];
     gp := PNum 4; games_played := PUndef; per := []; value := None |}.

(** The same player with no games played recorded. *)
Definition idlePlayer : Player float :=
  {| player_key := Some "r2"; pos := ["C"]; isGoalie := false;
     stats := [("1", PNum 6)];
     gp := PUndef; games_played := PNum 0; per := []; value := None |}.



(** Ten players level at 12007 seconds of ice time over 10 games. *)
Definition levelPlayer (key : string) : Player float :=
  {| player_key := Some key; pos := ["C"]; isGoalie := false;
     stats := [("1", PNum 12007)]; gp := PNum 10; games_played := PUndef;
     per := []; value := None |}.

Definition levelPool : list (Player float) :=
  computePerGame Host.runtime
    (Some (map levelPlayer
             ["p0"; "p1"; "p2"; "p3"; "p4"; "p5"; "p6"; "p7"; "p8"; "p9"])).

(** Six players level at 1000000001 over 10 games. *)
Definition farPlayer (key : string) : Player float :=
  {| player_key := Some key; pos := ["C"]; isGoalie := false;
     stats := [("1", PNum 1000000001)]; gp := PNum 10;
     games_played := PUndef; per := []; value := None |}.

Definition farPool : list (Player float) :=
  computePerGame Host.runtime
    (Some (map farPlayer ["p0"; "p1"; "p2"; "p3"; "p4"; "p5"])).

(** Two centres. *)
Definition twoCentres : list (Player float) :=
  [valued (skater "c1" ["C"] 3) 1.5; valued (skater "c2" ["C"] 1) 0.5].

End Witness.

(* ================================================================== *)
(** * fairness.js: computeStartersByPos *)

(** A value held by the object [out]: a count, or the text that [+=]
    leaves behind when it is applied to a member inherited from
    [Object.prototype]. *)
Inductive SlotValue : Type :=
| Count (x : float)
| Text (s : string).

Definition Slots : Type := list (string * SlotValue).

Definition slotLabels : list string := ["C"; "LW"; "RW"; "D"; "Util"; "G"].

(** [{ C: 0, LW: 0, RW: 0, D: 0, Util: 0, G: 0 }] *)
Definition noStarters : Slots :=
  map (fun l => (l, Count 0%float)) slotLabels.

(** [settings?.roster_positions?.roster_position || settings?.roster_positions || []] *)
Definition rosterPositions (settings : JsVal) : JsVal :=
  let rps := optProp settings "roster_positions" in
  orVal (orVal (optProp rps "roster_position") rps) (JArr []).

(** The first three statements of the loop body: the descriptor
    [rp?.roster_position || rp], its label
    [p.position || p?.name || ""] and its count
    [Number(p.count || p?.count || 0) || 0].  None of the names read here
    is inherited by an object, an array or a wrapped scalar. *)
Definition rosterEntry (rt : Runtime) (rp : JsVal) : Result (JsVal * float) :=
  let p := orVal (optProp rp "roster_position") rp in
  position <- getProp p "position" ;;
  let label := orVal (orVal position (optProp p "name")) (JStr "") in
  rawCount <- getProp p "count" ;;
  n <- ToNumber rt (orVal (orVal rawCount (optProp p "count")) (JNum 0)) ;;
  Ok (label, orElse n 0%float).

(** [v + count] as [+=] computes it: Number addition, or concatenation
    with the count printed when [v] is text. *)
Definition addCount (rt : Runtime) (v : SlotValue) (count : float)
  : SlotValue :=
  match v with
  | Count x => Count (x + count)%float
  | Text s => Text (s ++ NumberToString rt count)
  end.

(** [label === "F" || label === "UTIL" || label === "BN"] *)
Definition isUtilAlias (label : JsVal) : bool :=
  match label with
  | JP (PStr s) => String.eqb s "F" || String.eqb s "UTIL" || String.eqb s "BN"
  | _ => false
  end.

(** The rest of the loop body.  [out[label]] converts the label to a
    property key.  A key that [out] does not own but inherits from
    [Object.prototype] passes the test [!== undefined]: [+=] then stores,
    as an own property, the text of the inherited member followed by the
    count ([builtinText], which the host defines); the accessor
    [__proto__] ignores a text it is assigned. *)
Definition addSlots (rt : Runtime) (builtinText : string -> string)
  (out : Slots) (label : JsVal) (count : float) : Result Slots :=
  if F64.falsy count then Ok out
  else
    key <- ToString rt label ;;
    match assoc key out with
    | Some v => Ok (assocSet key (addCount rt v count) out)
    | None =>
        if existsb (String.eqb key) objectPrototypeKeys then
          if String.eqb key "__proto__" then Ok out
          else Ok (assocSet key
                     (Text (builtinText key ++ NumberToString rt count)) out)
        else if isUtilAlias label then
          Ok (assocSet "Util"
                (match assoc "Util" out with
                 | Some v => addCount rt v count
                 | None => Count PrimFloat.nan
                 end) out)
        else Ok out
    end.

(** The loop [for (const rp of pos)]. *)
Fixpoint countSlots (rt : Runtime) (builtinText : string -> string)
  (items : list JsVal) (out : Slots) : Result Slots :=
  match items with
  | [] => Ok out
  | rp :: rest =>
      e <- rosterEntry rt rp ;;
      out' <- addSlots rt builtinText out (fst e) (snd e) ;;
      countSlots rt builtinText rest out'
  end.

(** [computeStartersByPos(settings)].  A roster list that is a string is
    iterated character by character; a character has no label and no
    count, so how the string is cut does not matter. *)
Definition computeStartersByPos (rt : Runtime)
  (builtinText : string -> string) (settings : JsVal) : Result Slots :=
  items <- iterate (rosterPositions settings) ;;
  countSlots rt builtinText items noStarters.

(** The object returned, as the slot loops of [pickStarters] and
    [tradeImpactForTeam] read it.  They test a count with [count > 0] and
    store [count - 1]; both convert the count to a Number first, so a text
    is read as [Number(text)]. *)
Definition needOf (rt : Runtime) (slots : Slots) : Need float :=
  map (fun kv =>
         (fst kv,
          match snd kv with
          | Count x => x
          | Text s => StringToNumber rt s
          end)) slots.

(* ================================================================== *)
(** * index.js: normalize *)

(** [arr.map(f)] for a callback that can throw. *)
Fixpoint mapResult {A B} (f : A -> Result B) (l : list A) : Result (list B) :=
  match l with
  | [] => Ok []
  | x :: l' =>
      y <- f x ;;
      ys <- mapResult f l' ;;
      Ok (y :: ys)
  end.

(** [v[0]] and [v[1]]: an element of an array, the property ["0"] or
    ["1"] of an object, a character of a string.  (A character carries
    none of the properties read from it below, so which character it is
    does not matter.) *)
Definition getIndex (v : JsVal) (i : nat) : Result JsVal :=
  match v with
  | JP PUndef | JP PNull => TypeError
  | JArr items => Ok (nth i items JUndef)
  | JObj props =>
      Ok (match assoc (NilZero.string_of_uint (Nat.to_uint i)) props with
          | Some x => x
          | None => JUndef
          end)
  | JP (PStr s) =>
      Ok (match String.get i s with
          | Some c => JStr (String c EmptyString)
          | None => JUndef
          end)
  | _ => Ok JUndef
  end.

Module Yahoo.

(** The object [normalize] returns for one roster entry. *)
Record Entry : Type := {
  player_key : JsVal;
  name : JsVal;
  pos : list JsVal;
  isGoalie : bool;
  stats : list (string * float);
  gp : float
}.

End Yahoo.

(** [posBlock.map((x) => x.position)]: only an array has a [map]. *)
Definition positionsOf (posBlock : JsVal) : Result (list JsVal) :=
  match posBlock with
  | JArr xs => mapResult (fun x => getProp x "position") xs
  | _ => TypeError
  end.

(** [x === "G"], the test of [pos.includes("G")]. *)
Definition isG (x : JsVal) : bool :=
  match x with
  | JP (PStr s) => String.eqb s "G"
  | _ => false
  end.

(** [stats[s.stat.stat_id] = Number(s.value) || 0] on the object [stats],
    kept as the list of its own properties in the order they were first
    written.  Writing under [__proto__] is taken by the accessor of
    [Object.prototype], which ignores a Number, and adds no property. *)
Definition putStat (rt : Runtime) (stats : list (string * float))
  (s : JsVal) : Result (list (string * float)) :=
  stat <- getProp s "stat" ;;
  rawId <- getProp stat "stat_id" ;;
  key <- ToString rt rawId ;;
  rawValue <- getProp s "value" ;;
  n <- ToNumber rt rawValue ;;
  Ok (if String.eqb key "__proto__" then stats
      else assocSet key (orElse n 0%float) stats).

Fixpoint putStats (rt : Runtime) (items : list JsVal)
  (stats : list (string * float)) : Result (list (string * float)) :=
  match items with
  | [] => Ok stats
  | s :: rest =>
      stats' <- putStat rt stats s ;;
      putStats rt rest stats'
  end.

(** The callback of [normalize]. *)
Definition normalizeEntry (rt : Runtime) (p : JsVal) : Result Yahoo.Entry :=
  player <- getProp p "player" ;;
  info <- getIndex player 0 ;;
  second <- getIndex player 1 ;;
  pos <- positionsOf (orVal (optProp second "eligible_positions") (JArr [])) ;;
  let statsArr :=
    orVal (orVal (optProp (optProp second "player_points") "stats")
                 (optProp (optProp second "player_stats") "stats"))
          (JArr []) in
  n <- ToNumber rt
         (orVal (optProp (optProp second "player_stats") "coverage_value")
                (JNum 0)) ;;
  items <- iterate statsArr ;;
  stats <- putStats rt items [] ;;
  key <- (let k := optProp p "player_key" in
          if truthy k then Ok k else getProp info "player_id") ;;
  rawName <- getProp info "name" ;;
  Ok {| Yahoo.player_key := key;
        Yahoo.name := orVal (orVal (optProp rawName "full")
                                   (optProp rawName "first"))
                            (JStr "Unknown");
        Yahoo.pos := pos;
        Yahoo.isGoalie := existsb isG pos;
        Yahoo.stats := stats;
        Yahoo.gp := orElse n 0%float |}.

(** [normalize(yPlayers)]: [(yPlayers || []).map(...)]. *)
Definition normalize (rt : Runtime) (yPlayers : JsVal)
  : Result (list Yahoo.Entry) :=
  match yPlayers with
  | JArr ps => mapResult (normalizeEntry rt) ps
  | v => if truthy v then TypeError else Ok []
  end.

(* ================================================================== *)
(** * index.js: resolveLeagueKey *)

(** The three environment variables the function reads; [None] is a
    variable that is not set. *)
Record LeagueEnv : Type := {
  LEAGUE_KEY : option string;
  LEAGUE_ID : option string;
  LEAGUE_NAME : option string
}.

(** The truthy value of an environment variable, if it has one. *)
Definition envValue (o : option string) : option string :=
  match o with
  | Some s => if String.eqb s "" then None else Some s
  | None => None
  end.

(** What the provider answers: the object [yf.user.games()] resolves to,
    and the object [yf.user.game_leagues(key)] resolves to for each game
    key.  The answers are data of the provider, not code of this
    repository. *)
Record Provider : Type := {
  userGames : JsVal;
  gameLeagues : JsVal -> JsVal
}.

(** [arr.filter(f)] and [arr.find(f)] for a callback that can throw. *)
Fixpoint filterResult (f : JsVal -> Result bool) (l : list JsVal)
  : Result (list JsVal) :=
  match l with
  | [] => Ok []
  | x :: l' =>
      keep <- f x ;;
      rest <- filterResult f l' ;;
      Ok (if keep then x :: rest else rest)
  end.

Fixpoint findResult (f : JsVal -> Result bool) (l : list JsVal)
  : Result (option JsVal) :=
  match l with
  | [] => Ok None
  | x :: l' =>
      hit <- f x ;;
      if hit then Ok (Some x) else findResult f l'
  end.

(** [(v || []).filter(f)] and [(v || []).find(f)]: only an array has
    these methods. *)
Definition orEmpty (v : JsVal) : Result (list JsVal) :=
  match v with
  | JArr items => Ok items
  | _ => if truthy v then TypeError else Ok []
  end.

(** [g.code === "nhl"] *)
Definition isNhl (g : JsVal) : Result bool :=
  code <- getProp g "code" ;;
  Ok (match code with
      | JP (PStr s) => String.eqb s "nhl"
      | _ => false
      end).

(** The callback of [find].  Both constants are computed before the
    [return]: [idMatch] is
    [LEAGUE_ID && String(l.league_id) === String(LEAGUE_ID)] and
    [nameMatch] compares the two names after [.trim().toLowerCase()],
    which is the host's and is passed as [tidy]. *)
Definition leagueMatches (rt : Runtime) (tidy : string -> string)
  (env : LeagueEnv) (l : JsVal) : Result bool :=
  idMatch <- match envValue (LEAGUE_ID env) with
             | Some wanted =>
                 raw <- getProp l "league_id" ;;
                 s <- ToString rt raw ;;
                 Ok (String.eqb s wanted)
             | None => Ok false
             end ;;
  nameMatch <- match envValue (LEAGUE_NAME env) with
               | Some wanted =>
                   raw <- getProp l "name" ;;
                   s <- ToString rt raw ;;
                   Ok (String.eqb (tidy s) (tidy wanted))
               | None => Ok false
               end ;;
  Ok (idMatch || nameMatch).

(** The loop over the NHL games: the [league_key] of the first match, if
    there is one. *)
Fixpoint searchGames (rt : Runtime) (tidy : string -> string)
  (env : LeagueEnv) (provider : Provider) (games : list JsVal)
  : Result (option JsVal) :=
  match games with
  | [] => Ok None
  | g :: rest =>
      gameKey <- getProp g "game_key" ;;
      leagues <- getProp (gameLeagues provider gameKey) "leagues" ;;
      candidates <- orEmpty leagues ;;
      found <- findResult (leagueMatches rt tidy env) candidates ;;
      match found with
      | Some m =>
          if truthy m then
            key <- getProp m "league_key" ;;
            Ok (Some key)
          else searchGames rt tidy env provider rest
      | None => searchGames rt tidy env provider rest
      end
  end.

(** [resolveLeagueKey(req)], with the session passed along: the argument
    is the value of [req.session.leagueKey] before the call, the result
    is its value after the call and the value returned. *)
Definition resolveLeagueKey (rt : Runtime) (tidy : string -> string)
  (env : LeagueEnv) (provider : Provider) (session : JsVal)
  : Result (JsVal * JsVal) :=
  if truthy session then Ok (session, session)
  else
    match envValue (LEAGUE_KEY env) with
    | Some key => Ok (JStr key, JStr key)
    | None =>
        games <- getProp (userGames provider) "games" ;;
        all <- orEmpty games ;;
        nhlGames <- filterResult isNhl all ;;
        found <- searchGames rt tidy env provider nhlGames ;;
        match found with
        | Some key => Ok (key, key)
        | None => Ok (session, JNull)
        end
    end.

(* ================================================================== *)
(** * Definitions used to state the further properties *)

(** The Number held under a label. *)
Definition countOf (out : Slots) (label : string) : option float :=
  match assoc label out with
  | Some (Count x) => Some x
  | _ => None
  end.

(** An entry adds its count to a label: its count is not [0], and its
    label converts to the key, or the key is [Util] and the label is one
    of [F], [UTIL], [BN]. *)
Definition feeds (rt : Runtime) (slot : string) (e : JsVal * float) : bool :=
  negb (F64.falsy (snd e))
  && (match ToString rt (fst e) with
      | Ok k => String.eqb k slot
      | TypeError => false
      end
      || (String.eqb slot "Util" && isUtilAlias (fst e))).

(** The counts of the entries that feed a label, added up in order. *)
Definition slotTotal (rt : Runtime) (slot : string)
  (entries : list (JsVal * float)) : float :=
  fold_left PrimFloat.add (map snd (filter (feeds rt slot) entries)) 0%float.

(** The shape of every result: the six labels first, each with a Number,
    then nothing but keys that name members of [Object.prototype], each
    with a text. *)
Definition slotsShape (out : Slots) : Prop :=
  exists counts junk,
    out = combine slotLabels (map Count counts) ++ junk /\
    List.length counts = 6%nat /\
    Forall (fun kv => In (fst kv) objectPrototypeKeys /\
                      fst kv <> "__proto__" /\
                      exists s, snd kv = Text s) junk /\
    NoDup (map fst junk).

(** A roster entry of the expected form: an object, or an object wrapped
    under [roster_position], whose [position], [name] and [count] are
    scalars or absent. *)
Definition plainRosterEntry (rp : JsVal) : Prop :=
  let p := orVal (optProp rp "roster_position") rp in
  (exists props, p = JObj props) /\
  (exists a, optProp p "position" = JP a) /\
  (exists b, optProp p "name" = JP b) /\
  (exists c, optProp p "count" = JP c).

(** A host text for the members of [Object.prototype], for examples:
    the inherited [constructor] is the function [Object], and the other
    members used are functions that carry their own name. *)
Definition sampleBuiltinText (k : string) : string :=
  "function " ++ (if String.eqb k "constructor" then "Object" else k)
  ++ "() { [native code] }".

(** What one entry does to the Number held under a label. *)
Definition bump (hit : bool) (count : float) (o : option float)
  : option float :=
  if hit then option_map (fun x => (x + count)%float) o else o.

(** The roster list cannot be read: it is an object (a single entry that
    was not wrapped in an array, say), a Number or [true], or it is an
    array with a [null] entry. *)
Definition unreadableRoster (settings : JsVal) : Prop :=
  (exists props, rosterPositions settings = JObj props) \/
  (exists x, rosterPositions settings = JNum x) \/
  (exists b, rosterPositions settings = JP (PBool b)) \/
  (exists items, rosterPositions settings = JArr items /\ In JNull items).

(** A Number that is not [NaN]. *)
Definition isNumber (x : float) : Prop := PrimFloat.is_nan x = false.

(** A roster entry that lacks its [player] block. *)
Definition lacksPlayer (p : JsVal) : Prop :=
  optProp p "player" = JUndef \/ optProp p "player" = JNull.

(** The roster cannot be read: it is there and is not an array, or one of
    its entries lacks its [player] block. *)
Definition unreadablePlayers (yPlayers : JsVal) : Prop :=
  (truthy yPlayers = true /\ forall ps, yPlayers <> JArr ps) \/
  (exists ps p, yPlayers = JArr ps /\ In p ps /\ lacksPlayer p).

(** An impact or a threshold that is not a number. *)
Definition someNaN (tiA tiB : float) (opts : option Thresholds) : bool :=
  PrimFloat.is_nan tiA || PrimFloat.is_nan tiB
  || PrimFloat.is_nan (lossTolOf opts) || PrimFloat.is_nan (gainMinOf opts)
  || PrimFloat.is_nan (imbalanceMaxOf opts).

Section StatedLineup.
Context {num : Type} {ops : NumberOps num}.

(** No entry of the mapping is open for the player. *)
Definition unfit (need : Need num) (p : Player num) : Prop :=
  Forall (fun e => ~ fits p e) need.

(** The counts [need] holds when [tradeImpactForTeam] has run its two
    loops. *)
Definition needAfter (a : TradeArgs num) : Need num :=
  let after := arg_starters a ++ arg_bench a in
  let withIncoming := after ++ incoming a in
  let '(chosen, _, need) :=
    fillSlots (sortByValue withIncoming) (startersByPos a) in
  if anyOpen need
  then snd (backfill (sortByValue (freeAgents a)) chosen need)
  else need.

(** The counts [need] holds when [pickStarters] has run its loop. *)
Definition needLeft (startersByPos : Need num) (players : list (Player num))
  : Need num :=
  snd (fillSlots (sortByValue players) startersByPos).

End StatedLineup.

Section StatedKeys.
Context {num : Type} {ops : NumberOps num}.

(** The last player of a list that is listed under a key. *)
Definition lastWithKey (k : string) (l : list (Player num))
  : option (Player num) :=
  find (fun p => String.eqb (keyOf p) k) (rev l).

(** The key of the player is one of the keys sent. *)
Definition sent (send : list string) (p : Player num) : bool :=
  existsb (String.eqb (keyOf p)) send.

(** The player carries a key. *)
Definition hasKey (p : Player num) : Prop := player_key p <> None.

End StatedKeys.

(** The pool of [/api/evaluate] once it is valued. *)
Definition valuedPool (rt : Runtime) (cats : list Category)
  (A B FA : list (Player float)) : list (Player float) :=
  valuePlayers rt (computePerGame rt (Some (A ++ B ++ FA))) cats.

(** The verdict on two impacts of [0]. *)
Definition verdictAtZero (lt gm im : float) : Status :=
  if PrimFloat.leb lt 0 && PrimFloat.leb gm 0 && PrimFloat.leb 0 im
  then APPROVE else REVIEW.

(** A player whose [value || 0] is [0]. *)
Definition worthless (p : Player float) : Prop := value0 p = 0%float.

(** The place of a player's [value || 0] in the order of binary64
    Numbers. *)
Definition rank (p : Player float) : Z := scaled (Prim2SF (value0 p)).

(** The sorted merge of two lists of players in which the first list wins
    the ties. *)
Fixpoint mergeByValue (l1 l2 : list (Player float)) : list (Player float) :=
  match l1 with
  | [] => l2
  | a :: l1' =>
      (fix into (l2 : list (Player float)) : list (Player float) :=
         match l2 with
         | [] => l1
         | b :: l2' =>
             if (rank a <? rank b)%Z then b :: into l2'
             else a :: mergeByValue l1' l2
         end) l2
  end.

(** In descending order of rank. *)
Definition descending (l : list (Player float)) : Prop :=
  StronglySorted (fun a b => (rank b <= rank a)%Z) l.

(** The players at the head of a list whose rank is at least [v]. *)
Fixpoint ahead (v : Z) (l : list (Player float)) : list (Player float) :=
  match l with
  | [] => []
  | s :: l' => if (v <=? rank s)%Z then s :: ahead v l' else []
  end.

(** The league [l], of the NHL game [g] in the provider's answers,
    matches by id or by name and carries the key [key]. *)
Definition matchedLeague (rt : Runtime) (tidy : string -> string)
  (env : LeagueEnv) (provider : Provider) (g l key : JsVal) : Prop :=
  (exists games, orEmpty (optProp (userGames provider) "games") = Ok games /\
                 In g games) /\
  isNhl g = Ok true /\
  (exists leagues,
     orEmpty (optProp (gameLeagues provider (optProp g "game_key")) "leagues")
     = Ok leagues /\ In l leagues) /\
  leagueMatches rt tidy env l = Ok true /\
  optProp l "league_key" = key.

(** No criterion is configured. *)
Definition noCriterion (env : LeagueEnv) : Prop :=
  envValue (LEAGUE_KEY env) = None /\
  envValue (LEAGUE_ID env) = None /\
  envValue (LEAGUE_NAME env) = None.

(** Two category lists with the same ids, two pools with the same
    per-game rates. *)
Definition sameIds (cats cats' : list Category) : Prop :=
  Forall2 (fun c c' => id c = id c') cats cats'.

Definition sameRates {num} (pool pool' : list (Player num)) : Prop :=
  Forall2 (fun p p' => per p = per p') pool pool'.

(** Inputs at which the further theorems are instantiated. *)
Module Samples.

Import Examples.

Definition entry (label : string) (count : float) : JsVal :=
  JObj [("position", JStr label); ("count", JNum count)].

Definition wrapped (label : string) (count : float) : JsVal :=
  JObj [("roster_position", entry label count)].

Definition rosterList : list JsVal :=
  [ wrapped "C" 2; wrapped "LW" 2; wrapped "BN" 4; wrapped "IR" 1;
    entry "G" 2; entry "constructor" 1; entry "C" 0 ].

Definition leagueSettings : JsVal :=
  JObj [("roster_positions", JArr rosterList)].

Definition leagueSlots : Slots :=
  [ ("C", Count 2); ("LW", Count 2); ("RW", Count 0); ("D", Count 0);
    ("Util", Count 4); ("G", Count 2);
    ("constructor", Text "function Object() { [native code] }1") ].

(** League settings with one and a half centre slots. *)
Definition halfSettings : JsVal :=
  JObj [("roster_positions", JArr [entry "C" 1.5])].

Definition halfSlots : Slots :=
  [ ("C", Count 1.5); ("LW", Count 0); ("RW", Count 0); ("D", Count 0);
    ("Util", Count 0); ("G", Count 0) ].

(** A single roster position that was not wrapped in an array. *)
Definition singleEntrySettings : JsVal :=
  JObj [("roster_positions", JObj [("roster_position", entry "C" 2)])].

Definition looseThresholds : option Thresholds :=
  Some {| lossTol := Some (-1)%float; gainMin := None;
          imbalanceMax := Some 2%float |}.

Definition centre : Player float :=
  Witness.valued (skater "c1" ["C"; "LW"] 3) 1.5.
Definition winger : Player float :=
  Witness.valued (skater "w1" ["LW"] 1) 0.5.
Definition keeper : Player float :=
  Witness.valued (Witness.goalie "g1" 2) (-0.25).
Definition freeAgent : Player float :=
  Witness.valued (skater "f1" ["C"] 2) 1.

Definition tradeArgs : TradeArgs float :=
  {| arg_starters := [centre]; arg_bench := [keeper];
     incoming := [winger]; freeAgents := [freeAgent];
     startersByPos := Witness.slots |}.

Definition noSlots : Need float := [("C", 0%float); ("Util", 0%float)].

Definition idleArgs : TradeArgs float :=
  {| arg_starters := []; arg_bench := Witness.roster;
     incoming := []; freeAgents := [freeAgent];
     startersByPos := noSlots |}.

(** A roster as the provider sends it: one goalie, with one statistic
    whose value is not numeric. *)
Definition yahooRoster : JsVal :=
  JArr [ JObj [ ("player_key", JStr "p1");
                ("player",
                 JArr [ JObj [ ("player_id", JNum 7);
                               ("name", JObj [("full", JStr "A B")]) ];
                        JObj [ ("eligible_positions",
                                JArr [JObj [("position", JStr "G")]]);
                               ("player_stats",
                                JObj [ ("coverage_value", JStr "3");
                                       ("stats",
                                        JArr [ JObj [ ("stat",
                                                       JObj [("stat_id", JNum 1)]);
                                                      ("value", JStr "x") ] ])
                                     ]) ] ]) ] ].

Definition yahooPlayers : list Yahoo.Entry :=
  [ {| Yahoo.player_key := JStr "p1"; Yahoo.name := JStr "A B";
       Yahoo.pos := [JStr "G"]; Yahoo.isGoalie := true;
       Yahoo.stats := [("1", 0%float)]; Yahoo.gp := 3%float |} ].

(** The category of [goals] under another name and for goalies only. *)
Definition goalsForGoalies : Category :=
  {| id := 1%float; name := JStr "GLS"; position_type := JStr "G" |}.

(** [Witness.rawPlayer] with its per-game rates, and a goalie with the
    same rates and nothing else in common. *)
Definition ratedSkater : Player float :=
  setPer Witness.rawPlayer [("1", 1.5%float)].

Definition ratedGoalie : Player float :=
  {| player_key := Some "g9"; pos := ["G"]; isGoalie := true; stats := [];
     gp := PNum 7; games_played := PUndef; per := [("1", 1.5%float)];
     value := None |}.

(** A user with one football and one hockey game; the provider lists one
    league under each game. *)
Definition provider : Provider :=
  {| userGames :=
       JObj [("games",
              JArr [ JObj [("code", JStr "nfl"); ("game_key", JStr "449")];
                     JObj [("code", JStr "nhl"); ("game_key", JStr "453")] ])];
     gameLeagues := fun key =>
       JObj [("leagues",
              JArr [ JObj [ ("league_id", JNum 77);
                            ("name", JStr "Puck Luck");
                            ("league_key", JStr "453.l.77") ] ])] |}.

Definition byId : LeagueEnv :=
  {| LEAGUE_KEY := None; LEAGUE_ID := Some "77"; LEAGUE_NAME := Some "" |}.

Definition unset : LeagueEnv :=
  {| LEAGUE_KEY := Some ""; LEAGUE_ID := None; LEAGUE_NAME := None |}.

End Samples.

(* ================================================================== *)
(** * Facts about dictionaries *)

Section DictFacts.

Context {V : Type}.

Lemma assoc_assocSet_same (k : string) (v : V) (d : list (string * V)) :
  assoc k (assocSet k v d) = Some v.
Proof.
  induction d as [|[k' v'] d IH]; simpl.
  - now rewrite String.eqb_refl.
  - destruct (String.eqb k k') eqn:E; simpl; rewrite E; auto.
Qed.

Lemma assoc_assocSet_other (k k' : string) (v : V) (d : list (string * V)) :
  k <> k' -> assoc k' (assocSet k v d) = assoc k' d.
Proof.
  intros Hne.
  induction d as [|[k0 v0] d IH]; simpl.
  - destruct (String.eqb k' k) eqn:E; auto.
    apply String.eqb_eq in E. congruence.
  - destruct (String.eqb k k0) eqn:E; simpl.
    + apply String.eqb_eq in E. subst k0.
      destruct (String.eqb k' k) eqn:E'; auto.
      apply String.eqb_eq in E'. congruence.
    + now rewrite IH.
Qed.

Lemma assocSet_keys_present (k : string) (v v0 : V) (d : list (string * V)) :
  assoc k d = Some v0 -> map fst (assocSet k v d) = map fst d.
Proof.
  induction d as [|[k' v'] d IH]; simpl; intros H.
  - discriminate.
  - destruct (String.eqb k k') eqn:E; simpl; auto.
    now rewrite IH.
Qed.

Lemma assoc_In (k : string) (v : V) (d : list (string * V)) :
  assoc k d = Some v -> In (k, v) d.
Proof.
  induction d as [|[k' v'] d IH]; simpl; intros H.
  - discriminate.
  - destruct (String.eqb k k') eqn:E.
    + apply String.eqb_eq in E. inversion H. subst. now left.
    + right. auto.
Qed.

Lemma assoc_None_notin (k : string) (d : list (string * V)) :
  assoc k d = None -> ~ In k (map fst d).
Proof.
  induction d as [|[k' v'] d IH]; simpl; intros H.
  - tauto.
  - destruct (String.eqb k k') eqn:E; [discriminate|].
    apply String.eqb_neq in E. intros [Heq|Hin]; [congruence|].
    now apply IH.
Qed.

Lemma In_assoc_NoDup (k : string) (v : V) (d : list (string * V)) :
  NoDup (map fst d) -> In (k, v) d -> assoc k d = Some v.
Proof.
  induction d as [|[k' v'] d IH]; simpl; intros Hnd Hin.
  - tauto.
  - inversion Hnd as [|? ? Hnotin Hnd']; subst.
    destruct Hin as [Heq|Hin].
    + inversion Heq; subst. now rewrite String.eqb_refl.
    + destruct (String.eqb k k') eqn:E.
      * apply String.eqb_eq in E. subst k'.
        exfalso. apply Hnotin. change k with (fst (k, v)).
        now apply in_map.
      * auto.
Qed.

End DictFacts.

(* ================================================================== *)
(** * The value scorer *)

Section ScorerFacts.

Context {num : Type} {ops : NumberOps num}.
Local Open Scope js_scope.

Variable rt : Runtime.



Lemma perValue_setValue (p : Player num) (x : num) (c : Category) :
  perValue rt (setValue p x) c = perValue rt p c.
Proof. reflexivity. Qed.

(** The scorer reads a player through [perValue] only. *)
Lemma addPlayer_setValue (cats : list Category) (t : Totals num)
  (p : Player num) (x : num) :
  addPlayer rt cats t (setValue p x) = addPlayer rt cats t p.
Proof. reflexivity. Qed.

Lemma accumulate_scored (f : Player num -> num) (cats : list Category)
  (pool : list (Player num)) (t : Totals num) :
  fold_left (addPlayer rt cats) (map (fun p => setValue p (f p)) pool) t
  = fold_left (addPlayer rt cats) pool t.
Proof.
  revert t. induction pool as [|p pool IH]; intros t; simpl.
  - reflexivity.
  - rewrite IH. reflexivity.
Qed.

Lemma composite_setValue (ms : Moments num) (cats : list Category)
  (p : Player num) (x : num) :
  composite rt ms cats (setValue p x) = composite rt ms cats p.
Proof. reflexivity. Qed.

Lemma setValue_setValue (p : Player num) (x y : num) :
  setValue (setValue p x) y = setValue p y.
Proof. reflexivity. Qed.

(** ** The totals of a category are the sums over its column *)











(** C7.  Scoring an already scored pool again writes the same [value] on
    every player: the scorer reads the per-game values and the category
    list, never a value it wrote before. *)
Theorem valuePlayers_idempotent (pool : list (Player num))
  (cats : list Category) :
  valuePlayers rt (valuePlayers rt pool cats) cats
  = valuePlayers rt pool cats.
Proof.
  unfold valuePlayers.
  set (ms := moments rt (accumulate rt pool cats) cats).
  assert (Hacc : accumulate rt
                   (map (fun p => setValue p
                                    (num_toFixed4 (composite rt ms cats p)))
                        pool) cats
                 = accumulate rt pool cats).
  { unfold accumulate.
    apply (accumulate_scored
             (fun p => num_toFixed4 (composite rt ms cats p))). }
  rewrite Hacc. fold ms. rewrite map_map.
  apply map_ext. intros p.
  rewrite composite_setValue, setValue_setValue. reflexivity.
Qed.

End ScorerFacts.

(* ================================================================== *)
(** * Level pools at binary64 *)

(** C9, at a failing input.  Ten players with the same per-game rate
    1200.7 in the one category (12007 over 10 games each).  The mean the
    scorer computes, sum / 10, is 1200.7000000000003, not the common rate;
    the variance comes out as 0, so the deviation is the floor 1e-9, and
    the residue of the mean is divided by it: every term is -0.000227
    instead of 0, the terms add up to -0.00227, every [value] is -0.0002,
    and so is their mean, beyond the 0.00005 that rounding to four
    decimals accounts for.  Six players level at 100000000.1 are valued
    -14.9012 each. *)
Theorem level_pool_not_centred :
  let cats := [Examples.goals] in
  let pool := Witness.levelPool in
  let rates := column Host.runtime pool Examples.goals in
  let terms :=
    map (composite Host.runtime
           (moments Host.runtime (accumulate Host.runtime pool cats) cats)
           cats) pool in
  let scored := valuePlayers Host.runtime pool cats in
  rates = repeat 1200.7%float 10 /\
  populationMean rates = 1200.7000000000003%float /\
  populationVariance rates = 0%float /\
  populationStdev rates = 1e-9%float /\
  terms = repeat (-0.00022737367544323203)%float 10 /\
  total terms = (-0.0022737367544323202)%float /\
  map value scored = repeat (Some (-0.0002)%float) 10 /\
  PrimFloat.ltb (totalWorth scored / 10)%float (-0.00005)%float = true /\
  map value (valuePlayers Host.runtime Witness.farPool cats)
  = repeat (Some (-14.9012)%float) 6.
Proof. cbv zeta. repeat split; vm_compute; reflexivity. Qed.

(* ================================================================== *)
(** * The order of binary64 Numbers *)

Section F64Order.

Local Open Scope Z_scope.

(** ** Comparison is comparison of the scaled values *)

Lemma digits_bounds (m : positive) :
  2 ^ (Zpos (digits2_pos m) - 1) <= Zpos m < 2 ^ Zpos (digits2_pos m).
Proof.
  induction m as [m IH|m IH|]; simpl digits2_pos.
  - rewrite Pos2Z.inj_succ.
    replace (Z.succ (Zpos (digits2_pos m)) - 1) with (Z.succ (Zpos (digits2_pos m) - 1)) by lia.
    rewrite !Z.pow_succ_r by lia. lia.
  - rewrite Pos2Z.inj_succ.
    replace (Z.succ (Zpos (digits2_pos m)) - 1) with (Z.succ (Zpos (digits2_pos m) - 1)) by lia.
    rewrite !Z.pow_succ_r by lia. lia.
  - simpl. lia.
Qed.

Lemma valid_finite (s : bool) (m : positive) (e : Z) :
  valid_binary (S754_finite s m e) = true ->
  -1074 <= e <= 971 /\
  Zpos (digits2_pos m) <= 53 /\
  (-1074 < e -> Zpos (digits2_pos m) = 53).
Proof.
  unfold SpecFloat.valid_binary, bounded.
  intros H. apply andb_true_iff in H. destruct H as [H1 H2].
  unfold canonical_mantissa, fexp, SpecFloat.emin in H1.
  unfold prec, emax in H1, H2.
  apply Z.eqb_eq in H1. apply Z.leb_le in H2. lia.
Qed.

Lemma pow2_pos (k : Z) : 0 <= k -> 0 < 2 ^ k.
Proof. intros. apply Z.pow_pos_nonneg; lia. Qed.

Lemma finite_lt_exp (m1 m2 : positive) (e1 e2 : Z) (s1 s2 : bool) :
  valid_binary (S754_finite s1 m1 e1) = true ->
  valid_binary (S754_finite s2 m2 e2) = true ->
  e1 < e2 ->
  Zpos m1 * 2 ^ (e1 + 1074) < Zpos m2 * 2 ^ (e2 + 1074).
Proof.
  intros V1 V2 Hlt.
  apply valid_finite in V1, V2.
  destruct V1 as (He1 & Hd1 & _). destruct V2 as (He2 & _ & Hd2).
  assert (D2 : Zpos (digits2_pos m2) = 53) by (apply Hd2; lia).
  pose proof (digits_bounds m1) as B1. pose proof (digits_bounds m2) as B2.
  rewrite D2 in B2.
  assert (U1 : Zpos m1 < 2 ^ 53).
  { eapply Z.lt_le_trans; [apply B1|]. apply Z.pow_le_mono_r; lia. }
  replace (e2 + 1074) with ((e1 + 1074) + (e2 - e1)) by lia.
  rewrite (Z.pow_add_r 2 (e1 + 1074) (e2 - e1)) by lia.
  assert (P : 0 < 2 ^ (e1 + 1074)) by (apply pow2_pos; lia).
  assert (Q : 2 ^ 1 <= 2 ^ (e2 - e1)) by (apply Z.pow_le_mono_r; lia).
  rewrite Z.pow_1_r in Q.
  change (53 - 1) with 52 in B2.
  assert (T : 2 ^ 53 = 2 * 2 ^ 52) by reflexivity.
  rewrite T in U1.
  set (P' := 2 ^ (e1 + 1074)) in *. set (Q' := 2 ^ (e2 - e1)) in *.
  set (A := 2 ^ 52) in *.
  assert (S1 : Z.pos m1 * P' < 2 * A * P') by nia.
  assert (S2 : A * P' <= Z.pos m2 * P') by nia.
  assert (S3 : Z.pos m2 * P' * 2 <= Z.pos m2 * P' * Q') by nia.
  lia.
Qed.

Lemma finite_bound (s : bool) (m : positive) (e : Z) :
  valid_binary (S754_finite s m e) = true ->
  0 < Zpos m * 2 ^ (e + 1074) < 2 ^ 2100.
Proof.
  intros V. apply valid_finite in V. destruct V as (He & Hd & _).
  pose proof (digits_bounds m) as B.
  assert (U : Zpos m < 2 ^ 53).
  { eapply Z.lt_le_trans; [apply B|]. apply Z.pow_le_mono_r; lia. }
  assert (P : 0 < 2 ^ (e + 1074)) by (apply pow2_pos; lia).
  assert (Q : 2 ^ (e + 1074) <= 2 ^ 2045) by (apply Z.pow_le_mono_r; lia).
  assert (T : 2 ^ 2100 = 2 ^ 53 * 2 ^ 2045 * 4).
  { rewrite <- Z.pow_add_r by lia. change 4 with (2 ^ 2).
    rewrite <- Z.pow_add_r by lia. reflexivity. }
  assert (P53 : 0 < 2 ^ 53) by (apply pow2_pos; lia).
  assert (P2045 : 0 < 2 ^ 2045) by (apply pow2_pos; lia).
  split; [nia|]. rewrite T.
  set (P' := 2 ^ (e + 1074)) in *. set (A := 2 ^ 53) in *.
  set (B' := 2 ^ 2045) in *.
  assert (S1 : Z.pos m * P' < A * P') by nia.
  assert (S2 : A * P' <= A * B') by nia.
  nia.
Qed.

Lemma finite_compare (sx sy : bool) (mx my : positive) (ex ey : Z) :
  valid_binary (S754_finite sx mx ex) = true ->
  valid_binary (S754_finite sy my ey) = true ->
  SFcompare (S754_finite sx mx ex) (S754_finite sy my ey)
  = Some (scaled (S754_finite sx mx ex) ?= scaled (S754_finite sy my ey)).
Proof.
  intros VX VY.
  pose proof (finite_bound _ _ _ VX) as BX.
  pose proof (finite_bound _ _ _ VY) as BY.
  assert (Hlt : ex < ey ->
                Zpos mx * 2 ^ (ex + 1074) < Zpos my * 2 ^ (ey + 1074))
    by (apply (finite_lt_exp _ _ _ _ _ _ VX VY)).
  assert (Hgt : ey < ex ->
                Zpos my * 2 ^ (ey + 1074) < Zpos mx * 2 ^ (ex + 1074))
    by (apply (finite_lt_exp _ _ _ _ _ _ VY VX)).
  assert (Heq : ex = ey ->
                (Zpos mx * 2 ^ (ex + 1074) ?= Zpos my * 2 ^ (ey + 1074))
                = (mx ?= my)%positive).
  { intros ->. rewrite <- Zmult_compare_compat_r by lia. reflexivity. }
  unfold SFcompare, scaled. clear VX VY. f_equal.
  set (a := Zpos mx * 2 ^ (ex + 1074)) in *.
  set (b := Zpos my * 2 ^ (ey + 1074)) in *.
  destruct sx, sy; simpl cond_Zopp.
  - rewrite Z.compare_opp.
    destruct (Z.compare_spec ex ey) as [E|E|E].
    + change (Pos.compare_cont Eq mx my) with (mx ?= my)%positive.
      rewrite (Z.compare_antisym a b), (Heq E). reflexivity.
    + symmetry. apply Z.compare_gt_iff. auto.
    + symmetry. apply Z.compare_lt_iff. auto.
  - symmetry. apply Z.compare_lt_iff. lia.
  - symmetry. apply Z.compare_gt_iff. lia.
  - destruct (Z.compare_spec ex ey) as [E|E|E].
    + change (Pos.compare_cont Eq mx my) with (mx ?= my)%positive.
      now rewrite (Heq E).
    + symmetry. apply Z.compare_lt_iff. auto.
    + symmetry. apply Z.compare_gt_iff. auto.
Qed.

Lemma SFcompare_scaled (X Y : spec_float) :
  valid_binary X = true -> valid_binary Y = true ->
  isNaN X = false -> isNaN Y = false ->
  SFcompare X Y = Some (scaled X ?= scaled Y).
Proof.
  intros VX VY NX NY.
  assert (P : 0 < 2 ^ 2100) by (apply pow2_pos; lia).
  destruct X as [sx|sx| |sx mx ex]; try discriminate;
    destruct Y as [sy|sy| |sy my ey]; try discriminate;
    try (apply finite_compare; assumption);
    try (pose proof (finite_bound _ _ _ VX) as BX);
    try (pose proof (finite_bound _ _ _ VY) as BY);
    unfold SFcompare, scaled; f_equal;
    set (big := 2 ^ 2100) in *;
    repeat match goal with
    | s : bool |- _ => destruct s
    end; cbv beta iota delta [cond_Zopp]; symmetry;
    first [ apply Z.compare_eq_iff; lia
          | apply Z.compare_lt_iff; lia
          | apply Z.compare_gt_iff; lia ].
Qed.

(** ** Right shifts keep a mantissa positive *)

Lemma iter_pos_nat {A} (f : A -> A) (p : positive) (x : A) :
  SpecFloat.iter_pos f p x = Nat.iter (Pos.to_nat p) f x.
Proof.
  revert x. induction p as [p IH|p IH|]; intros x; simpl SpecFloat.iter_pos.
  - rewrite !IH, Pos2Nat.inj_xI.
    rewrite <- Nat.iter_add, <- Nat.iter_succ_r. f_equal. lia.
  - rewrite !IH, Pos2Nat.inj_xO, <- Nat.iter_add. f_equal. lia.
  - reflexivity.
Qed.

Lemma shr_1_half (r : shr_record) :
  0 <= shr_m r -> shr_m (shr_1 r) = Z.div2 (shr_m r).
Proof.
  destruct r as [m b s]. simpl.
  destruct m as [|[p|p|]|p]; simpl; intros H; try reflexivity; lia.
Qed.

Lemma shr_iter_pos (k : nat) (r : shr_record) :
  2 ^ Z.of_nat k <= shr_m r -> 0 < shr_m (Nat.iter k shr_1 r).
Proof.
  revert r. induction k as [|k IH]; intros r H.
  - simpl in *. lia.
  - rewrite Nat.iter_succ_r. apply IH.
    rewrite Nat2Z.inj_succ, Z.pow_succ_r in H by lia.
    assert (P : 0 < 2 ^ Z.of_nat k) by (apply pow2_pos; lia).
    rewrite shr_1_half by lia.
    rewrite Z.div2_div. apply Z.div_le_lower_bound; lia.
Qed.

Lemma shr_fexp_pos (m : positive) (e : Z) (l : location) :
  -1074 <= e ->
  0 < shr_m (fst (shr_fexp prec emax (Zpos m) e l)) /\
  -1074 <= snd (shr_fexp prec emax (Zpos m) e l).
Proof.
  intros He. unfold shr_fexp, shr, fexp, SpecFloat.emin, prec, emax, Zdigits2.
  assert (Hm : shr_m (shr_record_of_loc (Zpos m) l) = Zpos m)
    by (destruct l as [|[| |]]; reflexivity).
  destruct (Z.max (Zpos (digits2_pos m) + e - 53) (3 - 1024 - 53) - e)
    as [|p|p] eqn:En; simpl fst; simpl snd.
  - rewrite Hm. lia.
  - split; [|lia].
    rewrite iter_pos_nat. apply shr_iter_pos.
    rewrite Hm, positive_nat_Z.
    pose proof (digits_bounds m) as B.
    eapply Z.le_trans; [|apply B].
    apply Z.pow_le_mono_r; lia.
  - rewrite Hm. lia.
Qed.

Lemma round_nearest_even_pos (m : Z) (l : location) :
  0 < m -> 0 < round_nearest_even m l.
Proof.
  intros H. unfold round_nearest_even.
  destruct l as [|[| |]]; try destruct (Z.even m); lia.
Qed.

Lemma binary_round_aux_pos (m : positive) (e : Z) (l : location) :
  -1074 <= e -> positiveSF (binary_round_aux prec emax false (Zpos m) e l).
Proof.
  intros He. unfold binary_round_aux.
  destruct (shr_fexp_pos m e l He) as [P1 E1].
  destruct (shr_fexp prec emax (Zpos m) e l) as [mrs' e'].
  simpl fst in *; simpl snd in *.
  pose proof (round_nearest_even_pos (shr_m mrs') (loc_of_shr_record mrs') P1)
    as P2.
  destruct (round_nearest_even (shr_m mrs') (loc_of_shr_record mrs'))
    as [|m2|m2]; try lia.
  destruct (shr_fexp_pos m2 e' loc_Exact E1) as [P3 _].
  destruct (shr_fexp prec emax (Zpos m2) e' loc_Exact) as [mrs'' e''].
  simpl fst in *.
  destruct (shr_m mrs'') as [|m3|m3]; try lia.
  destruct (e'' <=? emax - prec); exact I.
Qed.

Lemma binary_round_aux_neg (m e : Z) (l : location) :
  notPositiveSF (binary_round_aux prec emax true m e l).
Proof.
  unfold binary_round_aux.
  destruct (shr_fexp prec emax m e l) as [mrs' e'].
  destruct (shr_fexp prec emax _ e' loc_Exact) as [mrs'' e''].
  destruct (shr_m mrs''); try exact I.
  destruct (e'' <=? emax - prec); exact I.
Qed.

Lemma binary_round_pos (m : positive) (e : Z) :
  -1074 <= e -> positiveSF (binary_round prec emax false m e).
Proof.
  intros He. unfold binary_round.
  destruct (shl_align m e (fexp prec emax (Zpos (digits2_pos m) + e)))
    as [mz ez] eqn:E.
  apply binary_round_aux_pos.
  unfold shl_align in E.
  destruct (fexp prec emax (Zpos (digits2_pos m) + e) - e) eqn:D;
    inversion E; subst; try lia.
  unfold fexp, SpecFloat.emin, prec, emax. lia.
Qed.

Lemma binary_round_neg (m : positive) (e : Z) :
  notPositiveSF (binary_round prec emax true m e).
Proof.
  unfold binary_round.
  destruct (shl_align m e _) as [mz ez].
  apply binary_round_aux_neg.
Qed.

Lemma positiveSF_ltb (r : spec_float) :
  SFltb (S754_zero false) r = true <-> positiveSF r.
Proof.
  destruct r as [s|s| |s m e]; simpl; try destruct s; simpl;
    split; intros H; try discriminate; try contradiction; auto.
Qed.

Lemma notPositiveSF_ltb (r : spec_float) :
  notPositiveSF r -> SFltb (S754_zero false) r = false.
Proof.
  destruct r as [s|s| |s m e]; simpl; try destruct s; simpl;
    intros H; try contradiction; reflexivity.
Qed.

(** ** Alignment and the sign of a difference *)

Lemma iter_xO (m d : positive) :
  Zpos (Pos.iter xO m d) = Zpos m * 2 ^ Zpos d.
Proof.
  induction d as [|d IH] using Pos.peano_ind.
  - simpl. lia.
  - rewrite Pos.iter_succ, Pos2Z.inj_xO, IH, Pos2Z.inj_succ,
      Z.pow_succ_r by lia. lia.
Qed.

Lemma shl_align_value (m : positive) (e e' : Z) :
  e' <= e -> -1074 <= e' ->
  Zpos (fst (shl_align m e e')) * 2 ^ (e' + 1074) = Zpos m * 2 ^ (e + 1074).
Proof.
  intros Hle He. unfold shl_align.
  destruct (e' - e) as [|d|d] eqn:D; simpl fst; try lia.
  - assert (e' = e) by lia. subst. reflexivity.
  - rewrite iter_xO. replace (e + 1074) with (Zpos d + (e' + 1074)) by lia.
    rewrite (Z.pow_add_r 2 (Zpos d) (e' + 1074)) by lia. lia.
Qed.

Theorem sub_positive (X Y : spec_float) :
  valid_binary X = true -> valid_binary Y = true ->
  SFltb (S754_zero false) (SFsub prec emax X Y) = SFltb Y X.
Proof.
  intros VX VY.
  destruct X as [sx|sx| |sx mx ex]; destruct Y as [sy|sy| |sy my ey];
    try (simpl; repeat match goal with s : bool |- _ => destruct s end;
         reflexivity).
  unfold SFltb at 2.
  rewrite SFcompare_scaled by (assumption || reflexivity).
  pose proof (valid_finite _ _ _ VX) as (HeX & _).
  pose proof (valid_finite _ _ _ VY) as (HeY & _).
  unfold SFsub.
  set (ez := Z.min ex ey).
  assert (Hx := shl_align_value mx ex ez ltac:(subst ez; lia) ltac:(subst ez; lia)).
  assert (Hy := shl_align_value my ey ez ltac:(subst ez; lia) ltac:(subst ez; lia)).
  assert (P : 0 < 2 ^ (ez + 1074)) by (apply pow2_pos; subst ez; lia).
  unfold scaled.
  set (a := Zpos (fst (shl_align mx ex ez))) in *.
  set (b := Zpos (fst (shl_align my ey ez))) in *.
  rewrite <- Hx, <- Hy.
  set (M := cond_Zopp sx a - cond_Zopp sy b).
  assert (HM : (cond_Zopp sy (b * 2 ^ (ez + 1074))
                ?= cond_Zopp sx (a * 2 ^ (ez + 1074)))
               = (0 ?= M)).
  { subst M. destruct sx, sy; unfold cond_Zopp;
      destruct (Z.compare_spec 0 (a - b)); 
      destruct (Z.compare_spec 0 (- a - b));
      destruct (Z.compare_spec 0 (a - - b));
      destruct (Z.compare_spec 0 (- a - - b));
      first [ apply Z.compare_eq_iff; nia
            | apply Z.compare_lt_iff; nia
            | apply Z.compare_gt_iff; nia ]. }
  rewrite HM. unfold binary_normalize.
  destruct M as [|m|m] eqn:EM.
  - reflexivity.
  - simpl Z.compare. apply positiveSF_ltb. apply binary_round_pos.
    subst ez. lia.
  - simpl Z.compare. apply notPositiveSF_ltb. apply binary_round_neg.
Qed.

Theorem ltb_sub (x y : float) :
  PrimFloat.ltb 0 (x - y)%float = PrimFloat.ltb y x.
Proof.
  rewrite !FloatAxioms.ltb_spec, FloatAxioms.sub_spec.
  replace (Prim2SF 0) with (S754_zero false) by reflexivity.
  apply sub_positive; apply FloatAxioms.Prim2SF_valid.
Qed.

(** ** Whole numbers *)

(** The number of binary digits of a positive number is fixed by the
    powers of two around it. *)
Lemma digits_unique (m : positive) (d : Z) :
  2 ^ (d - 1) <= Zpos m < 2 ^ d -> 1 <= d -> Zpos (digits2_pos m) = d.
Proof.
  intros [H1 H2] Hd. pose proof (digits_bounds m) as [B1 B2].
  set (k := Zpos (digits2_pos m)) in *.
  assert (Hk : 1 <= k) by (subst k; lia).
  destruct (Z.lt_trichotomy k d) as [L|[E|G]]; [|exact E|]; exfalso.
  - assert (2 ^ k <= 2 ^ (d - 1)) by (apply Z.pow_le_mono_r; lia). lia.
  - assert (2 ^ d <= 2 ^ (k - 1)) by (apply Z.pow_le_mono_r; lia). lia.
Qed.

Lemma digits_shift (q p : positive) (j : Z) :
  0 <= j -> Zpos q = Zpos p * 2 ^ j ->
  Zpos (digits2_pos q) = Zpos (digits2_pos p) + j.
Proof.
  intros Hj Hq. apply digits_unique; [|lia].
  pose proof (digits_bounds p) as [B1 B2].
  assert (P : 0 < 2 ^ j) by now apply pow2_pos.
  rewrite Hq.
  replace (Zpos (digits2_pos p) + j - 1) with ((Zpos (digits2_pos p) - 1) + j)
    by lia.
  rewrite !Z.pow_add_r by lia. nia.
Qed.

(** Shifting out zeros is exact. *)
Lemma shr_iter_exact (k : nat) (q m : positive) :
  Zpos q = Zpos m * 2 ^ Z.of_nat k ->
  Nat.iter k shr_1 {| shr_m := Zpos q; shr_r := false; shr_s := false |}
  = {| shr_m := Zpos m; shr_r := false; shr_s := false |}.
Proof.
  revert q. induction k as [|k IH]; intros q Hq.
  - simpl in *. f_equal. lia.
  - rewrite Nat.iter_succ_r.
    rewrite Nat2Z.inj_succ, Z.pow_succ_r in Hq by lia.
    destruct q as [q|q|]; try lia.
    simpl shr_1. apply IH. lia.
Qed.

(** A number of at most 53 digits, padded with zeros, rounds to itself:
    [binary_round] returns it in normal form. *)
Lemma binary_round_exact (q p : positive) (j e : Z) :
  0 <= j -> Zpos q = Zpos p * 2 ^ j ->
  Zpos (digits2_pos p) <= 53 ->
  -1074 <= Zpos (digits2_pos p) + e - 53 ->
  Zpos (digits2_pos p) + e <= 1024 ->
  exists m : positive,
    Zpos m = Zpos p * 2 ^ (53 - Zpos (digits2_pos p)) /\
    binary_round prec emax false q (e - j)
    = S754_finite false m (Zpos (digits2_pos p) + e - 53).
Proof.
  intros Hj Hq Hd Hlo Hhi.
  set (d := Zpos (digits2_pos p)) in *.
  assert (Hd1 : 1 <= d) by (subst d; lia).
  assert (Dq : Zpos (digits2_pos q) = d + j) by now apply digits_shift.
  set (f := d + e - 53).
  assert (Hf : fexp prec emax (d + e) = f).
  { unfold fexp, SpecFloat.emin, prec, emax. subst f. lia. }
  (* the normal-form mantissa *)
  assert (Hm : exists m : positive, Zpos m = Zpos p * 2 ^ (53 - d)).
  { assert (0 < Zpos p * 2 ^ (53 - d)).
    { assert (0 < 2 ^ (53 - d)) by (apply pow2_pos; lia). nia. }
    destruct (Zpos p * 2 ^ (53 - d)) as [|m|m] eqn:E; try lia.
    now exists m. }
  destruct Hm as (m & Hm). exists m. split; [exact Hm|].
  assert (Dm : Zpos (digits2_pos m) = 53).
  { rewrite (digits_shift m p (53 - d)); [fold d; lia | lia | exact Hm]. }
  (* rounding a mantissa in normal form changes nothing *)
  assert (Haux : binary_round_aux prec emax false (Zpos m) f loc_Exact
                 = S754_finite false m f).
  { unfold binary_round_aux, shr_fexp, Zdigits2.
    rewrite Dm.
    assert (Hf' : fexp prec emax (53 + f) - f = 0).
    { unfold fexp, SpecFloat.emin, prec, emax. subst f. lia. }
    rewrite Hf'. cbn [shr shr_record_of_loc shr_m loc_of_shr_record
                      round_nearest_even Zdigits2].
    rewrite Dm, Hf'. cbn [shr shr_record_of_loc shr_m].
    assert (Hle : (f <=? emax - prec) = true)
      by (apply Z.leb_le; unfold emax, prec; subst f; lia).
    now rewrite Hle. }
  unfold binary_round. rewrite Dq.
  replace (d + j + (e - j)) with (d + e) by lia. rewrite Hf.
  unfold shl_align.
  destruct (f - (e - j)) as [|n|n] eqn:En.
  - (* already aligned *)
    assert (Zpos q = Zpos m).
    { rewrite Hq, Hm. f_equal. f_equal. subst f. lia. }
    replace (e - j) with f by lia.
    replace q with m by (now apply Pos2Z.inj). exact Haux.
  - (* zeros to shift out *)
    unfold binary_round_aux at 1. unfold shr_fexp at 1. unfold Zdigits2.
    rewrite Dq. replace (d + j + (e - j)) with (d + e) by lia. rewrite Hf.
    rewrite En. cbn [shr shr_record_of_loc].
    rewrite iter_pos_nat.
    rewrite (shr_iter_exact (Pos.to_nat n) q m).
    + cbn [shr_m loc_of_shr_record round_nearest_even].
      replace (e - j + Zpos n) with f by lia.
      unfold binary_round_aux in Haux. unfold shr_fexp at 1 in Haux.
      cbn [shr_record_of_loc] in Haux.
      unfold shr_fexp at 1. unfold Zdigits2. rewrite Dm.
      assert (Hf' : fexp prec emax (53 + f) - f = 0).
      { unfold fexp, SpecFloat.emin, prec, emax. subst f. lia. }
      rewrite Hf'. cbn [shr shr_record_of_loc shr_m].
      assert (Hle : (f <=? emax - prec) = true)
        by (apply Z.leb_le; unfold emax, prec; subst f; lia).
      now rewrite Hle.
    + rewrite positive_nat_Z, Hq, Hm.
      replace j with ((53 - d) + Zpos n) at 1 by (subst f; lia).
      rewrite Z.pow_add_r by lia. lia.
  - (* zeros to add *)
    cbn [fst snd].
    replace (Pos.iter xO q n) with m; [exact Haux|].
    apply Pos2Z.inj. rewrite iter_xO, Hq, Hm.
    replace (53 - d) with (j + Zpos n) by (subst f; lia).
    rewrite Z.pow_add_r by lia. lia.
Qed.

Lemma digits_below (n : positive) :
  Zpos n < 2 ^ 53 -> Zpos (digits2_pos n) <= 53.
Proof.
  intros H. pose proof (digits_bounds n) as [B _].
  destruct (Z_le_gt_dec (Zpos (digits2_pos n)) 53) as [L|G]; [exact L|].
  assert (2 ^ 53 <= 2 ^ (Zpos (digits2_pos n) - 1))
    by (apply Z.pow_le_mono_r; lia).
  lia.
Qed.

(** The Number of a whole number from 1 to [2^53 - 1], in normal form. *)
Lemma normalize_whole (n : positive) :
  Zpos n < 2 ^ 53 ->
  exists m : positive,
    Zpos m = Zpos n * 2 ^ (53 - Zpos (digits2_pos n)) /\
    binary_normalize prec emax (Zpos n) 0 false
    = S754_finite false m (Zpos (digits2_pos n) - 53).
Proof.
  intros H. pose proof (digits_below n H) as Hd.
  destruct (binary_round_exact n n 0 0) as (m & Hm & E); try lia.
  exists m. split; [exact Hm|].
  cbn [binary_normalize]. change (0 - 0) with 0 in E. rewrite E.
  f_equal; lia.
Qed.

Lemma valid_normal (m : positive) (f : Z) :
  Zpos (digits2_pos m) = 53 -> -1074 <= f <= 971 ->
  valid_binary (S754_finite false m f) = true.
Proof.
  intros D Hf. unfold SpecFloat.valid_binary, bounded, canonical_mantissa.
  rewrite D. apply andb_true_iff. split.
  - apply Z.eqb_eq. unfold fexp, SpecFloat.emin, prec, emax. lia.
  - apply Z.leb_le. unfold prec, emax. lia.
Qed.

Lemma Prim2SF_ofZ (n : positive) :
  Zpos n < 2 ^ 53 ->
  exists m : positive,
    Zpos m = Zpos n * 2 ^ (53 - Zpos (digits2_pos n)) /\
    Prim2SF (F64.ofZ (Zpos n))
    = S754_finite false m (Zpos (digits2_pos n) - 53).
Proof.
  intros H. pose proof (digits_below n H) as Hd.
  destruct (normalize_whole n H) as (m & Hm & E).
  exists m. split; [exact Hm|].
  unfold F64.ofZ. rewrite E. apply Prim2SF_SF2Prim.
  apply valid_normal; [|lia].
  rewrite (digits_shift m n (53 - Zpos (digits2_pos n))); lia.
Qed.

(** A whole number from 1 to [2^53 - 1] is above 0 as a Number. *)
Lemma ofZ_open (n : Z) :
  0 < n < 2 ^ 53 -> PrimFloat.ltb 0 (F64.ofZ n) = true.
Proof.
  intros [H0 H]. destruct n as [|n|n]; try lia.
  destruct (Prim2SF_ofZ n H) as (m & _ & E).
  rewrite FloatAxioms.ltb_spec, E. reflexivity.
Qed.

(** Its integer part is the number itself. *)
Lemma wholePart_ofZ (n : Z) :
  0 <= n < 2 ^ 53 -> wholePart (F64.ofZ n) = n.
Proof.
  intros [H0 H]. destruct n as [|n|n]; try lia; [reflexivity|].
  pose proof (digits_below n H) as Hd.
  destruct (Prim2SF_ofZ n H) as (m & Hm & E).
  unfold wholePart. rewrite E. cbn [cond_Zopp].
  set (d := Zpos (digits2_pos n)) in *.
  assert (Hd1 : 1 <= d) by (subst d; lia).
  destruct (0 <=? d - 53) eqn:C.
  - apply Z.leb_le in C. assert (d = 53) by lia.
    rewrite Hm. replace (53 - d) with 0 by lia.
    replace (d - 53) with 0 by lia. simpl. lia.
  - rewrite Hm. replace (- (d - 53)) with (53 - d) by lia.
    apply Z.div_mul. assert (0 < 2 ^ (53 - d)) by (apply pow2_pos; lia). lia.
Qed.

(** Taking 1 from a whole number from 1 to [2^53 - 1] is exact. *)
Lemma ofZ_pred (n : Z) :
  0 < n < 2 ^ 53 -> (F64.ofZ n - 1)%float = F64.ofZ (n - 1).
Proof.
  intros [H0 H]. destruct n as [|n|n]; try lia.
  pose proof (digits_below n H) as Hd.
  destruct (Prim2SF_ofZ n H) as (m & Hm & E).
  set (d := Zpos (digits2_pos n)) in *.
  assert (Hd1 : 1 <= d) by (subst d; lia).
  rewrite <- (SF2Prim_Prim2SF (F64.ofZ (Zpos n) - 1)).
  unfold F64.ofZ at 2. f_equal.
  rewrite FloatAxioms.sub_spec, E.
  change (Prim2SF 1) with (S754_finite false 4503599627370496 (-52)).
  unfold SF64sub, SFsub.
  replace (Z.min (d - 53) (-52)) with (-52) by lia.
  pose proof (shl_align_value m (d - 53) (-52) ltac:(lia) ltac:(lia)) as Ha.
  set (a := fst (shl_align m (d - 53) (-52))) in *.
  change (fst (shl_align 4503599627370496 (-52) (-52)))
    with 4503599627370496%positive.
  cbn [cond_Zopp].
  assert (Hav : Zpos a = Zpos n * 2 ^ 52).
  { replace (-52 + 1074) with 1022 in Ha by lia.
    replace (d - 53 + 1074) with ((d - 1) + 1022) in Ha by lia.
    rewrite Z.pow_add_r in Ha by lia.
    assert (P : 0 < 2 ^ 1022) by (apply pow2_pos; lia).
    assert (Zpos a = Zpos m * 2 ^ (d - 1)) by nia.
    rewrite H1, Hm.
    replace (2 ^ 52) with (2 ^ ((53 - d) + (d - 1))) by (f_equal; lia).
    rewrite Z.pow_add_r by lia. lia. }
  assert (Hdiff : Zpos a - 4503599627370496 = (Zpos n - 1) * 2 ^ 52).
  { rewrite Hav. change (2 ^ 52) with 4503599627370496. lia. }
  rewrite Hdiff.
  destruct (Zpos n - 1) as [|p|p] eqn:Ep; try lia.
  - reflexivity.
  - assert (Hp : Zpos p < 2 ^ 53) by lia.
    pose proof (digits_below p Hp) as Hdp.
    destruct (Zpos p * 2 ^ 52) as [|q|q] eqn:Eq; try lia.
    cbn [binary_normalize].
    destruct (binary_round_exact q p 52 0) as (m1 & Hm1 & E1); try lia.
    destruct (binary_round_exact p p 0 0) as (m2 & Hm2 & E2); try lia.
    change (0 - 52) with (-52) in E1. change (0 - 0) with 0 in E2.
    rewrite E1, E2. f_equal. apply Pos2Z.inj. now rewrite Hm1, Hm2.
Qed.

End F64Order.

(* ================================================================== *)
(** * Sorting and slot filling *)

Section LineupFacts.

Context {num : Type} {ops : NumberOps num}.

(** ** The sort *)

Lemma insertByValue_perm (x : Player num) (l : list (Player num)) :
  Permutation (insertByValue x l) (x :: l).
Proof.
  induction l as [|y l IH]; simpl.
  - apply Permutation_refl.
  - destruct (sortsAfter x y).
    + eapply Permutation_trans.
      * apply perm_skip, IH.
      * apply perm_swap.
    + apply Permutation_refl.
Qed.

Lemma sortByValue_perm (l : list (Player num)) :
  Permutation (sortByValue l) l.
Proof.
  induction l as [|x l IH]; simpl.
  - constructor.
  - eapply Permutation_trans.
    + apply insertByValue_perm.
    + now apply perm_skip.
Qed.

Lemma insertByValue_hd (x y : Player num) (l : list (Player num)) :
  sortsAfter x y = true -> HdRel inOrder y l ->
  HdRel inOrder y (insertByValue x l).
Proof.
  intros Hxy Hhd. destruct l as [|z l]; simpl.
  - constructor. now left.
  - destruct (sortsAfter x z).
    + inversion Hhd; subst. now constructor.
    + constructor. now left.
Qed.

Lemma insertByValue_sorted (x : Player num) (l : list (Player num)) :
  Sorted inOrder l -> Sorted inOrder (insertByValue x l).
Proof.
  induction l as [|y l IH]; simpl; intros Hs.
  - repeat constructor.
  - inversion Hs as [|? ? Hs' Hhd]; subst.
    destruct (sortsAfter x y) eqn:E.
    + constructor.
      * now apply IH.
      * now apply insertByValue_hd.
    + constructor; [assumption|].
      constructor. now right.
Qed.

(** The sorted array is in the order the comparator asks for. *)
Lemma sortByValue_sorted (l : list (Player num)) :
  Sorted inOrder (sortByValue l).
Proof.
  induction l as [|x l IH]; simpl.
  - constructor.
  - now apply insertByValue_sorted.
Qed.

(** The sort is stable: among players none of which the comparator puts
    after another, the order of the input is kept. *)
Lemma insertByValue_filter (f : Player num -> bool) (x : Player num)
  (l : list (Player num)) :
  (forall y, In y l -> f x = true -> f y = true -> sortsAfter x y = false) ->
  filter f (insertByValue x l) = filter f (x :: l).
Proof.
  induction l as [|y l IH]; intros H.
  - reflexivity.
  - cbn [insertByValue]. destruct (sortsAfter x y) eqn:E.
    + cbn [filter]. rewrite IH by (intros z Hz; apply H; now right).
      cbn [filter].
      destruct (f x) eqn:Fx; destruct (f y) eqn:Fy; try reflexivity.
      rewrite (H y (or_introl eq_refl) eq_refl Fy) in E. discriminate.
    + reflexivity.
Qed.

Lemma sortByValue_filter (f : Player num -> bool) (l : list (Player num)) :
  (forall x y, In x l -> In y l -> f x = true -> f y = true ->
               sortsAfter x y = false) ->
  filter f (sortByValue l) = filter f l.
Proof.
  induction l as [|x l IH]; intros H.
  - reflexivity.
  - cbn [sortByValue fold_right]. fold (sortByValue l).
    rewrite insertByValue_filter.
    + cbn [filter]. rewrite IH; [reflexivity|].
      intros a b Ha Hb. apply H; now right.
    + intros y Hy. apply H; [now left|].
      right. apply (Permutation_in y (sortByValue_perm l) Hy).
Qed.

(** ** The scan for a slot *)

Lemma findSlot_split (p : Player num) (need : Need num) (slot : string)
  (count : num) :
  findSlot p need = Some (slot, count) ->
  exists pre post,
    need = pre ++ (slot, count) :: post /\
    Forall (fun e => ~ fits p e) pre /\
    fits p (slot, count).
Proof.
  induction need as [|[s c] need IH]; simpl; intros H.
  - discriminate.
  - destruct (eligible p s && num_gtb c num_zero) eqn:E.
    + inversion H; subst. exists [], need. simpl.
      apply andb_true_iff in E. destruct E as [E1 E2].
      split; [reflexivity|]. split; [constructor|]. split; assumption.
    + destruct (IH H) as (pre & post & Heq & Hpre & Hfit).
      exists ((s, c) :: pre), post. subst need.
      split; [reflexivity|]. split; [|assumption].
      constructor; auto.
      unfold fits; simpl. intros [H1 H2].
      rewrite H1, H2 in E. discriminate.
Qed.

Lemma findSlot_none (p : Player num) (need : Need num) :
  findSlot p need = None -> Forall (fun e => ~ fits p e) need.
Proof.
  induction need as [|[s c] need IH]; simpl; intros H.
  - constructor.
  - destruct (eligible p s && num_gtb c num_zero) eqn:E; [discriminate|].
    constructor; auto.
    unfold fits; simpl. intros [H1 H2].
    rewrite H1, H2 in E. discriminate.
Qed.

Lemma assocSet_split {V} (pre post : list (string * V)) (k : string)
  (v v' : V) :
  NoDup (map fst (pre ++ (k, v) :: post)) ->
  assocSet k v' (pre ++ (k, v) :: post) = pre ++ (k, v') :: post.
Proof.
  induction pre as [|[k0 v0] pre IH]; simpl; intros Hnd.
  - now rewrite String.eqb_refl.
  - inversion Hnd as [|? ? Hnotin Hnd']; subst.
    destruct (String.eqb k k0) eqn:E.
    + apply String.eqb_eq in E. subst k0. exfalso. apply Hnotin.
      rewrite map_app. apply in_or_app. right. now left.
    + now rewrite IH.
Qed.

Lemma split_keys {V} (pre post : list (string * V)) (k : string) (v v' : V) :
  map fst (pre ++ (k, v') :: post) = map fst (pre ++ (k, v) :: post).
Proof. now rewrite !map_app. Qed.

(** One player of the loop: the first entry, in the order of the mapping,
    that is open for the player takes it and loses one; no other entry
    changes; without such an entry nothing changes. *)
Lemma place_first_fit (p : Player num) (need : Need num) :
  NoDup (map fst need) ->
  (exists pre slot count post,
     need = pre ++ (slot, count) :: post /\
     Forall (fun e => ~ fits p e) pre /\
     fits p (slot, count) /\
     place p need = Some (pre ++ (slot, num_sub count num_one) :: post))
  \/ (Forall (fun e => ~ fits p e) need /\ place p need = None).
Proof.
  intros Hnd. unfold place.
  destruct (findSlot p need) as [[slot count]|] eqn:E.
  - left. destruct (findSlot_split _ _ _ _ E) as (pre & post & Heq & Hpre & Hfit).
    exists pre, slot, count, post. subst need.
    rewrite assocSet_split by assumption. auto.
  - right. split; [now apply findSlot_none | reflexivity].
Qed.

Lemma place_keys (p : Player num) (need need' : Need num) :
  NoDup (map fst need) -> place p need = Some need' ->
  map fst need' = map fst need.
Proof.
  intros Hnd H.
  destruct (place_first_fit p need Hnd)
    as [(pre & slot & count & post & Heq & _ & _ & Hp)|[_ Hp]];
    rewrite Hp in H; inversion H; subst.
  apply split_keys.
Qed.

(** ** The loop over the players *)

Lemma fillSlots_cons (p : Player num) (rest : list (Player num)) (need : Need num) :
  fillSlots (p :: rest) need
  = match place p need with
    | Some need' =>
        (p :: fst (fst (fillSlots rest need')),
         snd (fst (fillSlots rest need')),
         snd (fillSlots rest need'))
    | None =>
        (fst (fst (fillSlots rest need)),
         p :: snd (fst (fillSlots rest need)),
         snd (fillSlots rest need))
    end.
Proof.
  simpl. destruct (place p need) as [need'|].
  - destruct (fillSlots rest need') as [[a b] c]. reflexivity.
  - destruct (fillSlots rest need) as [[a b] c]. reflexivity.
Qed.

Lemma fillSlots_perm (sorted : list (Player num)) (need : Need num) :
  Permutation
    (fst (fst (fillSlots sorted need)) ++ snd (fst (fillSlots sorted need)))
    sorted.
Proof.
  revert need. induction sorted as [|p rest IH]; intros need.
  - simpl. constructor.
  - rewrite fillSlots_cons. destruct (place p need) as [need'|]; simpl.
    + apply perm_skip, IH.
    + eapply Permutation_trans.
      * apply Permutation_sym, Permutation_middle.
      * apply perm_skip, IH.
Qed.

Lemma pickStarters_eq (need : Need num) (players : list (Player num)) :
  pickStarters need players
  = {| starters := fst (fst (fillSlots (sortByValue players) need));
       bench := snd (fst (fillSlots (sortByValue players) need)) |}.
Proof.
  unfold pickStarters.
  destruct (fillSlots (sortByValue players) need) as [[a b] c]. reflexivity.
Qed.

(** The labelled loop places the same players, in the same order. *)
Lemma fillTrace_players (sorted : list (Player num)) (need : Need num) :
  map fst (fillTrace sorted need) = fst (fst (fillSlots sorted need)).
Proof.
  revert need. induction sorted as [|p rest IH]; intros need.
  - reflexivity.
  - rewrite fillSlots_cons. simpl. unfold place.
    destruct (findSlot p need) as [[slot count]|]; simpl.
    + now rewrite IH.
    + apply IH.
Qed.

Lemma findSlot_assoc (p : Player num) (need : Need num) (slot : string)
  (count : num) :
  NoDup (map fst need) -> findSlot p need = Some (slot, count) ->
  assoc slot need = Some count /\ num_gtb count num_zero = true.
Proof.
  intros Hnd H.
  destruct (findSlot_split _ _ _ _ H) as (pre & post & Heq & _ & _ & Hc).
  split; [|exact Hc].
  apply In_assoc_NoDup; [assumption|].
  subst need. apply in_or_app. right. now left.
Qed.

(** A label whose count is not above 0 receives no placement. *)
Lemma fillTrace_closed (sorted : list (Player num)) (need : Need num)
  (slot : string) (count : num) :
  NoDup (map fst need) -> assoc slot need = Some count ->
  num_gtb count num_zero = false ->
  placedUnder slot (fillTrace sorted need) = 0%nat.
Proof.
  revert need.
  induction sorted as [|p rest IH]; intros need Hnd Hc Hz.
  - reflexivity.
  - simpl. destruct (findSlot p need) as [[s c]|] eqn:E.
    + destruct (findSlot_assoc _ _ _ _ Hnd E) as [Hs Hpos].
      assert (Hnd' : NoDup (map fst (assocSet s (num_sub c num_one) need))).
      { now rewrite (assocSet_keys_present _ _ _ _ Hs). }
      unfold placedUnder in *. simpl.
      destruct (String.eqb slot s) eqn:Es.
      * apply String.eqb_eq in Es. subst s.
        assert (count = c) by congruence. subst c. congruence.
      * apply String.eqb_neq in Es.
        apply IH; [assumption| |assumption].
        rewrite assoc_assocSet_other by congruence. assumption.
    + now apply IH.
Qed.

(** A label that is not a key of the mapping receives no placement. *)
Lemma fillTrace_labels (sorted : list (Player num)) (need : Need num) :
  NoDup (map fst need) ->
  Forall (fun e => In (snd e) (map fst need)) (fillTrace sorted need).
Proof.
  revert need. induction sorted as [|p rest IH]; intros need Hnd; simpl.
  - constructor.
  - destruct (findSlot p need) as [[s c]|] eqn:E.
    + destruct (findSlot_assoc _ _ _ _ Hnd E) as [Hs _].
      assert (Hk := assocSet_keys_present s (num_sub c num_one) c need Hs).
      constructor.
      * simpl. apply assoc_In in Hs. change s with (fst (s, c)).
        now apply in_map.
      * rewrite <- Hk. apply IH. now rewrite Hk.
    + now apply IH.
Qed.

(** ** The free-agent loop and the chosen lineup *)

Lemma backfill_app (faSorted chosen : list (Player num)) (need : Need num) :
  exists filled,
    fst (backfill faSorted chosen need) = chosen ++ filled /\
    incl filled faSorted.
Proof.
  revert chosen need.
  induction faSorted as [|p rest IH]; intros chosen need; simpl.
  - exists []. split; [now rewrite app_nil_r | apply incl_refl].
  - destruct (place p need) as [need'|].
    + destruct (negb (anyOpen need')).
      * exists [p]. split; [reflexivity|].
        intros x [Hx|[]]. now left.
      * destruct (IH (chosen ++ [p]) need') as (filled & Heq & Hincl).
        exists (p :: filled). split.
        -- rewrite Heq, <- app_assoc. reflexivity.
        -- intros x [Hx|Hx]; [now left | right; now apply Hincl].
    + destruct (negb (anyOpen need)).
      * exists []. split; [now rewrite app_nil_r | intros x []].
      * destruct (IH chosen need) as (filled & Heq & Hincl).
        exists filled. split; [assumption|].
        intros x Hx. right. now apply Hincl.
Qed.

Lemma closed_place (need : Need num) (p : Player num) :
  anyOpen need = false -> place p need = None.
Proof.
  unfold place, anyOpen. intros H.
  assert (E : findSlot p need = None).
  { induction need as [|[s c] need IH]; simpl in *; [reflexivity|].
    apply orb_false_iff in H. destruct H as [H1 H2].
    rewrite H1, andb_false_r. now apply IH. }
  now rewrite E.
Qed.

Lemma fillSlots_closed (sorted : list (Player num)) (need : Need num) :
  anyOpen need = false -> fillSlots sorted need = ([], sorted, need).
Proof.
  intros H. induction sorted as [|p rest IH]; [reflexivity|].
  rewrite fillSlots_cons, (closed_place need p H), IH. reflexivity.
Qed.

(** The loop over the free agents places exactly the free agents that the
    loop over the players places when it is given the counts that are
    left: once no count is above 0 nobody is placed, so the test that ends
    the loop early changes nothing. *)
Lemma backfill_fillSlots (faSorted chosen : list (Player num))
  (need : Need num) :
  backfill faSorted chosen need
  = (chosen ++ fst (fst (fillSlots faSorted need)),
     snd (fillSlots faSorted need)).
Proof.
  revert chosen need.
  induction faSorted as [|p rest IH]; intros chosen need.
  - simpl. now rewrite app_nil_r.
  - cbn [backfill]. rewrite fillSlots_cons.
    destruct (place p need) as [need'|].
    + destruct (anyOpen need') eqn:O; cbn [negb].
      * rewrite IH. cbn [fst snd]. now rewrite <- app_assoc.
      * rewrite (fillSlots_closed rest need' O). reflexivity.
    + destruct (anyOpen need) eqn:O; cbn [negb].
      * rewrite IH. reflexivity.
      * rewrite (fillSlots_closed rest need O). cbn [fst snd].
        now rewrite app_nil_r.
Qed.

(** The chosen lineup is the outcome of the greedy rule applied twice:
    to the sorted pool of the team with the configured counts, then to the
    sorted free agents with the counts that are left. *)
Lemma chosenLineup_greedy (a : TradeArgs num) :
  let first :=
    fillSlots (sortByValue ((arg_starters a ++ arg_bench a) ++ incoming a))
      (startersByPos a) in
  chosenLineup a
  = fst (fst first)
    ++ fst (fst (fillSlots (sortByValue (freeAgents a)) (snd first))).
Proof.
  cbv zeta. unfold chosenLineup.
  destruct (fillSlots
              (sortByValue ((arg_starters a ++ arg_bench a) ++ incoming a))
              (startersByPos a)) as [[chosen left] need].
  cbn [fst snd]. destruct (anyOpen need) eqn:O.
  - now rewrite backfill_fillSlots.
  - rewrite (fillSlots_closed _ _ O). now rewrite app_nil_r.
Qed.

(** The chosen lineup: the players the first loop placed, drawn from the
    team's remaining players and the incoming ones, followed by the free
    agents the second loop added. *)
Lemma chosenLineup_parts (a : TradeArgs num) :
  exists placed filled,
    chosenLineup a = placed ++ filled /\
    placed
    = fst (fst (fillSlots
                  (sortByValue ((arg_starters a ++ arg_bench a) ++ incoming a))
                  (startersByPos a))) /\
    incl placed ((arg_starters a ++ arg_bench a) ++ incoming a) /\
    incl filled (freeAgents a).
Proof.
  unfold chosenLineup.
  set (pool := (arg_starters a ++ arg_bench a) ++ incoming a).
  assert (Hperm := fillSlots_perm (sortByValue pool) (startersByPos a)).
  destruct (fillSlots (sortByValue pool) (startersByPos a))
    as [[placed unplaced] need] eqn:E.
  simpl in Hperm.
  assert (Hplaced : incl placed pool).
  { intros x Hx.
    apply (Permutation_in x (sortByValue_perm pool)).
    apply (Permutation_in x Hperm).
    apply in_or_app. now left. }
  destruct (anyOpen need).
  - destruct (backfill_app (sortByValue (freeAgents a)) placed need)
      as (filled & Heq & Hincl).
    exists placed, filled. repeat split; auto.
    intros x Hx.
    apply (Permutation_in x (sortByValue_perm (freeAgents a))).
    now apply Hincl.
  - exists placed, []. rewrite app_nil_r. repeat split; auto.
    intros x [].
Qed.

(** ** The roster split *)

(** The roster split puts every player of the pool in exactly one of
    [starters] and [bench]; a label whose count is not above 0, or that is
    not in the mapping, receives no starter. *)
Lemma pickStarters_split (need : Need num) (players : list (Player num)) :
  NoDup (map fst need) ->
  let r := pickStarters need players in
  let trace := fillTrace (sortByValue players) need in
  Permutation (starters r ++ bench r) players /\
  (NoDup players ->
   NoDup (starters r ++ bench r) /\
   forall p, In p (starters r) -> ~ In p (bench r)) /\
  map fst trace = starters r /\
  (forall slot count,
     assoc slot need = Some count -> num_gtb count num_zero = false ->
     placedUnder slot trace = 0%nat) /\
  (forall slot, assoc slot need = None -> placedUnder slot trace = 0%nat).
Proof.
  intros Hnd r trace. subst r trace. rewrite pickStarters_eq. simpl.
  assert (Hperm :
    Permutation
      (fst (fst (fillSlots (sortByValue players) need))
       ++ snd (fst (fillSlots (sortByValue players) need))) players).
  { eapply Permutation_trans.
    - apply fillSlots_perm.
    - apply sortByValue_perm. }
  split; [exact Hperm|]. split; [|split; [|split]].
  - intros Hplayers.
    assert (Hnd2 := Permutation_NoDup (Permutation_sym Hperm) Hplayers).
    split; [exact Hnd2|].
    intros p Hs Hb.
    apply NoDup_app_remove_l in Hnd2 as Hb'.
    revert Hs Hb. generalize Hnd2. clear.
    generalize (fst (fst (fillSlots (sortByValue players) need))).
    intros l. induction l as [|x l IH]; simpl; intros Hn Hs Hb.
    + tauto.
    + inversion Hn; subst. destruct Hs as [Hs|Hs].
      * subst x. apply H1. apply in_or_app. now right.
      * now apply IH.
  - apply fillTrace_players.
  - intros slot count Hc Hz.
    exact (fillTrace_closed (sortByValue players) need slot count Hnd Hc Hz).
  - intros slot Hnone.
    pose proof (fillTrace_labels (sortByValue players) need Hnd) as Hl.
    apply assoc_None_notin in Hnone.
    unfold placedUnder.
    induction (fillTrace (sortByValue players) need) as [|e t IH]; simpl.
    + reflexivity.
    + inversion Hl; subst.
      destruct (String.eqb slot (snd e)) eqn:E.
      * apply String.eqb_eq in E. subst slot. contradiction.
      * now apply IH.
Qed.

(** The first loop of [tradeImpactForTeam] splits its pool in the same
    way into [chosen] and [leftovers]. *)
Lemma tradeFirstLoop_partition (a : TradeArgs num) :
  let pool := (arg_starters a ++ arg_bench a) ++ incoming a in
  let r := fillSlots (sortByValue pool) (startersByPos a) in
  Permutation (fst (fst r) ++ snd (fst r)) pool.
Proof.
  cbv zeta. eapply Permutation_trans.
  - apply fillSlots_perm.
  - apply sortByValue_perm.
Qed.

(** ** The greedy rule *)



End LineupFacts.

(* ================================================================== *)
(** * The order of the sort at binary64 *)

Lemma not_nan_spec (x : float) :
  PrimFloat.is_nan x = false -> isNaN (Prim2SF x) = false.
Proof.
  unfold PrimFloat.is_nan. rewrite FloatAxioms.eqb_spec.
  destruct (Prim2SF x); simpl; intros H; try reflexivity. discriminate.
Qed.

Lemma ltb_scaled (x y : float) :
  PrimFloat.is_nan x = false -> PrimFloat.is_nan y = false ->
  PrimFloat.ltb x y = (scaled (Prim2SF x) <? scaled (Prim2SF y))%Z.
Proof.
  intros Hx Hy. rewrite FloatAxioms.ltb_spec. unfold SFltb.
  rewrite SFcompare_scaled
    by (apply FloatAxioms.Prim2SF_valid || now apply not_nan_spec).
  unfold Z.ltb. destruct (_ ?= _)%Z; reflexivity.
Qed.

Lemma leb_scaled (x y : float) :
  PrimFloat.is_nan x = false -> PrimFloat.is_nan y = false ->
  PrimFloat.leb x y = (scaled (Prim2SF x) <=? scaled (Prim2SF y))%Z.
Proof.
  intros Hx Hy. rewrite FloatAxioms.leb_spec. unfold SFleb.
  rewrite SFcompare_scaled
    by (apply FloatAxioms.Prim2SF_valid || now apply not_nan_spec).
  unfold Z.leb. destruct (_ ?= _)%Z; reflexivity.
Qed.

(** [p.value || 0] is never [NaN]. *)
Lemma value0_not_nan (p : Player float) :
  PrimFloat.is_nan (value0 p) = false.
Proof.
  unfold value0, orElse. simpl.
  destruct (value p) as [x|]; [|reflexivity].
  unfold F64.falsy. destruct (PrimFloat.is_zero x); simpl; [reflexivity|].
  destruct (PrimFloat.is_nan x) eqn:E; [reflexivity | exact E].
Qed.

(** The comparator puts [a] after [b] exactly when the value of [a] is
    the smaller one. *)
Lemma sortsAfter_f64 (a b : Player float) :
  sortsAfter a b = PrimFloat.ltb (value0 a) (value0 b).
Proof. unfold sortsAfter, byValueDesc. simpl. apply ltb_sub. Qed.




Lemma eqb_scaled (x y : float) :
  PrimFloat.is_nan x = false -> PrimFloat.is_nan y = false ->
  PrimFloat.eqb x y = (scaled (Prim2SF x) =? scaled (Prim2SF y))%Z.
Proof.
  intros Hx Hy. rewrite FloatAxioms.eqb_spec. unfold SFeqb.
  rewrite SFcompare_scaled
    by (apply FloatAxioms.Prim2SF_valid || now apply not_nan_spec).
  rewrite Z.eqb_compare. destruct (_ ?= _)%Z; reflexivity.
Qed.

(** At binary64 the sort is stable: the players of any one value come out
    in the order they came in.  With the descending order this fixes the
    sorted array, which is therefore the one [Array.prototype.sort]
    returns. *)
Lemma sortByValue_stable_f64 (x : float) (pool : list (Player float)) :
  filter (fun p => PrimFloat.eqb (value0 p) x) (sortByValue pool)
  = filter (fun p => PrimFloat.eqb (value0 p) x) pool.
Proof.
  apply sortByValue_filter. intros a b _ _ Ha Hb.
  rewrite sortsAfter_f64.
  destruct (PrimFloat.is_nan x) eqn:Nx.
  - unfold PrimFloat.is_nan in Nx. rewrite FloatAxioms.eqb_spec in Ha, Nx.
    unfold SFeqb in *.
    destruct (Prim2SF x); simpl in Nx; try discriminate;
      try (destruct s; discriminate).
    + destruct (Prim2SF (value0 a)); simpl in Ha; try discriminate;
        destruct s; discriminate.
    + rewrite Z.compare_refl, Pos.compare_cont_refl in Nx.
      destruct s; discriminate.
  - rewrite eqb_scaled in Ha, Hb by (apply value0_not_nan || exact Nx).
    rewrite ltb_scaled by apply value0_not_nan.
    apply Z.eqb_eq in Ha, Hb. apply Z.ltb_ge. lia.
Qed.

(** A label whose count is a whole number receives at most that many
    placements. *)
Lemma fillTrace_bound (sorted : list (Player float)) (need : Need float)
  (slot : string) (n : Z) :
  NoDup (map fst need) -> assoc slot need = Some (F64.ofZ n) ->
  (0 <= n < 2 ^ 53)%Z ->
  (Z.of_nat (placedUnder slot (fillTrace sorted need)) <= n)%Z.
Proof.
  revert need n.
  induction sorted as [|p rest IH]; intros need n Hnd Hc Hn.
  - simpl. lia.
  - simpl. destruct (findSlot p need) as [[s c]|] eqn:E.
    + destruct (findSlot_assoc _ _ _ _ Hnd E) as [Hs Hpos].
      assert (Hnd' : NoDup (map fst (assocSet s (num_sub c num_one) need))).
      { now rewrite (assocSet_keys_present _ _ _ _ Hs). }
      unfold placedUnder in *. simpl.
      destruct (String.eqb slot s) eqn:Es.
      * apply String.eqb_eq in Es. subst s.
        assert (c = F64.ofZ n) by congruence. subst c.
        assert (Hn1 : (0 < n)%Z).
        { destruct (Z.eq_dec n 0) as [->|Hz]; [discriminate Hpos | lia]. }
        assert (Hpred : num_sub (F64.ofZ n) num_one = F64.ofZ (n - 1))
          by (apply ofZ_pred; lia).
        rewrite Hpred in Hnd'.
        change (F64.ofZ n - PrimFloat.one)%float
          with (num_sub (F64.ofZ n) num_one).
        rewrite Hpred.
        specialize (IH (assocSet slot (F64.ofZ (n - 1)) need) (n - 1)%Z Hnd'
                      (assoc_assocSet_same _ _ _) ltac:(lia)).
        simpl List.length. lia.
      * apply String.eqb_neq in Es.
        apply IH; [assumption| |assumption].
        rewrite assoc_assocSet_other by congruence. assumption.
    + now apply IH.
Qed.

(** C3, as the code has it.  The roster split puts every player of the
    pool in exactly one of [starters] and [bench]: the two together are a
    rearrangement of the pool, so a pool without repetition gives two
    disjoint lists without repetition.  Under a slot label whose count is
    a whole number (0, 1, 2, ... below 2^53) the starters placed are never
    more than the count; a label whose count is not above 0, or that is
    not in the mapping, receives no starter.  The slot mapping is an
    object, so its labels are distinct. *)
Theorem pickStarters_partition (need : Need float)
  (players : list (Player float)) :
  NoDup (map fst need) ->
  let r := pickStarters need players in
  let trace := fillTrace (sortByValue players) need in
  Permutation (starters r ++ bench r) players /\
  (NoDup players ->
   NoDup (starters r ++ bench r) /\
   forall p, In p (starters r) -> ~ In p (bench r)) /\
  map fst trace = starters r /\
  (forall slot n,
     assoc slot need = Some (F64.ofZ n) -> (0 <= n < 2 ^ 53)%Z ->
     (Z.of_nat (placedUnder slot trace) <= n)%Z) /\
  (forall slot count,
     assoc slot need = Some count -> PrimFloat.ltb 0 count = false ->
     placedUnder slot trace = 0%nat) /\
  (forall slot, assoc slot need = None -> placedUnder slot trace = 0%nat).
Proof.
  intros Hnd.
  destruct (pickStarters_split need players Hnd)
    as (Hperm & Hdis & Htrace & Hclosed & Habsent).
  cbv zeta. split; [exact Hperm|]. split; [exact Hdis|].
  split; [exact Htrace|]. split; [|split; [exact Hclosed | exact Habsent]].
  intros slot n Hc Hn.
  exact (fillTrace_bound (sortByValue players) need slot n Hnd Hc Hn).
Qed.

(** [worth] is the key of the comparator. *)
Lemma worth_value0 (p : Player float) : worth p = value0 p.
Proof. unfold worth, value0, orElse. simpl. destruct (value p); reflexivity. Qed.

Lemma totalWorth_sumOf (l : list (Player float)) :
  totalWorth l = sumOf (map value0 l).
Proof.
  assert (G : forall acc,
             fold_left (fun acc p => (acc + worth p)%float) l acc
             = fold_left PrimFloat.add (map value0 l) acc).
  { induction l as [|p l IH]; intros acc; [reflexivity|].
    cbn [fold_left map]. now rewrite IH, worth_value0. }
  apply G.
Qed.



(* ================================================================== *)
(** * The verdict *)

Lemma verdict_cases (tiA tiB : float) (opts : option Thresholds) :
  verdict tiA tiB opts = {| status := APPROVE; color := "green" |} \/
  verdict tiA tiB opts = {| status := REVIEW; color := "yellow" |}.
Proof.
  unfold verdict.
  destruct (_ && _ && _); [now left | now right].
Qed.

(** The thresholds [verdict] compares with are the ones in force. *)
Lemma thresholds_in_force (opts : option Thresholds) :
  let o := match opts with Some o => o | None => noThresholds end in
  withDefault (lossTol o) (-0.35)%float = lossTolOf opts /\
  withDefault (gainMin o) 0.25%float = gainMinOf opts /\
  withDefault (imbalanceMax o) 1.0%float = imbalanceMaxOf opts.
Proof. destruct opts as [[[a|] [b|] [c|]]|]; repeat split. Qed.

Lemma verdict_approve_iff (tiA tiB : float) (opts : option Thresholds) :
  status (verdict tiA tiB opts) = APPROVE <->
  approves (lossTolOf opts) (gainMinOf opts) (imbalanceMaxOf opts) tiA tiB.
Proof.
  destruct (thresholds_in_force opts) as (E1 & E2 & E3).
  unfold verdict, approves, fge, fle, geb. rewrite E1, E2, E3.
  destruct (PrimFloat.leb (lossTolOf opts) tiA);
    destruct (PrimFloat.leb (lossTolOf opts) tiB);
    destruct (PrimFloat.leb (gainMinOf opts) tiA);
    destruct (PrimFloat.leb (gainMinOf opts) tiB);
    destruct (PrimFloat.leb (PrimFloat.abs (tiA - tiB)%float)
                (imbalanceMaxOf opts));
    simpl; intuition discriminate.
Qed.

(** C2.  [verdict] returns APPROVE exactly when both impacts are at least
    [lossTol], at least one is at least [gainMin], and the absolute
    difference of the impacts is at most [imbalanceMax], each threshold
    being the one passed or, when it is not passed, its default (-0.35,
    0.25, 1.0); in every other case it returns REVIEW, and there is no
    third status.  The four cases of section 8 of the specification come
    out as stated, and a threshold that is passed replaces its default. *)
Theorem verdict_decision_rule :
  (forall (tiA tiB lt gm im : float),
     status (verdict tiA tiB
               (Some {| lossTol := Some lt; gainMin := Some gm;
                        imbalanceMax := Some im |})) = APPROVE <->
     (PrimFloat.leb lt tiA = true /\ PrimFloat.leb lt tiB = true) /\
     (PrimFloat.leb gm tiA = true \/ PrimFloat.leb gm tiB = true) /\
     PrimFloat.leb (PrimFloat.abs (tiA - tiB)%float) im = true) /\
  (forall (tiA tiB : float) (opts : option Thresholds),
     (status (verdict tiA tiB opts) = APPROVE <->
      approves (lossTolOf opts) (gainMinOf opts) (imbalanceMaxOf opts)
        tiA tiB) /\
     (status (verdict tiA tiB opts) = REVIEW <->
      ~ approves (lossTolOf opts) (gainMinOf opts) (imbalanceMaxOf opts)
          tiA tiB) /\
     (status (verdict tiA tiB opts) = APPROVE \/
      status (verdict tiA tiB opts) = REVIEW)) /\
  (lossTolOf None = (-0.35)%float /\ gainMinOf None = 0.25%float /\
   imbalanceMaxOf None = 1.0%float /\
   forall lt gm im : option float,
     lossTolOf (Some {| lossTol := None; gainMin := gm;
                        imbalanceMax := im |}) = (-0.35)%float /\
     gainMinOf (Some {| lossTol := lt; gainMin := None;
                        imbalanceMax := im |}) = 0.25%float /\
     imbalanceMaxOf (Some {| lossTol := lt; gainMin := gm;
                             imbalanceMax := None |}) = 1.0%float) /\
  (status (verdict 0.30 0.10 defaults) = APPROVE /\
   status (verdict 0.30 (-0.50) defaults) = REVIEW /\
   status (verdict 0.10 0.05 defaults) = REVIEW /\
   status (verdict 1.50 0.30 defaults) = REVIEW) /\
  (status (verdict 0.30 0.10 None) = APPROVE /\
   status (verdict 0.30 (-0.50) None) = REVIEW /\
   status (verdict 0.10 0.05 None) = REVIEW /\
   status (verdict 1.50 0.30 None) = REVIEW) /\
  (status (verdict 0.30 0.10
             (Some {| lossTol := Some 0.2%float; gainMin := None;
                      imbalanceMax := None |})) = REVIEW /\
   status (verdict 0.30 (-0.50)
             (Some {| lossTol := Some (-1)%float; gainMin := None;
                      imbalanceMax := None |})) = APPROVE /\
   status (verdict 0.10 0.05
             (Some {| lossTol := None; gainMin := Some 0.1%float;
                      imbalanceMax := None |})) = APPROVE /\
   status (verdict 1.50 0.30
             (Some {| lossTol := None; gainMin := None;
                      imbalanceMax := Some 2%float |})) = APPROVE).
Proof.
  split; [|split; [|split; [|split; [|split]]]].
  - intros tiA tiB lt gm im.
    exact (verdict_approve_iff tiA tiB
             (Some {| lossTol := Some lt; gainMin := Some gm;
                      imbalanceMax := Some im |})).
  - intros tiA tiB opts.
    pose proof (verdict_approve_iff tiA tiB opts) as Hiff.
    split; [exact Hiff|]. split.
    + destruct (verdict_cases tiA tiB opts) as [E|E]; rewrite E in *; simpl in *.
      * split; [discriminate|]. intros Hn. exfalso. apply Hn. now apply Hiff.
      * split; [|reflexivity]. intros _ Ha. apply Hiff in Ha. discriminate.
    + destruct (verdict_cases tiA tiB opts) as [E|E]; rewrite E; simpl; auto.
  - repeat split.
  - repeat split; vm_compute; reflexivity.
  - repeat split; vm_compute; reflexivity.
  - repeat split; vm_compute; reflexivity.
Qed.

(* ================================================================== *)
(** * Per-game rates *)






(* ================================================================== *)
(** * The category list *)

Lemma getProp_optProp (v x : JsVal) (k : string) :
  getProp v k = Ok x -> optProp v k = x.
Proof. unfold optProp. intros H. now rewrite H. Qed.

Lemma includes_self (s : string) : includes s s = true.
Proof.
  assert (H : String.prefix s s = true).
  { induction s as [|c s IH]; simpl; [reflexivity|].
    destruct (ascii_dec c c); [assumption | congruence]. }
  destruct s; [reflexivity|].
  cbn [includes]. rewrite H. reflexivity.
Qed.

(** One turn of the loop, when it does not throw. *)
Lemma categoryOf_ok (rt : Runtime) (s : JsVal) (step : Step Category) :
  categoryOf rt s = Ok step ->
  exists n,
    ToNumber rt (optProp (descriptorOf s) "stat_id") = Ok n /\
    (step = Skip <->
     PrimFloat.is_finite n = false \/ namedGamesPlayed (descriptorOf s)) /\
    (forall c, step = Push c ->
       id c = n /\
       name c = optProp (descriptorOf s) "name" /\
       position_type c
       = orVal (optProp (descriptorOf s) "position_type") JNull).
Proof.
  unfold categoryOf, descriptorOf.
  destruct (getProp s "stat") as [inner|] eqn:E1; simpl; [|discriminate].
  rewrite (getProp_optProp _ _ _ E1).
  set (stat := orVal inner s).
  destruct (getProp stat "stat_id") as [rawId|] eqn:E2; simpl; [|discriminate].
  rewrite (getProp_optProp _ _ _ E2).
  destruct (ToNumber rt rawId) as [n|] eqn:E3; simpl; [|discriminate].
  destruct (PrimFloat.is_finite n) eqn:Efin; simpl.
  2:{ intros H; inversion H; subst. exists n. split; [reflexivity|].
      split; [|discriminate]. split; auto. }
  destruct (getProp stat "name") as [rawName|] eqn:E4; simpl; [|discriminate].
  rewrite (getProp_optProp _ _ _ E4).
  destruct (orVal rawName (JStr "")) as [[| |b|x|str]|items|props] eqn:E5;
    simpl; try discriminate.
  assert (Hname : includes "games played" (toLowerCase str) = true ->
                  namedGamesPlayed stat).
  { intros Hinc. unfold namedGamesPlayed.
    rewrite (getProp_optProp _ _ _ E4).
    unfold orVal in E5. destruct (truthy rawName) eqn:Et.
    - subst rawName. exists str. auto.
    - inversion E5; subst str. simpl in Hinc. discriminate. }
  assert (Hname' : namedGamesPlayed stat ->
                   includes "games played" (toLowerCase str) = true).
  { intros (str' & Hn & Hinc).
    rewrite (getProp_optProp _ _ _ E4) in Hn. subst rawName.
    unfold orVal in E5. simpl in E5.
    destruct (negb (String.eqb str' "")) eqn:Et.
    - inversion E5; subst. assumption.
    - apply negb_false_iff, String.eqb_eq in Et. subst str'.
      simpl in Hinc. discriminate. }
  destruct (includes "games played" (toLowerCase str)) eqn:Einc; simpl.
  - intros H; inversion H; subst. exists n. split; [reflexivity|].
    split; [|discriminate]. split; auto.
  - destruct (getProp stat "position_type") as [pt|] eqn:E6; simpl;
      [|discriminate].
    rewrite (getProp_optProp _ _ _ E6).
    intros H; inversion H; subst. exists n. split; [reflexivity|]. split.
    + split; [discriminate|].
      intros [Hf|Hg]; [congruence|]. apply Hname' in Hg. discriminate.
    + intros c Hc. inversion Hc; subst. simpl. auto.
Qed.

Lemma collectCategories_ok (rt : Runtime) (items : list JsVal)
  (cats : list Category) :
  collectCategories rt items = Ok cats <->
  exists steps,
    Forall2 (fun s st => categoryOf rt s = Ok st) items steps /\
    cats = pushed steps.
Proof.
  revert cats. induction items as [|s items IH]; intros cats; simpl.
  - split.
    + intros H; inversion H; subst. exists []. split; constructor.
    + intros (steps & HF & Hc). inversion HF; subst. reflexivity.
  - split.
    + destruct (categoryOf rt s) as [st|] eqn:E; simpl; [|discriminate].
      destruct (collectCategories rt items) as [cs|] eqn:E'; simpl;
        [|discriminate].
      intros H; inversion H; subst.
      destruct (proj1 (IH cs) eq_refl) as (steps & HF & Hc).
      exists (st :: steps). split; [now constructor|].
      subst cs. destruct st; reflexivity.
    + intros (steps & HF & Hc). inversion HF as [|? st ? steps' Hs HF']; subst.
      rewrite Hs. simpl.
      rewrite (proj2 (IH (pushed steps')))
        by (exists steps'; split; [assumption | reflexivity]).
      simpl. destruct st; reflexivity.
Qed.

Lemma plainDescriptor_ok (rt : Runtime) (s : JsVal) :
  plainDescriptor (descriptorOf s) -> exists step, categoryOf rt s = Ok step.
Proof.
  intros ((props & Hobj) & (pr & Hid) & Hname).
  unfold categoryOf.
  assert (Hs : exists inner, getProp s "stat" = Ok inner /\
                             optProp s "stat" = inner).
  { unfold descriptorOf, orVal, optProp in Hobj.
    destruct (getProp s "stat") as [inner|] eqn:E.
    - exists inner. unfold optProp. rewrite E. auto.
    - exfalso. simpl in Hobj. subst s. discriminate. }
  destruct Hs as (inner & E1 & E1').
  rewrite E1. simpl.
  unfold descriptorOf in *. rewrite E1' in *. rewrite Hobj in *.
  unfold optProp in Hid, Hname. simpl in *.
  rewrite Hid. simpl.
  destruct (PrimFloat.is_finite (ToNumberPrim rt pr)); simpl; [|eauto].
  destruct Hname as [Hn|(str & Hn)]; rewrite Hn; simpl.
  - eauto.
  - unfold orVal, truthy, truthyPrim, JStr.
    destruct (negb (String.eqb str "")); cbn [bind].
    + destruct (includes "games played" (toLowerCase str)); cbn [bind]; eauto.
    + cbn. eauto.
Qed.

(** C8, as the code has it.  A descriptor on which the loop body does not
    throw is left out exactly when [Number(stat_id)] is not a finite
    Number (the id is missing or not numeric) or its lower-cased name
    contains "games played"; the output is the list of the descriptors
    kept, in order; so a category named "Games Played", in any letter
    case, is never in the output, whatever its id.  When the list of
    descriptors is missing (no settings, no [stat_categories], no [stats]
    or [stat], or one that is falsy), the result is the empty list; and
    descriptors of the expected shape never make the function throw. *)
Theorem buildCategoryList_rule (rt : Runtime) :
  (forall s step,
     categoryOf rt s = Ok step ->
     exists n,
       ToNumber rt (optProp (descriptorOf s) "stat_id") = Ok n /\
       (step = Skip <->
        PrimFloat.is_finite n = false \/ namedGamesPlayed (descriptorOf s)))
  /\
  (forall settings cats,
     buildCategoryListFromSettings rt settings = Ok cats ->
     exists items steps,
       iterate (statDescriptors settings) = Ok items /\
       Forall2 (fun s st => categoryOf rt s = Ok st) items steps /\
       cats = pushed steps /\
       Forall (fun c =>
                 PrimFloat.is_finite (id c) = true /\
                 forall str, name c = JStr str ->
                   toLowerCase str <> "games played") cats)
  /\
  (forall settings,
     truthy (optProp (optProp settings "stat_categories") "stats") = false ->
     truthy (optProp (optProp settings "stat_categories") "stat") = false ->
     buildCategoryListFromSettings rt settings = Ok [])
  /\
  (forall settings items,
     statDescriptors settings = JArr items ->
     Forall (fun s => plainDescriptor (descriptorOf s)) items ->
     exists cats, buildCategoryListFromSettings rt settings = Ok cats).
Proof.
  split; [|split; [|split]].
  - intros s step H.
    destruct (categoryOf_ok rt s step H) as (n & Hn & Hiff & _). eauto.
  - intros settings cats H. unfold buildCategoryListFromSettings in H.
    destruct (iterate (statDescriptors settings)) as [items|] eqn:E; simpl in H;
      [|discriminate].
    apply collectCategories_ok in H. destruct H as (steps & HF & Hc).
    exists items, steps. repeat split; auto.
    subst cats. clear E.
    induction HF as [|s st items steps Hs HF IH]; simpl.
    + constructor.
    + destruct st as [|c]; simpl; [assumption|].
      constructor; [|assumption].
      destruct (categoryOf_ok rt s (Push c) Hs) as (n & Hn & Hiff & Hc).
      destruct (Hc c eq_refl) as (Hid & Hname & _).
      assert (Hkeep : ~ (PrimFloat.is_finite n = false \/
                         namedGamesPlayed (descriptorOf s))).
      { intros Hx. apply Hiff in Hx. discriminate. }
      split.
      * rewrite Hid. destruct (PrimFloat.is_finite n); [reflexivity|].
        exfalso. apply Hkeep. now left.
      * intros str Hstr Hlow. apply Hkeep. right.
        exists str. split; [congruence|].
        rewrite Hlow. apply includes_self.
  - intros settings H1 H2. unfold buildCategoryListFromSettings, statDescriptors.
    unfold orVal. rewrite H1, H2. reflexivity.
  - intros settings items Hd HF.
    unfold buildCategoryListFromSettings. rewrite Hd. simpl.
    assert (G : exists steps,
              Forall2 (fun s st => categoryOf rt s = Ok st) items steps).
    { clear Hd. induction HF as [|s items Hs HF IH].
      - exists []. constructor.
      - destruct IH as (steps & IH).
        destruct (plainDescriptor_ok rt s Hs) as (st & Hst).
        exists (st :: steps). now constructor. }
    destruct G as (steps & G). exists (pushed steps).
    apply collectCategories_ok. eauto.
Qed.

(* ================================================================== *)
(** * The evaluation of a trade *)

Lemma removeOutgoing_none {num} (arr outgoing : list (Player num)) :
  (forall p, In p arr -> existsb (fun o => sameKey o p) outgoing = false) ->
  removeOutgoing arr outgoing = arr.
Proof.
  intros H. unfold removeOutgoing.
  induction arr as [|p arr IH]; simpl.
  - reflexivity.
  - rewrite (H p) by now left. simpl. f_equal.
    apply IH. intros q Hq. apply H. now right.
Qed.

(** The impact as the specification words it is not what the code
    returns when a starter is sent away: team A sends its only starter,
    of value 1; the code's impact is 0, while the value of the chosen
    lineup less the value of the original starting lineup is -1. *)
Lemma impact_original_baseline_counterexample :
  map value (starters (Asplit Examples.starterLeaves)) = [Some 1%float] /\
  outgoingA Examples.starterLeaves = starters (Asplit Examples.starterLeaves) /\
  tiA Examples.starterLeaves = 0%float /\
  impactOverOriginalStarters (Asplit Examples.starterLeaves)
    (argsA Examples.starterLeaves) = (-1)%float /\
  PrimFloat.eqb (tiA Examples.starterLeaves)
    (impactOverOriginalStarters (Asplit Examples.starterLeaves)
       (argsA Examples.starterLeaves)) = false.
Proof. repeat split; vm_compute; reflexivity. Qed.

(** C1, as the code has it.  For each team the impact is strength less
    baseline.  Strength is the sum of [value] over the chosen lineup: the
    players the greedy rule places from the team's remaining starters and
    bench and the incoming players, followed by the free agents the same
    rule places with the counts that are left.  Baseline is the sum of
    [value] over the starters of the roster split that remain once the
    outgoing players are removed; when no starter is outgoing this is the
    original starting lineup. *)
Theorem impact_strength_minus_remaining_baseline
  (rt : Runtime) (lt gm im : float) (slots : Need float) (cats : list Category)
  (A B FA : list (Player float)) (sendA sendB : list string) :
  let e := evaluate rt lt gm im slots cats A B FA sendA sendB in
  let impactOf (split : RosterSplit float) (out inc : list (Player float))
               (args : TradeArgs float) (ti : float) :=
    let remaining := removeOutgoing (starters split) out in
    let remainingBench := removeOutgoing (bench split) out in
    let a := {| arg_starters := remaining; arg_bench := remainingBench;
                incoming := inc; freeAgents := FAall e;
                startersByPos := slots |} in
    let first :=
      fillSlots (sortByValue ((remaining ++ remainingBench) ++ inc)) slots in
    let placed := fst (fst first) in
    let filled := fst (fst (fillSlots (sortByValue (FAall e)) (snd first))) in
    args = a /\
    chosenLineup a = placed ++ filled /\
    ti = (totalWorth (placed ++ filled) - totalWorth remaining)%float /\
    ((forall p, In p (starters split) ->
        existsb (fun o => sameKey o p) out = false) ->
     ti = impactOverOriginalStarters split a) in
  Asplit e = pickStarters slots (Aall e) /\
  Bsplit e = pickStarters slots (Ball e) /\
  impactOf (Asplit e) (outgoingA e) (outgoingB e) (argsA e) (tiA e) /\
  impactOf (Bsplit e) (outgoingB e) (outgoingA e) (argsB e) (tiB e).
Proof.
  cbv zeta. split; [reflexivity|]. split; [reflexivity|].
  assert (G : forall (split : RosterSplit float)
                     (out inc fa : list (Player float)),
    let a := {| arg_starters := removeOutgoing (starters split) out;
                arg_bench := removeOutgoing (bench split) out;
                incoming := inc; freeAgents := fa;
                startersByPos := slots |} in
    let first :=
      fillSlots
        (sortByValue ((removeOutgoing (starters split) out
                       ++ removeOutgoing (bench split) out) ++ inc)) slots in
    let lineup :=
      fst (fst first) ++ fst (fst (fillSlots (sortByValue fa) (snd first))) in
    chosenLineup a = lineup /\
    tradeImpactForTeam a
    = (totalWorth lineup
       - totalWorth (removeOutgoing (starters split) out))%float /\
    ((forall p, In p (starters split) ->
        existsb (fun o => sameKey o p) out = false) ->
     tradeImpactForTeam a = impactOverOriginalStarters split a)).
  { intros split out inc fa a first lineup.
    assert (Hc : chosenLineup a = lineup) by apply chosenLineup_greedy.
    split; [exact Hc|]. split.
    - unfold tradeImpactForTeam. rewrite !totalWorth_sumOf, <- Hc. reflexivity.
    - intros Hnone. unfold impactOverOriginalStarters, tradeImpactForTeam.
      rewrite !totalWorth_sumOf. subst a. simpl.
      now rewrite (removeOutgoing_none _ _ Hnone). }
  split; (split; [reflexivity | apply G]).
Qed.

(** ** Keys that resolve to no player *)

Lemma resolveOutgoing_one {num} (teamMap : list (string * Player num))
  (k : string) :
  resolveOutgoing teamMap [k]
  = match assoc k teamMap with
    | Some p => [p]
    | None =>
        if existsb (String.eqb k) objectPrototypeKeys then [protoMember]
        else []
    end.
Proof.
  unfold resolveOutgoing, objGet. cbn [flat_map]. rewrite app_nil_r.
  destruct (assoc k teamMap); [reflexivity|].
  destruct (existsb (String.eqb k) objectPrototypeKeys); reflexivity.
Qed.

(** A key that is neither on the roster nor a member of
    [Object.prototype] contributes nothing to the outgoing players. *)
Lemma resolveOutgoing_drops {num} (teamMap : list (string * Player num))
  (send : list string) :
  resolveOutgoing teamMap send
  = resolveOutgoing teamMap
      (filter (fun k => hasOwn k teamMap
                        || existsb (String.eqb k) objectPrototypeKeys) send).
Proof.
  unfold resolveOutgoing, objGet, hasOwn.
  induction send as [|k send IH]; cbn [flat_map filter].
  - reflexivity.
  - destruct (assoc k teamMap) as [p|] eqn:E; cbn [orb flat_map].
    + now rewrite E, IH.
    + destruct (existsb (String.eqb k) objectPrototypeKeys) eqn:E';
        cbn [flat_map app].
      * now rewrite E, E', IH.
      * exact IH.
Qed.

(** C10, at the failing input.  The key ["constructor"] is on no roster,
    yet [Amap["constructor"]] is the inherited constructor, which is
    truthy and so survives [filter(Boolean)]: it is kept as an outgoing
    player of team A and handed to team B as an incoming one.  There it
    takes the Util slot that a free agent would have filled: without the
    key the trade is approved with an impact of 1.069 on B, with it the
    impact on B is 0 and the verdict is REVIEW.  A key that is not a member
    name of [Object.prototype] is dropped and changes nothing. *)
Theorem inherited_key_not_dropped :
  outgoingA Examples.strangerKey = [protoMember] /\
  incoming (argsB Examples.strangerKey) = [protoMember] /\
  map player_key (chosenLineup (argsB Examples.strangerKey))
  = [None; Some "b1"] /\
  (tiB Examples.noTrade = 1.069%float /\
   status (verdictOf Examples.noTrade) = APPROVE) /\
  (tiB Examples.strangerKey = 0%float /\
   status (verdictOf Examples.strangerKey) = REVIEW) /\
  (outgoingA Examples.unknownKey = [] /\
   tiB Examples.unknownKey = tiB Examples.noTrade /\
   verdictOf Examples.unknownKey = verdictOf Examples.noTrade).
Proof. repeat split; vm_compute; reflexivity. Qed.

(** A descriptor that is [null] makes the function throw. *)
Lemma buildCategoryList_throws :
  statDescriptors Examples.nullDescriptor = JArr [JNull] /\
  buildCategoryListFromSettings Host.runtime Examples.nullDescriptor
  = TypeError.
Proof. split; reflexivity. Qed.

Example buildCategoryList_sample :
  buildCategoryListFromSettings Host.runtime Examples.sampleSettings
  = Ok [ {| id := 1%float; name := JStr "Goals"; position_type := JNull |};
         {| id := 2%float; name := JStr "Assists";
            position_type := JStr "P" |} ].
Proof. vm_compute. reflexivity. Qed.

(* ================================================================== *)
(** * Further properties of the engine *)

(** ** The verdict: symmetry, thresholds, values that are not numbers *)

Lemma SFabs_round (m : positive) (e : Z) :
  SFabs (binary_round prec emax true m e)
  = SFabs (binary_round prec emax false m e).
Proof.
  unfold binary_round.
  destruct (shl_align m e _) as [mz ez].
  unfold binary_round_aux.
  destruct (shr_fexp prec emax (Z.pos mz) ez loc_Exact) as [r1 e1].
  destruct (shr_fexp prec emax _ e1 loc_Exact) as [r2 e2].
  destruct (shr_m r2); try reflexivity.
  destruct (e2 <=? emax - prec)%Z; reflexivity.
Qed.

Lemma SFabs_normalize_opp (z e : Z) :
  SFabs (binary_normalize prec emax (- z) e false)
  = SFabs (binary_normalize prec emax z e false).
Proof.
  destruct z; simpl; [reflexivity | apply SFabs_round |].
  symmetry. apply SFabs_round.
Qed.

Lemma SFabs_sub_sym (X Y : spec_float) :
  SFabs (SFsub prec emax X Y) = SFabs (SFsub prec emax Y X).
Proof.
  destruct X as [sx|sx| |sx mx ex], Y as [sy|sy| |sy my ey];
    try reflexivity;
    try (destruct sx, sy; reflexivity).
  cbn [SFsub].
  change (IntDef.Z.min ey ex) with (Z.min ey ex).
  change (IntDef.Z.min ex ey) with (Z.min ex ey).
  rewrite (Z.min_comm ey ex).
  set (a := cond_Zopp sx _). set (b := cond_Zopp sy _).
  replace (b - a)%Z with (- (a - b))%Z by lia.
  symmetry. apply SFabs_normalize_opp.
Qed.

(** [Math.abs(x - y)] is [Math.abs(y - x)]. *)
Lemma abs_sub_sym (x y : float) :
  PrimFloat.abs (x - y) = PrimFloat.abs (y - x).
Proof.
  rewrite <- (SF2Prim_Prim2SF (PrimFloat.abs (x - y))).
  rewrite <- (SF2Prim_Prim2SF (PrimFloat.abs (y - x))).
  rewrite !FloatAxioms.abs_spec, !FloatAxioms.sub_spec.
  unfold SF64sub. now rewrite SFabs_sub_sym.
Qed.

(** X1.  The verdict does not depend on which team is called A: swapping
    the two impacts gives the same verdict, for any thresholds. *)
Theorem verdict_symmetric (tiA tiB : float) (opts : option Thresholds) :
  verdict tiA tiB opts = verdict tiB tiA opts.
Proof.
  unfold verdict. cbv zeta.
  rewrite (abs_sub_sym tiB tiA).
  rewrite (andb_comm (geb tiB _) (geb tiA _)).
  rewrite (orb_comm (geb tiB _) (geb tiA _)).
  reflexivity.
Qed.

Lemma nan_spec (x : float) :
  PrimFloat.is_nan x = true -> Prim2SF x = S754_nan.
Proof.
  unfold PrimFloat.is_nan. rewrite FloatAxioms.eqb_spec.
  destruct (Prim2SF x) as [s|s| |s m e]; simpl; try reflexivity.
  - destruct s; discriminate.
  - destruct s; discriminate.
  - unfold SFeqb, SFcompare. rewrite Z.compare_refl, Pos.compare_cont_refl.
    destruct s; discriminate.
Qed.

Lemma leb_nan_l (x y : float) :
  PrimFloat.is_nan x = true -> PrimFloat.leb x y = false.
Proof.
  intros H. rewrite FloatAxioms.leb_spec, (nan_spec x H). reflexivity.
Qed.

Lemma leb_nan_r (x y : float) :
  PrimFloat.is_nan y = true -> PrimFloat.leb x y = false.
Proof.
  intros H. rewrite FloatAxioms.leb_spec, (nan_spec y H).
  unfold SFleb, SFcompare. destruct (Prim2SF x) as [s|s| |s m e]; try reflexivity;
  destruct s; reflexivity.
Qed.

Lemma abs_nan (x : float) :
  PrimFloat.is_nan x = true -> PrimFloat.is_nan (PrimFloat.abs x) = true.
Proof.
  intros H. unfold PrimFloat.is_nan at 1.
  rewrite FloatAxioms.eqb_spec, FloatAxioms.abs_spec, (nan_spec x H).
  reflexivity.
Qed.

(** X2.  If an impact or a threshold in force is [NaN] (a threshold read
    from a malformed environment variable, say) the verdict is REVIEW. *)
Theorem verdict_nan_review (tiA tiB : float) (opts : option Thresholds) :
  someNaN tiA tiB opts = true ->
  verdict tiA tiB opts = {| status := REVIEW; color := "yellow" |}.
Proof.
  destruct (thresholds_in_force opts) as (E1 & E2 & E3).
  unfold someNaN, verdict, geb. cbv zeta in *. rewrite E1, E2, E3.
  intros H.
  repeat (apply orb_true_iff in H; destruct H as [H|H]).
  - rewrite (leb_nan_r _ tiA H). reflexivity.
  - rewrite (leb_nan_r _ tiB H). now rewrite andb_false_r.
  - rewrite (leb_nan_l _ tiA H). reflexivity.
  - rewrite (leb_nan_l _ tiA H), (leb_nan_l _ tiB H).
    now rewrite andb_false_r.
  - rewrite (leb_nan_r _ _ H). now rewrite andb_false_r.
Qed.

Lemma fle_trans (x y z : float) : fle x y -> fle y z -> fle x z.
Proof.
  unfold fle. intros H1 H2.
  destruct (PrimFloat.is_nan x) eqn:Nx;
    [now rewrite (leb_nan_l x y Nx) in H1|].
  destruct (PrimFloat.is_nan y) eqn:Ny;
    [now rewrite (leb_nan_r x y Ny) in H1|].
  destruct (PrimFloat.is_nan z) eqn:Nz;
    [now rewrite (leb_nan_r y z Nz) in H2|].
  rewrite leb_scaled in * by assumption.
  apply Z.leb_le in H1, H2. apply Z.leb_le. lia.
Qed.

(** X3.  Loosening the thresholds never withdraws an approval: if a pair
    of impacts is approved, it is still approved under a loss tolerance
    and a gain minimum that are no higher and an imbalance maximum that is
    no lower. *)
Theorem verdict_monotone (tiA tiB : float) (opts opts' : option Thresholds) :
  fle (lossTolOf opts') (lossTolOf opts) ->
  fle (gainMinOf opts') (gainMinOf opts) ->
  fle (imbalanceMaxOf opts) (imbalanceMaxOf opts') ->
  status (verdict tiA tiB opts) = APPROVE ->
  status (verdict tiA tiB opts') = APPROVE.
Proof.
  intros Hl Hg Hi H.
  apply verdict_approve_iff in H. apply verdict_approve_iff.
  unfold approves, fge in *.
  destruct H as ((H1 & H2) & H3 & H4).
  split; [split|split].
  - exact (fle_trans _ _ _ Hl H1).
  - exact (fle_trans _ _ _ Hl H2).
  - destruct H3 as [H3|H3]; [left | right]; exact (fle_trans _ _ _ Hg H3).
  - exact (fle_trans _ _ _ H4 Hi).
Qed.

(** ** What the slot loops leave open *)

Section LineupAccounting.
Context {num : Type} {ops : NumberOps num}.

Lemma place_step (p : Player num) (need need' : Need num) :
  NoDup (map fst need) -> place p need = Some need' ->
  NoDup (map fst need') /\
  forall q : Player num, unfit need q -> unfit need' q.
Proof.
  intros Hnd Hp.
  destruct (place_first_fit p need Hnd)
    as [(pre & slot & count & post & Heq & _ & Hfit & Hp')|[_ Hp']];
    rewrite Hp' in Hp; inversion Hp; subst; clear Hp.
  split.
  - now rewrite (split_keys pre post slot count).
  - intros q Hq. unfold unfit in *.
    apply Forall_app in Hq. destruct Hq as [H1 H2].
    inversion H2 as [|? ? H3 H4]; subst.
    apply Forall_app. split; [assumption|].
    constructor; [|assumption].
    intros [E C]. apply H3. split; [exact E | exact (proj2 Hfit)].
Qed.

Lemma place_unfit (p : Player num) (need : Need num) :
  place p need = None -> unfit need p.
Proof.
  unfold place. destruct (findSlot p need) as [[s c]|] eqn:E; [discriminate|].
  intros _. now apply findSlot_none.
Qed.

Lemma closed_unfit (need : Need num) (p : Player num) :
  anyOpen need = false -> unfit need p.
Proof.
  unfold anyOpen, unfit. induction need as [|e need IH]; simpl; intros H.
  - constructor.
  - apply orb_false_iff in H. destruct H as [H1 H2].
    constructor; [|now apply IH].
    intros [_ C]. congruence.
Qed.

(** The loop over the players: what it leaves of the counts. *)
Lemma fillSlots_account (sorted : list (Player num)) (need : Need num) :
  NoDup (map fst need) ->
  let '(placed, unplaced, final) := fillSlots sorted need in
  NoDup (map fst final) /\
  (forall q : Player num, unfit need q -> unfit final q) /\
  Forall (unfit final) unplaced.
Proof.
  revert need. induction sorted as [|p rest IH]; intros need Hnd.
  - simpl. repeat split; auto.
  - rewrite fillSlots_cons. destruct (place p need) as [need'|] eqn:E.
    + destruct (place_step p need need' Hnd E) as (Hnd' & Hmono).
      specialize (IH need' Hnd').
      destruct (fillSlots rest need') as [[placed unplaced] final].
      destruct IH as (H1 & H3 & H4). cbn [fst snd].
      repeat split; auto.
    + specialize (IH need Hnd).
      destruct (fillSlots rest need) as [[placed unplaced] final].
      destruct IH as (H1 & H3 & H4). cbn [fst snd].
      repeat split; auto.
      constructor; [|assumption].
      apply H3. now apply place_unfit.
Qed.

(** The loop over the free agents. *)
Lemma backfill_account (faSorted chosen : list (Player num))
  (need : Need num) :
  NoDup (map fst need) ->
  let '(chosen', final) := backfill faSorted chosen need in
  NoDup (map fst final) /\
  (forall q : Player num, unfit need q -> unfit final q) /\
  (forall q : Player num, In q chosen -> In q chosen') /\
  Forall (fun p => In p chosen' \/ unfit final p) faSorted.
Proof.
  revert chosen need. induction faSorted as [|p rest IH]; intros chosen need Hnd.
  - simpl. repeat split; auto.
  - cbn [backfill]. destruct (place p need) as [need'|] eqn:E.
    + destruct (place_step p need need' Hnd E) as (Hnd' & Hmono).
      destruct (negb (anyOpen need')) eqn:O.
      * apply negb_true_iff in O.
        repeat split; auto.
        -- intros q Hq. apply in_or_app. now left.
        -- apply Forall_forall. intros q _. right. now apply closed_unfit.
      * specialize (IH (chosen ++ [p]) need' Hnd').
        destruct (backfill rest (chosen ++ [p]) need') as [chosen' final].
        destruct IH as (H1 & H3 & H4 & H5).
        repeat split; auto.
        -- intros q Hq. apply H4. apply in_or_app. now left.
        -- constructor; [|assumption].
           left. apply H4. apply in_or_app. right. now left.
    + destruct (negb (anyOpen need)) eqn:O.
      * apply negb_true_iff in O.
        repeat split; auto.
        apply Forall_forall. intros q _. right. now apply closed_unfit.
      * specialize (IH chosen need Hnd).
        destruct (backfill rest chosen need) as [chosen' final].
        destruct IH as (H1 & H3 & H4 & H5).
        repeat split; auto.
        constructor; [|assumption].
        right. apply H3. now apply place_unfit.
Qed.

(** No benched player fits an entry that is still open. *)
Lemma bench_unfit (startersByPos : Need num) (players : list (Player num)) :
  NoDup (map fst startersByPos) ->
  Forall (unfit (needLeft startersByPos players))
    (bench (pickStarters startersByPos players)).
Proof.
  intros Hnd. rewrite pickStarters_eq. unfold needLeft.
  pose proof (fillSlots_account (sortByValue players) startersByPos Hnd) as H.
  destruct (fillSlots (sortByValue players) startersByPos)
    as [[placed unplaced] final].
  destruct H as (_ & _ & H4). exact H4.
Qed.

(** Nobody is left out of the lineup who could still be placed. *)
Lemma lineup_nobody_left (a : TradeArgs num) :
  NoDup (map fst (startersByPos a)) ->
  Forall (fun p => In p (chosenLineup a) \/ unfit (needAfter a) p)
    (((arg_starters a ++ arg_bench a) ++ incoming a) ++ freeAgents a).
Proof.
  intros Hnd. unfold chosenLineup, needAfter.
  set (pool := (arg_starters a ++ arg_bench a) ++ incoming a).
  pose proof (fillSlots_account (sortByValue pool) (startersByPos a) Hnd) as H.
  pose proof (fillSlots_perm (sortByValue pool) (startersByPos a)) as Hperm.
  destruct (fillSlots (sortByValue pool) (startersByPos a))
    as [[placed unplaced] need].
  destruct H as (Hnd1 & _ & Hun1). simpl in Hperm.
  assert (Hpool : Forall (fun p => In p placed \/ unfit need p) pool).
  { apply Forall_forall. intros p Hp.
    apply (Permutation_in p (Permutation_sym (sortByValue_perm pool))) in Hp.
    apply (Permutation_in p (Permutation_sym Hperm)) in Hp.
    apply in_app_or in Hp. destruct Hp as [Hp|Hp]; [now left|].
    right. rewrite Forall_forall in Hun1. now apply Hun1. }
  destruct (anyOpen need) eqn:O.
  - pose proof (backfill_account (sortByValue (freeAgents a)) placed need Hnd1)
      as H.
    destruct (backfill (sortByValue (freeAgents a)) placed need)
      as [chosen' final].
    destruct H as (_ & Hmono & Hkeep & Hfa). simpl.
    apply Forall_app. split.
    + apply Forall_forall. intros p Hp.
      rewrite Forall_forall in Hpool.
      destruct (Hpool p Hp) as [H|H]; [left; now apply Hkeep|].
      right. now apply Hmono.
    + apply Forall_forall. intros p Hp.
      rewrite Forall_forall in Hfa. apply Hfa.
      apply (Permutation_in p (Permutation_sym (sortByValue_perm _))).
      exact Hp.
  - apply Forall_app. split; [exact Hpool|].
    apply Forall_forall. intros p _. right. now apply closed_unfit.
Qed.

(** X6.  With no slot open in the mapping (every count is [0], as when the
    league settings carry no roster positions) the roster split benches
    every player, the lineup of the trade simulation is empty, free agents
    are not looked at, and the impact is [0] less the value of the starters
    passed in. *)
Theorem no_slots_no_lineup (players : list (Player num)) (a : TradeArgs num) :
  anyOpen (startersByPos a) = false ->
  pickStarters (startersByPos a) players
  = {| starters := []; bench := sortByValue players |} /\
  chosenLineup a = [] /\
  tradeImpactForTeam a
  = num_sub num_zero (sumOf (map value0 (arg_starters a))).
Proof.
  intros H.
  assert (Hc : chosenLineup a = []).
  { unfold chosenLineup. rewrite (fillSlots_closed _ _ H). now rewrite H. }
  split; [|split].
  - rewrite pickStarters_eq, (fillSlots_closed _ _ H). reflexivity.
  - exact Hc.
  - unfold tradeImpactForTeam. rewrite Hc. reflexivity.
Qed.

End LineupAccounting.

(** ** Whole counts *)

Lemma capacity_app (l1 l2 : Need float) :
  capacity (l1 ++ l2) = (capacity l1 + capacity l2)%Z.
Proof.
  unfold capacity. induction l1 as [|e l1 IH]; simpl; [reflexivity|].
  rewrite IH. lia.
Qed.

(** What an entry with a whole count adds to the capacity. *)
Lemma openCount_ofZ (n : Z) :
  (0 <= n < 2 ^ 53)%Z ->
  (if PrimFloat.ltb 0 (F64.ofZ n) then wholePart (F64.ofZ n) else 0%Z) = n.
Proof.
  intros Hn. destruct (Z.eq_dec n 0) as [->|Hz]; [reflexivity|].
  rewrite ofZ_open by lia. now apply wholePart_ofZ.
Qed.

Lemma place_capacity (p : Player float) (need need' : Need float) :
  NoDup (map fst need) -> wholeCounts need -> place p need = Some need' ->
  wholeCounts need' /\ capacity need' = (capacity need - 1)%Z.
Proof.
  intros Hnd Hw Hp.
  destruct (place_first_fit p need Hnd)
    as [(pre & slot & count & post & Heq & _ & Hfit & Hp')|[_ Hp']];
    rewrite Hp' in Hp; inversion Hp; subst; clear Hp.
  unfold wholeCounts in *.
  apply Forall_app in Hw. destruct Hw as [W1 W2].
  inversion W2 as [|? ? Wc W3]; subst.
  destruct Hfit as [_ Hopen]. cbn in Hopen, Wc.
  destruct (Wc Hopen) as (n & Hn & ->).
  assert (Hpred : PrimFloat.sub (F64.ofZ n) PrimFloat.one = F64.ofZ (n - 1))
    by exact (ofZ_pred n Hn).
  rewrite Hpred.
  split.
  - apply Forall_app. split; [exact W1|]. constructor; [|exact W3].
    cbn. intros Ho. exists (n - 1)%Z. split; [|reflexivity].
    destruct (Z.eq_dec n 1) as [->|Hz]; [discriminate Ho | lia].
  - rewrite !capacity_app. unfold capacity at 2 4.
    cbn [fold_right snd]. fold (capacity post).
    rewrite (openCount_ofZ n), (openCount_ofZ (n - 1)) by lia. lia.
Qed.

(** The loop over the players takes one from the capacity for each player
    it places. *)
Lemma fillSlots_capacity (sorted : list (Player float)) (need : Need float) :
  NoDup (map fst need) -> wholeCounts need ->
  wholeCounts (snd (fillSlots sorted need)) /\
  (Z.of_nat (List.length (fst (fst (fillSlots sorted need))))
   + capacity (snd (fillSlots sorted need)) = capacity need)%Z.
Proof.
  revert need. induction sorted as [|p rest IH]; intros need Hnd Hw.
  - simpl. split; [exact Hw | lia].
  - rewrite fillSlots_cons. destruct (place p need) as [need'|] eqn:E.
    + destruct (place_step p need need' Hnd E) as (Hnd' & _).
      destruct (place_capacity p need need' Hnd Hw E) as (Hw' & Hcap).
      destruct (IH need' Hnd' Hw') as (H1 & H2). cbn [fst snd].
      split; [exact H1|]. cbn [List.length]. lia.
    + destruct (IH need Hnd Hw) as (H1 & H2). cbn [fst snd].
      split; [exact H1 | exact H2].
Qed.

(** X4.  No benched player is eligible for an entry of the mapping that
    still has a count above 0.  When the counts above 0 are whole numbers,
    so are the counts that are left, and the roster split fills as many
    slots as it can: the starters and the counts left over add up to the
    configured capacity. *)
Theorem pickStarters_maximal (startersByPos : Need float)
  (players : list (Player float)) :
  NoDup (map fst startersByPos) ->
  let r := pickStarters startersByPos players in
  let left := needLeft startersByPos players in
  Forall (unfit left) (bench r) /\
  (wholeCounts startersByPos ->
   wholeCounts left /\
   (Z.of_nat (List.length (starters r)) + capacity left
    = capacity startersByPos)%Z).
Proof.
  intros Hnd. cbv zeta. split; [now apply bench_unfit|].
  intros Hw. rewrite pickStarters_eq. unfold needLeft. cbn [starters].
  exact (fillSlots_capacity (sortByValue players) startersByPos Hnd Hw).
Qed.

(** X5.  The lineup of the trade simulation leaves nobody out who could
    still be placed: a player of the team, an incoming player or a free
    agent is in the lineup or is eligible for no entry that still has a
    count above 0.  When the counts above 0 are whole numbers, the lineup
    and the counts left over add up to the configured capacity, so the
    lineup never holds more players than there are slots. *)
Theorem chosenLineup_maximal (a : TradeArgs float) :
  NoDup (map fst (startersByPos a)) ->
  Forall (fun p => In p (chosenLineup a) \/ unfit (needAfter a) p)
    (((arg_starters a ++ arg_bench a) ++ incoming a) ++ freeAgents a) /\
  (wholeCounts (startersByPos a) ->
   (Z.of_nat (List.length (chosenLineup a)) + capacity (needAfter a)
    = capacity (startersByPos a))%Z /\
   (Z.of_nat (List.length (chosenLineup a)) <= capacity (startersByPos a))%Z).
Proof.
  intros Hnd. split; [now apply lineup_nobody_left|].
  intros Hw.
  assert (G : (Z.of_nat (List.length (chosenLineup a)) + capacity (needAfter a)
               = capacity (startersByPos a))%Z /\
              wholeCounts (needAfter a)).
  { unfold chosenLineup, needAfter.
    set (pool := (arg_starters a ++ arg_bench a) ++ incoming a).
    pose proof (fillSlots_account (sortByValue pool) (startersByPos a) Hnd)
      as Hacc.
    pose proof (fillSlots_capacity (sortByValue pool) (startersByPos a) Hnd Hw)
      as (Hw1 & Hcap1).
    destruct (fillSlots (sortByValue pool) (startersByPos a))
      as [[placed unplaced] need].
    destruct Hacc as (Hnd1 & _). cbn [fst snd] in *.
    destruct (anyOpen need) eqn:O; [|split; assumption].
    rewrite backfill_fillSlots. cbn [fst snd].
    destruct (fillSlots_capacity (sortByValue (freeAgents a)) need Hnd1 Hw1)
      as (Hw2 & Hcap2).
    split; [|exact Hw2]. rewrite length_app, Nat2Z.inj_add. lia. }
  destruct G as [G Hw']. split; [exact G|].
  assert (0 <= capacity (needAfter a))%Z; [|lia].
  clear G. induction Hw' as [|e l He Hl IH]; [simpl; lia|].
  cbn [capacity fold_right]. fold (capacity l).
  destruct (PrimFloat.ltb 0 (snd e)) eqn:Ho; [|lia].
  destruct (He Ho) as (n & Hn & ->). rewrite wholePart_ofZ by lia. lia.
Qed.


(** ** Players by key *)

Section KeyFacts.
Context {num : Type} {ops : NumberOps num}.

Lemma byKey_snoc (l : list (Player num)) (p : Player num) :
  byKey (l ++ [p]) = assocSet (keyOf p) p (byKey l).
Proof. unfold byKey. now rewrite fold_left_app. Qed.

(** Looking a key up in the dictionary finds the last player listed
    under it. *)
Lemma assoc_byKey (l : list (Player num)) (k : string) :
  assoc k (byKey l) = lastWithKey k l.
Proof.
  unfold lastWithKey.
  induction l as [|p l IH] using rev_ind; [reflexivity|].
  rewrite byKey_snoc, rev_app_distr. cbn [rev app find].
  destruct (String.eqb (keyOf p) k) eqn:E.
  - apply String.eqb_eq in E. subst k. apply assoc_assocSet_same.
  - apply String.eqb_neq in E.
    rewrite assoc_assocSet_other by assumption. exact IH.
Qed.

Lemma find_rev_unique (l : list (Player num)) (p : Player num) :
  NoDup (map keyOf l) -> In p l ->
  find (fun q => String.eqb (keyOf q) (keyOf p)) (rev l) = Some p.
Proof.
  induction l as [|x l IH] using rev_ind; intros Hnd Hin; [contradiction|].
  rewrite rev_app_distr. cbn [rev app find].
  rewrite map_app in Hnd. cbn [map] in Hnd.
  apply in_app_or in Hin.
  destruct (String.eqb (keyOf x) (keyOf p)) eqn:E.
  - apply String.eqb_eq in E.
    destruct Hin as [Hin|[Hin|[]]]; [|now subst].
    exfalso. apply NoDup_remove_2 in Hnd. apply Hnd.
    rewrite app_nil_r. rewrite E. now apply in_map.
  - apply String.eqb_neq in E.
    destruct Hin as [Hin|[Hin|[]]]; [|subst; congruence].
    apply IH; [|assumption].
    apply NoDup_remove_1 in Hnd. now rewrite app_nil_r in Hnd.
Qed.

Lemma objGet_byKey (l : list (Player num)) (p : Player num) :
  NoDup (map keyOf l) -> In p l -> objGet (byKey l) (keyOf p) = Own p.
Proof.
  intros Hnd Hin. unfold objGet.
  rewrite assoc_byKey. unfold lastWithKey.
  now rewrite find_rev_unique.
Qed.

Lemma objGet_own (l : list (Player num)) (k : string) (q : Player num) :
  objGet (byKey l) k = Own q -> In q l /\ keyOf q = k.
Proof.
  unfold objGet. rewrite assoc_byKey. unfold lastWithKey.
  destruct (find _ (rev l)) as [x|] eqn:E.
  - intros H. inversion H; subst x.
    apply find_some in E. destruct E as [Hin Hk].
    apply String.eqb_eq in Hk. split; [|assumption].
    now apply in_rev.
  - destruct (existsb _ _); discriminate.
Qed.

(** X7.  The dictionary built from a list of players answers a key with
    the last player listed under it: a later player overwrites an earlier
    one with the same key.  It has an own property for a key exactly when
    some player of the list has the key. *)
Theorem byKey_lookup_last (l : list (Player num)) (k : string) :
  assoc k (byKey l) = lastWithKey k l /\
  (lastWithKey k l = None <-> ~ In k (map keyOf l)).
Proof.
  split; [apply assoc_byKey|]. unfold lastWithKey. split.
  - intros H Hin. apply in_map_iff in Hin. destruct Hin as (x & Hx & Hin).
    apply in_rev in Hin. apply (find_none _ _ H) in Hin.
    rewrite Hx, String.eqb_refl in Hin. discriminate.
  - intros H. destruct (find _ (rev l)) as [x|] eqn:E; [|reflexivity].
    exfalso. apply H. apply find_some in E. destruct E as [Hin Hk].
    apply String.eqb_eq in Hk. rewrite <- Hk.
    apply in_map. now apply in_rev.
Qed.

(** X8.  Sending the keys of players of the roster resolves to those
    players, in the order sent and as often as sent. *)
Theorem resolveOutgoing_selected (all sel : list (Player num)) :
  NoDup (map keyOf all) -> incl sel all ->
  resolveOutgoing (byKey all) (map keyOf sel) = sel.
Proof.
  intros Hnd Hincl. unfold resolveOutgoing.
  induction sel as [|p sel IH]; [reflexivity|].
  cbn [map flat_map].
  rewrite (objGet_byKey all p Hnd) by (apply Hincl; now left).
  cbn [app]. f_equal. apply IH. intros x Hx. apply Hincl. now right.
Qed.

Lemma sameKey_keyed (o p : Player num) :
  hasKey p -> sameKey o p = true -> keyOf o = keyOf p.
Proof.
  unfold hasKey, sameKey, keyOf.
  destruct (player_key o), (player_key p); try congruence.
  intros _ H. now apply String.eqb_eq in H.
Qed.

Lemma sameKey_refl (p : Player num) : sameKey p p = true.
Proof.
  unfold sameKey. destruct (player_key p); [apply String.eqb_refl | reflexivity].
Qed.

(** X9.  On a roster whose players all carry a key, with keys that are
    distinct, the players taken out for a list of keys sent are exactly the
    players whose key is in the list; the others stay, in order. *)
Theorem removeOutgoing_by_key (all arr : list (Player num))
  (send : list string) :
  NoDup (map keyOf all) -> Forall hasKey all -> incl arr all ->
  removeOutgoing arr (resolveOutgoing (byKey all) send)
  = filter (fun p => negb (sent send p)) arr.
Proof.
  intros Hnd Hkeys Hincl. unfold removeOutgoing.
  apply filter_ext_in. intros p Hp. f_equal.
  assert (Hpa : In p all) by now apply Hincl.
  assert (Hpk : hasKey p) by (rewrite Forall_forall in Hkeys; auto).
  unfold sent, resolveOutgoing.
  destruct (existsb (String.eqb (keyOf p)) send) eqn:E.
  - apply existsb_exists in E. destruct E as (k & Hk & Ek).
    apply String.eqb_eq in Ek. subst k.
    apply existsb_exists. exists p. split; [|apply sameKey_refl].
    apply in_flat_map. exists (keyOf p). split; [assumption|].
    rewrite (objGet_byKey all p Hnd Hpa). now left.
  - destruct (existsb (fun o => sameKey o p) _) eqn:E'; [|reflexivity].
    exfalso.
    apply existsb_exists in E'. destruct E' as (o & Ho & Eo).
    apply in_flat_map in Ho. destruct Ho as (k & Hk & Hok).
    destruct (objGet (byKey all) k) as [q| |] eqn:G.
    + destruct Hok as [Hok|[]]. subst q.
      apply (sameKey_keyed o p Hpk) in Eo.
      apply objGet_own in G. destruct G as [_ G].
      assert (existsb (String.eqb (keyOf p)) send = true).
      { apply existsb_exists. exists k. split; [assumption|].
        apply String.eqb_eq. congruence. }
      congruence.
    + destruct Hok as [Hok|[]]. subst o.
      unfold hasKey in Hpk. unfold sameKey in Eo. simpl in Eo.
      destruct (player_key p); [discriminate | now apply Hpk].
    + destruct Hok.
Qed.

End KeyFacts.

(** ** The bookkeeping of an exchange *)

Section Bookkeeping.
Context {num : Type} {ops : NumberOps num}.

Lemma filter_perm {A} (f : A -> bool) (l l' : list A) :
  Permutation l l' -> Permutation (filter f l) (filter f l').
Proof.
  induction 1 as [|x l l' H IH|x y l|l l' l'' H1 IH1 H2 IH2]; simpl.
  - constructor.
  - destruct (f x); [now constructor | assumption].
  - destruct (f x), (f y); try apply Permutation_refl. apply perm_swap.
  - eapply Permutation_trans; eassumption.
Qed.

Lemma filter_split {A} (f : A -> bool) (l : list A) :
  Permutation (filter (fun x => negb (f x)) l ++ filter f l) l.
Proof.
  induction l as [|x l IH]; simpl; [constructor|].
  destruct (f x); simpl.
  - apply Permutation_sym. apply Permutation_cons_app.
    now apply Permutation_sym.
  - now constructor.
Qed.

Lemma keyOf_inj (all : list (Player num)) (x y : Player num) :
  NoDup (map keyOf all) -> In x all -> In y all -> keyOf x = keyOf y -> x = y.
Proof.
  intros Hnd Hx Hy E.
  pose proof (objGet_byKey all x Hnd Hx) as H1.
  pose proof (objGet_byKey all y Hnd Hy) as H2.
  rewrite E in H1. congruence.
Qed.

Lemma sameKey_eqb (o p : Player num) :
  hasKey o -> hasKey p -> sameKey o p = String.eqb (keyOf p) (keyOf o).
Proof.
  unfold hasKey, sameKey, keyOf.
  destruct (player_key o), (player_key p); try congruence.
  intros _ _. apply String.eqb_sym.
Qed.

(** The keys sent all name players of the roster, once each: the players
    they resolve to. *)
Lemma resolveOutgoing_known (all : list (Player num)) (send : list string) :
  NoDup (map keyOf all) -> incl send (map keyOf all) ->
  map keyOf (resolveOutgoing (byKey all) send) = send /\
  incl (resolveOutgoing (byKey all) send) all.
Proof.
  intros Hnd. unfold resolveOutgoing.
  induction send as [|k send IH]; intros Hincl.
  - split; [reflexivity | intros x []].
  - assert (Hk : In k (map keyOf all)) by (apply Hincl; now left).
    apply in_map_iff in Hk. destruct Hk as (p & Hp & Hin).
    destruct IH as [IH1 IH2]; [intros x Hx; apply Hincl; now right|].
    cbn [flat_map]. rewrite <- Hp, (objGet_byKey all p Hnd Hin).
    cbn [app map]. split; [now rewrite IH1|].
    intros x [<-|Hx]; [assumption | now apply IH2].
Qed.

(** X27.  When every player of a roster carries a key, the keys are
    distinct, and the keys sent name players of the roster, once each,
    the bookkeeping of the exchange loses nobody and counts nobody twice:
    the outgoing players carry the keys sent, in the order sent, and the
    starters and the bench that are left, together with the outgoing
    players, are exactly the roster. *)
Theorem exchange_conserves_roster (need : Need num) (all : list (Player num))
  (send : list string) :
  NoDup (map keyOf all) -> Forall hasKey all ->
  NoDup send -> incl send (map keyOf all) ->
  let r := pickStarters need all in
  let outgoing := resolveOutgoing (byKey all) send in
  map keyOf outgoing = send /\
  Permutation
    ((removeOutgoing (starters r) outgoing
      ++ removeOutgoing (bench r) outgoing) ++ outgoing)
    all.
Proof.
  intros Hnd Hkeys Hsend Hincl. cbv zeta.
  destruct (resolveOutgoing_known all send Hnd Hincl) as [Hk Hin].
  set (out := resolveOutgoing (byKey all) send) in *.
  split; [exact Hk|].
  assert (Hrm : forall arr, incl arr all ->
            removeOutgoing arr out = filter (fun p => negb (sent send p)) arr).
  { intros arr Harr. unfold removeOutgoing. apply filter_ext_in.
    intros p Hp. f_equal. unfold sent. rewrite <- Hk.
    rewrite Forall_forall in Hkeys.
    assert (Hpk : hasKey p) by (apply Hkeys; now apply Harr).
    clear Hk. induction out as [|o out IH]; [reflexivity|].
    cbn [existsb map].
    rewrite sameKey_eqb by (assumption || (apply Hkeys, Hin; now left)).
    f_equal. apply IH. intros x Hx. apply Hin. now right. }
  rewrite pickStarters_eq. cbn [starters bench].
  pose proof (fillSlots_perm (sortByValue all) need) as Hp1.
  pose proof (sortByValue_perm all) as Hp2.
  set (S := fst (fst (fillSlots (sortByValue all) need))) in *.
  set (Bn := snd (fst (fillSlots (sortByValue all) need))) in *.
  assert (Hsplit : Permutation (S ++ Bn) all)
    by (eapply Permutation_trans; eassumption).
  assert (HS : incl S all).
  { intros x Hx. apply (Permutation_in x Hsplit). apply in_or_app. now left. }
  assert (HB : incl Bn all).
  { intros x Hx. apply (Permutation_in x Hsplit). apply in_or_app. now right. }
  rewrite (Hrm S HS), (Hrm Bn HB), <- filter_app.
  assert (Hout : Permutation out (filter (sent send) all)).
  { apply NoDup_Permutation.
    - apply (NoDup_map_inv keyOf). now rewrite Hk.
    - apply NoDup_filter. now apply (NoDup_map_inv keyOf).
    - intros x. rewrite filter_In. split.
      + intros Hx. split; [now apply Hin|].
        unfold sent. apply existsb_exists. exists (keyOf x).
        split; [|apply String.eqb_refl].
        rewrite <- Hk. now apply in_map.
      + intros [Hx Hs]. unfold sent in Hs. apply existsb_exists in Hs.
        destruct Hs as (k & Hks & Ek). apply String.eqb_eq in Ek. subst k.
        rewrite <- Hk in Hks. apply in_map_iff in Hks.
        destruct Hks as (y & Ey & Hy).
        rewrite <- (keyOf_inj all y x Hnd (Hin y Hy) Hx Ey). exact Hy. }
  eapply Permutation_trans.
  - apply Permutation_app.
    + apply filter_perm. exact Hsplit.
    + exact Hout.
  - apply filter_split.
Qed.

End Bookkeeping.

(** ** The rosters of the evaluation *)

Lemma keyOf_setValue {num} (p : Player num) (x : num) :
  keyOf (setValue p x) = keyOf p.
Proof. reflexivity. Qed.

Lemma keyOf_perGameOf (rt : Runtime) (p : Player float) :
  keyOf (perGameOf rt p) = keyOf p.
Proof. unfold perGameOf. destruct (F64.falsy _); reflexivity. Qed.

(** The valued pool is the pool, player by player, under a map that keeps
    the key. *)
Lemma valuedPool_map (rt : Runtime) (cats : list Category)
  (A B FA : list (Player float)) :
  exists g : Player float -> Player float,
    (forall p, keyOf (g p) = keyOf p) /\
    valuedPool rt cats A B FA = map g (A ++ B ++ FA).
Proof.
  unfold valuedPool, valuePlayers, computePerGame.
  set (ms := moments rt _ cats).
  exists (fun p => setValue (perGameOf rt p)
                     (num_toFixed4 (composite rt ms cats (perGameOf rt p)))).
  split.
  - intros p. now rewrite keyOf_setValue, keyOf_perGameOf.
  - now rewrite map_map.
Qed.

Lemma withValues_map {num} (g : Player num -> Player num)
  (pool arr : list (Player num)) :
  (forall p, keyOf (g p) = keyOf p) ->
  NoDup (map keyOf pool) -> incl arr pool ->
  withValues (byKey (map g pool)) arr = map g arr.
Proof.
  intros Hg Hnd Hincl. unfold withValues. apply map_ext_in. intros p Hp.
  rewrite <- (Hg p).
  rewrite objGet_byKey; [reflexivity| |].
  - rewrite map_map. rewrite (map_ext _ keyOf Hg). exact Hnd.
  - apply in_map. now apply Hincl.
Qed.

(** X10.  When the keys of the players of the two rosters and of the free
    agents are distinct, looking the players up again by key gives back the
    valued pool, split into the three lists it was built from: every
    player keeps its place and its key, with per-game rates and value
    attached. *)
Theorem evaluate_rosters_valued (rt : Runtime) (lt gm im : float)
  (need : Need float) (cats : list Category) (A B FA : list (Player float))
  (sendA sendB : list string) :
  NoDup (map keyOf (A ++ B ++ FA)) ->
  let e := evaluate rt lt gm im need cats A B FA sendA sendB in
  Aall e ++ Ball e ++ FAall e = valuedPool rt cats A B FA /\
  map keyOf (Aall e) = map keyOf A /\
  map keyOf (Ball e) = map keyOf B /\
  map keyOf (FAall e) = map keyOf FA.
Proof.
  intros Hnd. cbv zeta.
  destruct (valuedPool_map rt cats A B FA) as (g & Hg & Hpool).
  unfold evaluate. cbn [Aall Ball FAall].
  fold (valuedPool rt cats A B FA). rewrite Hpool.
  rewrite !(withValues_map g) by
    (assumption || intros x Hx; repeat (apply in_or_app; auto; right); auto).
  rewrite <- !map_app. split; [reflexivity|].
  rewrite !map_map. repeat split; apply map_ext; exact Hg.
Qed.

(** ** Settings that value nothing *)

Lemma sumOf_worthless (l : list (Player float)) :
  Forall worthless l -> sumOf (map value0 l) = 0%float.
Proof.
  unfold sumOf. simpl.
  assert (G : forall acc, acc = 0%float -> Forall worthless l ->
              fold_left PrimFloat.add (map value0 l) acc = 0%float).
  { induction l as [|p l IH]; intros acc Hacc H; [exact Hacc|].
    inversion H as [|? ? Hp Hl]; subst. cbn [map fold_left].
    apply IH; [|assumption]. rewrite Hp. reflexivity. }
  intros H. now apply G.
Qed.

Lemma worthless_incl (l l' : list (Player float)) :
  incl l l' -> Forall worthless l' -> Forall worthless l.
Proof.
  intros Hincl H. rewrite Forall_forall in *. auto.
Qed.

Lemma impact_worthless (a : TradeArgs float) :
  Forall worthless (arg_starters a) -> Forall worthless (arg_bench a) ->
  Forall worthless (incoming a) -> Forall worthless (freeAgents a) ->
  tradeImpactForTeam a = 0%float.
Proof.
  intros H1 H2 H3 H4.
  destruct (chosenLineup_parts a) as (placed & filled & Heq & _ & Hp & Hf).
  unfold tradeImpactForTeam. rewrite Heq.
  rewrite !sumOf_worthless; [reflexivity|assumption|].
  apply Forall_app. split.
  - apply (worthless_incl _ _ Hp). now repeat (apply Forall_app; split).
  - now apply (worthless_incl _ _ Hf).
Qed.

Lemma valuePlayers_no_categories (rt : Runtime) (pool : list (Player float)) :
  Forall worthless (valuePlayers rt pool []).
Proof.
  unfold valuePlayers. apply Forall_forall. intros q Hq.
  apply in_map_iff in Hq. destruct Hq as (p & <- & _). reflexivity.
Qed.

Lemma withValues_worthless (pool arr : list (Player float)) :
  Forall worthless pool ->
  (forall p, In p arr -> In (keyOf p) (map keyOf pool)) ->
  Forall worthless (withValues (byKey pool) arr).
Proof.
  intros Hpool Hkeys. unfold withValues. apply Forall_forall. intros q Hq.
  apply in_map_iff in Hq. destruct Hq as (p & <- & Hp).
  destruct (objGet (byKey pool) (keyOf p)) as [x| |] eqn:G.
  - apply objGet_own in G. rewrite Forall_forall in Hpool.
    apply Hpool. tauto.
  - reflexivity.
  - exfalso. unfold objGet in G. rewrite assoc_byKey in G.
    unfold lastWithKey in G.
    destruct (find _ (rev pool)) eqn:F; [discriminate|].
    apply Hkeys in Hp. apply in_map_iff in Hp. destruct Hp as (x & Hx & Hin).
    apply in_rev in Hin. apply (find_none _ _ F) in Hin.
    rewrite Hx, String.eqb_refl in Hin. discriminate.
Qed.

Lemma resolveOutgoing_worthless (all : list (Player float))
  (send : list string) :
  Forall worthless all -> Forall worthless (resolveOutgoing (byKey all) send).
Proof.
  intros H. unfold resolveOutgoing. apply Forall_forall. intros q Hq.
  apply in_flat_map in Hq. destruct Hq as (k & _ & Hq).
  destruct (objGet (byKey all) k) as [x| |] eqn:G.
  - destruct Hq as [<-|[]]. apply objGet_own in G.
    rewrite Forall_forall in H. apply H. tauto.
  - destruct Hq as [<-|[]]. reflexivity.
  - destruct Hq.
Qed.

Lemma removeOutgoing_incl {num} (arr out : list (Player num)) :
  incl (removeOutgoing arr out) arr.
Proof. intros x Hx. unfold removeOutgoing in Hx. now apply filter_In in Hx. Qed.

Lemma pickStarters_incl {num} {ops : NumberOps num} (need : Need num)
  (players : list (Player num)) :
  incl (starters (pickStarters need players)) players /\
  incl (bench (pickStarters need players)) players.
Proof.
  rewrite pickStarters_eq. simpl.
  pose proof (fillSlots_perm (sortByValue players) need) as H.
  split; intros x Hx;
    apply (Permutation_in x (sortByValue_perm players));
    apply (Permutation_in x H); apply in_or_app; auto.
Qed.

(** X11.  Settings that give no category, or no open slot, make every trade
    come out with impact [0] for both teams, whatever is exchanged; the
    verdict is then the verdict on two impacts of [0], which is REVIEW
    unless the thresholds let [0] through. *)
Theorem evaluate_degenerate_settings (rt : Runtime) (lt gm im : float)
  (need : Need float) (cats : list Category) (A B FA : list (Player float))
  (sendA sendB : list string) :
  cats = [] \/ anyOpen need = false ->
  let e := evaluate rt lt gm im need cats A B FA sendA sendB in
  tiA e = 0%float /\ tiB e = 0%float /\
  status (verdictOf e) = verdictAtZero lt gm im.
Proof.
  intros H. cbv zeta.
  assert (G : tiA (evaluate rt lt gm im need cats A B FA sendA sendB) = 0%float
              /\ tiB (evaluate rt lt gm im need cats A B FA sendA sendB)
                 = 0%float).
  { destruct H as [H|H].
    - subst cats. unfold evaluate. cbn [tiA tiB].
      set (pool := valuePlayers rt _ []).
      assert (Hpool : Forall worthless pool)
        by apply valuePlayers_no_categories.
      assert (Hkey : forall X, incl X (A ++ B ++ FA) ->
                forall p, In p X -> In (keyOf p) (map keyOf pool)).
      { intros X HX p Hp. apply HX in Hp.
        destruct (valuedPool_map rt [] A B FA) as (g & Hg & Hmap).
        unfold valuedPool in Hmap. fold pool in Hmap. rewrite Hmap.
        rewrite map_map. rewrite (map_ext _ keyOf Hg). now apply in_map. }
      assert (HA : Forall worthless (withValues (byKey pool) A)).
      { apply withValues_worthless; [assumption|]. apply Hkey.
        intros x Hx. apply in_or_app. now left. }
      assert (HB : Forall worthless (withValues (byKey pool) B)).
      { apply withValues_worthless; [assumption|]. apply Hkey.
        intros x Hx. apply in_or_app. right. apply in_or_app. now left. }
      assert (HF : Forall worthless (withValues (byKey pool) FA)).
      { apply withValues_worthless; [assumption|]. apply Hkey.
        intros x Hx. apply in_or_app. right. apply in_or_app. now right. }
      destruct (pickStarters_incl need (withValues (byKey pool) A)) as [A1 A2].
      destruct (pickStarters_incl need (withValues (byKey pool) B)) as [B1 B2].
      split; apply impact_worthless; cbn [arg_starters arg_bench incoming
        freeAgents]; try assumption;
        try (apply resolveOutgoing_worthless; assumption);
        (eapply worthless_incl; [apply removeOutgoing_incl|]);
        (eapply worthless_incl; [eassumption|]); assumption.
    - unfold evaluate. cbn [tiA tiB].
      unfold tradeImpactForTeam, chosenLineup.
      cbn [arg_starters arg_bench incoming freeAgents startersByPos].
      rewrite !pickStarters_eq. cbn [starters bench].
      rewrite !(fillSlots_closed _ need H). cbn [fst snd].
      rewrite H. split; reflexivity. }
  destruct G as [G1 G2]. split; [exact G1|]. split; [exact G2|].
  assert (E : verdictOf (evaluate rt lt gm im need cats A B FA sendA sendB)
              = verdict (tiA (evaluate rt lt gm im need cats A B FA sendA sendB))
                        (tiB (evaluate rt lt gm im need cats A B FA sendA sendB))
                        (Some {| lossTol := Some lt; gainMin := Some gm;
                                 imbalanceMax := Some im |})) by reflexivity.
  rewrite E, G1, G2. unfold verdict, verdictAtZero, geb. cbn [withDefault
    lossTol gainMin imbalanceMax].
  replace (PrimFloat.abs (0 - 0)) with 0%float by reflexivity.
  rewrite andb_diag, orb_diag.
  destruct (PrimFloat.leb lt 0 && PrimFloat.leb gm 0 && PrimFloat.leb 0 im);
    reflexivity.
Qed.

(** ** A proposal that exchanges nothing *)

Lemma sortsAfter_rank (a b : Player float) :
  sortsAfter a b = (rank a <? rank b)%Z.
Proof.
  rewrite sortsAfter_f64. unfold rank.
  apply ltb_scaled; apply value0_not_nan.
Qed.

Lemma sortByValue_rank (pool : list (Player float)) :
  descending (sortByValue pool).
Proof.
  apply Sorted_StronglySorted.
  - intros a b c Hab Hbc. lia.
  - pose proof (sortByValue_sorted pool) as H.
    induction H as [|a l Hs IH Hhd]; constructor.
    + exact IH.
    + destruct Hhd as [|b l Hab]; constructor.
      unfold inOrder in Hab. rewrite !sortsAfter_rank in Hab.
      destruct Hab as [H|H]; [apply Z.ltb_lt in H | apply Z.ltb_ge in H]; lia.
Qed.

Lemma mergeByValue_nil_r (l : list (Player float)) : mergeByValue l [] = l.
Proof. destruct l; reflexivity. Qed.

Lemma mergeByValue_cons (a b : Player float) (l1 l2 : list (Player float)) :
  mergeByValue (a :: l1) (b :: l2)
  = if (rank a <? rank b)%Z then b :: mergeByValue (a :: l1) l2
    else a :: mergeByValue l1 (b :: l2).
Proof. reflexivity. Qed.

Lemma insert_front (s : Player float) (l : list (Player float)) :
  match l with [] => True | y :: _ => (rank y <= rank s)%Z end ->
  insertByValue s l = s :: l.
Proof.
  destruct l as [|y l]; [reflexivity|]. intros H. cbn [insertByValue].
  rewrite sortsAfter_rank. apply Z.ltb_ge in H. now rewrite H.
Qed.

(** A list that is in descending order is left alone by the sort. *)
Lemma sortByValue_fixed (l : list (Player float)) :
  descending l -> sortByValue l = l.
Proof.
  induction 1 as [|a l Hs IH Hall]; [reflexivity|].
  cbn [sortByValue fold_right]. fold (sortByValue l). rewrite IH.
  apply insert_front. destruct l as [|y l]; [exact I|].
  inversion Hall; subst. assumption.
Qed.

Lemma mergeByValue_head (s : Player float) (l1 l2 : list (Player float)) :
  Forall (fun x => (rank x <= rank s)%Z) l1 ->
  match l2 with [] => True | b :: _ => (rank b <= rank s)%Z end ->
  match mergeByValue l1 l2 with
  | [] => True
  | y :: _ => (rank y <= rank s)%Z
  end.
Proof.
  intros H1 H2. destruct l1 as [|a l1]; [exact H2|].
  destruct l2 as [|b l2].
  - simpl. now inversion H1.
  - rewrite mergeByValue_cons. destruct (rank a <? rank b)%Z; [exact H2|].
    now inversion H1.
Qed.

Lemma insert_merge (s : Player float) (l1 l2 : list (Player float)) :
  Forall (fun x => (rank x <= rank s)%Z) l1 ->
  insertByValue s (mergeByValue l1 l2) = mergeByValue (s :: l1) l2.
Proof.
  intros H1. induction l2 as [|b l2 IH].
  - rewrite !mergeByValue_nil_r. apply insert_front.
    destruct l1; [exact I | now inversion H1].
  - rewrite (mergeByValue_cons s b).
    destruct (rank s <? rank b)%Z eqn:E.
    + rewrite <- IH.
      assert (Hm : mergeByValue l1 (b :: l2) = b :: mergeByValue l1 l2).
      { destruct l1 as [|a l1]; [reflexivity|].
        rewrite mergeByValue_cons.
        inversion H1; subst. apply Z.ltb_lt in E.
        assert (Hlt : (rank a <? rank b)%Z = true) by (apply Z.ltb_lt; lia).
        now rewrite Hlt. }
      rewrite Hm. cbn [insertByValue]. rewrite sortsAfter_rank, E. reflexivity.
    + apply insert_front. apply mergeByValue_head; [assumption|].
      apply Z.ltb_ge in E. exact E.
Qed.

(** Sorting one descending list followed by another merges them, the
    first list winning the ties. *)
Lemma sortByValue_app (l1 l2 : list (Player float)) :
  descending l1 -> descending l2 ->
  sortByValue (l1 ++ l2) = mergeByValue l1 l2.
Proof.
  intros H1 H2. unfold sortByValue. rewrite fold_right_app.
  fold (sortByValue l2). rewrite (sortByValue_fixed l2 H2).
  induction H1 as [|a l1 Hs IH Hall]; [reflexivity|].
  cbn [fold_right]. rewrite IH. apply insert_merge.
  exact Hall.
Qed.

(** ** The loop on the starters followed by the bench *)

Lemma unfit_place {num} {ops : NumberOps num} (need : Need num) (p : Player num) :
  unfit need p -> place p need = None.
Proof.
  unfold unfit, place. intros H.
  assert (E : findSlot p need = None).
  { induction need as [|[s c] need IH]; [reflexivity|].
    inversion H as [|? ? H1 H2]; subst. cbn [findSlot].
    destruct (eligible p s && num_gtb c num_zero) eqn:E.
    - exfalso. apply H1. apply andb_true_iff in E. destruct E as [E1 E2].
      split; assumption.
    - now apply IH. }
  now rewrite E.
Qed.

Lemma fillSlots_unfit_all {num} {ops : NumberOps num}
  (l : list (Player num)) (need : Need num) :
  Forall (unfit need) l -> fillSlots l need = ([], l, need).
Proof.
  induction 1 as [|p l Hp Hl IH]; [reflexivity|].
  rewrite fillSlots_cons, (unfit_place need p Hp), IH. reflexivity.
Qed.

(** Running the loop again on the players it placed places them all. *)
Lemma fillSlots_placed_again {num} {ops : NumberOps num}
  (l : list (Player num)) (need : Need num) :
  fillSlots (fst (fst (fillSlots l need))) need
  = (fst (fst (fillSlots l need)), [], snd (fillSlots l need)).
Proof.
  revert need. induction l as [|p l IH]; intros need; [reflexivity|].
  rewrite fillSlots_cons. destruct (place p need) as [need'|] eqn:E.
  - cbn [fst snd]. rewrite fillSlots_cons, E, IH. reflexivity.
  - cbn [fst snd]. apply IH.
Qed.

Lemma fillSlots_descending (l : list (Player float)) (need : Need float) :
  descending l ->
  descending (fst (fst (fillSlots l need))) /\
  descending (snd (fst (fillSlots l need))) /\
  incl (fst (fst (fillSlots l need))) l /\
  incl (snd (fst (fillSlots l need))) l.
Proof.
  unfold descending. intros H. revert need.
  induction H as [|p l Hs IH Hall]; intros need.
  - simpl. repeat split; try constructor; intros x [].
  - rewrite fillSlots_cons.
    destruct (place p need) as [need'|];
      [destruct (IH need') as (H1 & H2 & H3 & H4)
      |destruct (IH need) as (H1 & H2 & H3 & H4)]; cbn [fst snd].
    + repeat split; auto.
      * constructor; [assumption|]. rewrite Forall_forall in *. auto.
      * intros x [Hx|Hx]; [now left | right; auto].
      * intros x Hx. right. auto.
    + repeat split; auto.
      * constructor; [assumption|]. rewrite Forall_forall in *. auto.
      * intros x Hx. right. auto.
      * intros x [Hx|Hx]; [now left | right; auto].
Qed.

(** A benched player fits no entry once the players placed ahead of it
    have taken their slots. *)
Lemma benched_unfit_ahead (l : list (Player float)) (need : Need float) :
  NoDup (map fst need) -> descending l ->
  Forall (fun b =>
            unfit (snd (fillSlots (ahead (rank b) (fst (fst (fillSlots l need))))
                          need)) b)
         (snd (fst (fillSlots l need))).
Proof.
  intros Hnd H. revert need Hnd. unfold descending in H.
  induction H as [|p l Hs IH Hall]; intros need Hnd.
  - constructor.
  - rewrite fillSlots_cons. destruct (place p need) as [need'|] eqn:E.
    + cbn [fst snd].
      destruct (place_step p need need' Hnd E) as (Hnd' & _).
      specialize (IH need' Hnd').
      destruct (fillSlots_descending l need' Hs) as (_ & _ & _ & Hincl).
      rewrite Forall_forall in *. intros b Hb.
      assert (Hr : (rank b <= rank p)%Z) by (apply Hall; now apply Hincl).
      cbn [ahead]. apply Z.leb_le in Hr. rewrite Hr.
      rewrite fillSlots_cons, E. cbn [snd]. now apply IH.
    + cbn [fst snd]. constructor; [|now apply IH].
      pose proof (fillSlots_account
                    (ahead (rank p) (fst (fst (fillSlots l need)))) need Hnd)
        as Ha.
      destruct (fillSlots (ahead _ _) need) as [[x y] z].
      destruct Ha as (_ & Hmono & _). cbn [snd].
      apply Hmono. now apply place_unfit.
Qed.

(** The loop on the merge of the players it would place and players that
    fit nothing when their turn comes. *)
Lemma fillSlots_merge (S : list (Player float)) :
  forall (Bn : list (Player float)) (need final : Need float),
  descending Bn ->
  NoDup (map fst need) ->
  fillSlots S need = (S, [], final) ->
  Forall (fun b => unfit (snd (fillSlots (ahead (rank b) S) need)) b) Bn ->
  fillSlots (mergeByValue S Bn) need = (S, Bn, final).
Proof.
  induction S as [|s S IHS]; intros Bn need final HBn Hnd HA HB.
  - simpl in *. inversion HA; subst. now apply fillSlots_unfit_all.
  - rewrite fillSlots_cons in HA.
    destruct (place s need) as [need1|] eqn:E; [|discriminate HA].
    destruct (place_step s need need1 Hnd E) as (Hnd1 & _).
    assert (HA1 : fillSlots S need1 = (S, [], final)).
    { destruct (fillSlots S need1) as [[x y] z]. cbn [fst snd] in HA.
      congruence. }
    clear HA. revert HB.
    induction HBn as [|b Bn HsBn IHBn Hall]; intros HB.
    + rewrite mergeByValue_nil_r, fillSlots_cons, E, HA1. reflexivity.
    + rewrite mergeByValue_cons.
      inversion HB as [|? ? Hb HB']; subst.
      destruct (rank s <? rank b)%Z eqn:C.
      * cbn [ahead] in Hb.
        assert (Hc : (rank b <=? rank s)%Z = false)
          by (apply Z.leb_gt; now apply Z.ltb_lt).
        rewrite Hc in Hb. cbn [fillSlots snd] in Hb.
        rewrite fillSlots_cons, (unfit_place need b Hb).
        rewrite (IHBn HB'). reflexivity.
      * apply Z.ltb_ge in C.
        rewrite fillSlots_cons, E.
        rewrite (IHS (b :: Bn) need1 final); try assumption;
          [reflexivity | now constructor |].
        apply Forall_forall. intros b' Hb'.
        assert (Hr : (rank b' <= rank s)%Z).
        { destruct Hb' as [<-|Hb']; [exact C|].
          rewrite Forall_forall in Hall. specialize (Hall b' Hb'). lia. }
        rewrite Forall_forall in HB. specialize (HB b' Hb').
        cbn [ahead] in HB. apply Z.leb_le in Hr. rewrite Hr in HB.
        rewrite fillSlots_cons, E in HB. exact HB.
Qed.

(** Splitting a roster and running the loop again on its starters
    followed by its bench places the same starters and leaves the same
    counts. *)
Lemma fillSlots_resplit (need : Need float) (players : list (Player float)) :
  NoDup (map fst need) ->
  let r := fillSlots (sortByValue players) need in
  fillSlots (sortByValue (fst (fst r) ++ snd (fst r))) need = r.
Proof.
  intros Hnd. cbv zeta.
  pose proof (sortByValue_rank players) as Hd.
  destruct (fillSlots_descending (sortByValue players) need Hd)
    as (HS & HB & _ & _).
  rewrite (sortByValue_app _ _ HS HB).
  rewrite (fillSlots_merge _ _ need
             (snd (fillSlots (sortByValue players) need)) HB Hnd).
  - destruct (fillSlots (sortByValue players) need) as [[x y] z]. reflexivity.
  - apply fillSlots_placed_again.
  - now apply benched_unfit_ahead.
Qed.

Lemma infinity_spec (x : float) (s : bool) :
  Prim2SF x = S754_infinity s -> PrimFloat.is_infinity x = true.
Proof.
  intros H. unfold PrimFloat.is_infinity.
  rewrite FloatAxioms.eqb_spec, FloatAxioms.abs_spec, H. reflexivity.
Qed.

(** A finite Number less itself is [0]. *)
Lemma sub_self (x : float) :
  PrimFloat.is_finite x = true -> (x - x)%float = 0%float.
Proof.
  intros H. rewrite <- (SF2Prim_Prim2SF (x - x)).
  rewrite FloatAxioms.sub_spec. unfold SF64sub.
  destruct (Prim2SF x) as [s|s| |s m e] eqn:E.
  - destruct s; reflexivity.
  - unfold PrimFloat.is_finite in H.
    rewrite (infinity_spec x s E), orb_true_r in H. discriminate.
  - unfold PrimFloat.is_finite, PrimFloat.is_nan in H.
    rewrite FloatAxioms.eqb_spec, E in H. discriminate.
  - cbn [SFsub]. rewrite Z.sub_diag. reflexivity.
Qed.

Lemma removeOutgoing_nil {num} (arr : list (Player num)) :
  removeOutgoing arr [] = arr.
Proof. apply removeOutgoing_none. reflexivity. Qed.

(** X12.  A team that sends nothing and receives nothing: the lineup of the
    trade simulation begins with the team's starters as the roster split
    chose them, in the same order, and free agents follow only if a slot
    was left open.  When the roster fills every slot and the value of the
    starters is finite, the impact is [0]. *)
Theorem no_trade_impact (need : Need float) (players fa : list (Player float)) :
  NoDup (map fst need) ->
  let r := pickStarters need players in
  let a := {| arg_starters := removeOutgoing (starters r) [];
              arg_bench := removeOutgoing (bench r) [];
              incoming := [];
              freeAgents := fa;
              startersByPos := need |} in
  exists filled,
    chosenLineup a = starters r ++ filled /\
    incl filled fa /\
    (anyOpen (needLeft need players) = false ->
     filled = [] /\
     (PrimFloat.is_finite (sumOf (map value0 (starters r))) = true ->
      tradeImpactForTeam a = 0%float)).
Proof.
  intros Hnd. cbv zeta. rewrite !removeOutgoing_nil.
  rewrite pickStarters_eq. cbn [starters bench].
  pose proof (fillSlots_resplit need players Hnd) as Hre. cbv zeta in Hre.
  unfold needLeft, tradeImpactForTeam, chosenLineup.
  cbn [arg_starters arg_bench incoming freeAgents startersByPos].
  rewrite app_nil_r, Hre.
  destruct (fillSlots (sortByValue players) need) as [[S Bn] final].
  cbn [fst snd].
  destruct (anyOpen final) eqn:O.
  - destruct (backfill_app (sortByValue fa) S final) as (filled & Heq & Hincl).
    exists filled. split; [exact Heq|]. split; [|discriminate].
    intros x Hx. apply (Permutation_in x (sortByValue_perm fa)).
    now apply Hincl.
  - exists []. split; [now rewrite app_nil_r|]. split; [intros x []|].
    intros _. split; [reflexivity|]. intros Hfin. now apply sub_self.
Qed.

(** X13.  Splitting the roster again, starters first and bench after, gives
    the same split: the same starters and the same bench, in the same
    order. *)
Theorem pickStarters_idempotent (need : Need float) (players : list (Player float)) :
  NoDup (map fst need) ->
  let r := pickStarters need players in
  pickStarters need (starters r ++ bench r) = r.
Proof.
  intros Hnd. cbv zeta. rewrite !pickStarters_eq. cbn [starters bench].
  pose proof (fillSlots_resplit need players Hnd) as H. cbv zeta in H.
  rewrite H. reflexivity.
Qed.

(** ** What the valuation reads *)

Section ScorerReads.

Context {num : Type} {ops : NumberOps num}.
Variable rt : Runtime.

Lemma catKey_id (c c' : Category) : id c = id c' -> catKey rt c = catKey rt c'.
Proof. unfold catKey. now intros ->. Qed.

Lemma perValue_reads (p p' : Player num) (c c' : Category) :
  per p = per p' -> id c = id c' -> perValue rt p c = perValue rt p' c'.
Proof.
  intros Hp Hc. unfold perValue. now rewrite Hp, (catKey_id c c' Hc).
Qed.

Lemma fold_left_Forall2 {A B B'} (f : A -> B -> A) (f' : A -> B' -> A)
  (R : B -> B' -> Prop) (l : list B) (l' : list B') (a : A) :
  Forall2 R l l' ->
  (forall a x x', R x x' -> f a x = f' a x') ->
  fold_left f l a = fold_left f' l' a.
Proof.
  intros H Hf. revert a. induction H as [|x x' l l' Hx Hl IH]; intros a.
  - reflexivity.
  - cbn [fold_left]. rewrite (Hf a x x' Hx). apply IH.
Qed.

Lemma initTotals_reads (cats cats' : list Category) :
  sameIds cats cats' -> initTotals rt cats = initTotals rt cats'.
Proof.
  intros H. unfold initTotals.
  apply (fold_left_Forall2 _ _ _ _ _ _ H).
  intros t c c' Hc. cbv zeta. now rewrite (catKey_id c c' Hc).
Qed.

Lemma addPlayer_reads (cats cats' : list Category) (t : Totals num)
  (p p' : Player num) :
  sameIds cats cats' -> per p = per p' ->
  addPlayer rt cats t p = addPlayer rt cats' t p'.
Proof.
  intros H Hp. unfold addPlayer.
  apply (fold_left_Forall2 _ _ _ _ _ _ H).
  intros a c c' Hc. cbv zeta.
  now rewrite (catKey_id c c' Hc), (perValue_reads p p' c c' Hp Hc).
Qed.

Lemma accumulate_reads (pool pool' : list (Player num))
  (cats cats' : list Category) :
  sameIds cats cats' -> sameRates pool pool' ->
  accumulate rt pool cats = accumulate rt pool' cats'.
Proof.
  intros Hc Hp. unfold accumulate. rewrite (initTotals_reads cats cats' Hc).
  apply (fold_left_Forall2 _ _ _ _ _ _ Hp).
  intros t p p' Hpp. now apply addPlayer_reads.
Qed.

Lemma moments_reads (t : Totals num) (cats cats' : list Category) :
  sameIds cats cats' -> moments rt t cats = moments rt t cats'.
Proof.
  intros H. unfold moments.
  apply (fold_left_Forall2 _ _ _ _ _ _ H).
  intros ms c c' Hc. cbv zeta. now rewrite (catKey_id c c' Hc).
Qed.

Lemma composite_reads (ms : Moments num) (cats cats' : list Category)
  (p p' : Player num) :
  sameIds cats cats' -> per p = per p' ->
  composite rt ms cats p = composite rt ms cats' p'.
Proof.
  intros H Hp. unfold composite.
  apply (fold_left_Forall2 _ _ _ _ _ _ H).
  intros a c c' Hc. cbv zeta.
  now rewrite (catKey_id c c' Hc), (perValue_reads p p' c c' Hp Hc).
Qed.

(** X22.  The values [valuePlayers] writes depend on the categories only
    through their ids and on the players only through their per-game
    rates: the name and the position type of a category, and the
    positions, the goalie flag, the raw statistics and the games played of
    a player, play no part in the valuation. *)
Theorem valuePlayers_reads_ids_and_rates (pool pool' : list (Player num))
  (cats cats' : list Category) :
  sameIds cats cats' -> sameRates pool pool' ->
  map value (valuePlayers rt pool cats)
  = map value (valuePlayers rt pool' cats').
Proof.
  intros Hc Hp. unfold valuePlayers.
  rewrite (accumulate_reads pool pool' cats cats' Hc Hp).
  rewrite (moments_reads _ cats cats' Hc).
  generalize (moments rt (accumulate rt pool' cats') cats'). intros ms.
  rewrite !map_map. cbn [value setValue].
  induction Hp as [|p p' pool pool' Hpp Hp IH]; [reflexivity|].
  cbn [map]. f_equal; [|exact IH].
  f_equal. f_equal. now apply composite_reads.
Qed.

End ScorerReads.

(** ** The comparator of the sort *)

Lemma SFltb_round_swap (m : positive) (e : Z) :
  SFltb (binary_round prec emax true m e) (S754_zero false)
  = SFltb (S754_zero false) (binary_round prec emax false m e).
Proof.
  unfold binary_round.
  destruct (shl_align m e _) as [mz ez].
  unfold binary_round_aux.
  destruct (shr_fexp prec emax (Z.pos mz) ez loc_Exact) as [r1 e1].
  destruct (shr_fexp prec emax _ e1 loc_Exact) as [r2 e2].
  destruct (shr_m r2); try reflexivity.
  destruct (e2 <=? emax - prec)%Z; reflexivity.
Qed.

Lemma SFltb_round_swap' (m : positive) (e : Z) :
  SFltb (binary_round prec emax false m e) (S754_zero false)
  = SFltb (S754_zero false) (binary_round prec emax true m e).
Proof.
  unfold binary_round.
  destruct (shl_align m e _) as [mz ez].
  unfold binary_round_aux.
  destruct (shr_fexp prec emax (Z.pos mz) ez loc_Exact) as [r1 e1].
  destruct (shr_fexp prec emax _ e1 loc_Exact) as [r2 e2].
  destruct (shr_m r2); try reflexivity.
  destruct (e2 <=? emax - prec)%Z; reflexivity.
Qed.

Lemma SFltb_normalize_swap (z e : Z) :
  SFltb (binary_normalize prec emax (- z) e false) (S754_zero false)
  = SFltb (S754_zero false) (binary_normalize prec emax z e false).
Proof.
  destruct z; simpl; [reflexivity | apply SFltb_round_swap |].
  apply SFltb_round_swap'.
Qed.

Lemma SFltb_sub_swap (X Y : spec_float) :
  SFltb (SFsub prec emax X Y) (S754_zero false)
  = SFltb (S754_zero false) (SFsub prec emax Y X).
Proof.
  destruct X as [sx|sx| |sx mx ex], Y as [sy|sy| |sy my ey];
    try reflexivity;
    try (destruct sx, sy; reflexivity);
    try (destruct sx; reflexivity);
    try (destruct sy; reflexivity).
  cbn [SFsub].
  change (IntDef.Z.min ey ex) with (Z.min ey ex).
  change (IntDef.Z.min ex ey) with (Z.min ex ey).
  rewrite (Z.min_comm ey ex).
  set (a := cond_Zopp sx _). set (b := cond_Zopp sy _).
  replace (a - b)%Z with (- (b - a))%Z by lia.
  apply SFltb_normalize_swap.
Qed.

(** A difference is below [0] exactly when the difference taken the
    other way is above [0]. *)
Lemma ltb_sub_swap (x y : float) :
  PrimFloat.ltb (x - y) 0 = PrimFloat.ltb 0 (y - x).
Proof.
  rewrite !FloatAxioms.ltb_spec, !FloatAxioms.sub_spec.
  unfold SF64sub.
  replace (Prim2SF 0) with (S754_zero false) by reflexivity.
  apply SFltb_sub_swap.
Qed.

(** X23.  The comparator [(a, b) => (b.value || 0) - (a.value || 0)] is a
    consistent comparison function on all players, whatever their values
    (missing, [NaN] and infinite ones included): its result is above [0]
    exactly when [a] ranks below [b], and below [0] exactly when [b]
    ranks below [a], for one integer rank of the players.  The order
    [Array.prototype.sort] produces with it is therefore fixed by the
    language. *)
Theorem byValueDesc_consistent (a b : Player float) :
  PrimFloat.ltb 0 (byValueDesc a b) = (rank a <? rank b)%Z /\
  PrimFloat.ltb (byValueDesc a b) 0 = (rank b <? rank a)%Z.
Proof.
  split.
  - exact (sortsAfter_rank a b).
  - unfold byValueDesc. simpl. rewrite ltb_sub_swap.
    exact (sortsAfter_rank b a).
Qed.

(** ** The slot counts of the league settings *)

Section MoreDictFacts.
Context {V : Type}.

Lemma assoc_app_r (k : string) (l1 l2 : list (string * V)) :
  ~ In k (map fst l1) -> assoc k (l1 ++ l2) = assoc k l2.
Proof.
  induction l1 as [|[k' v'] l1 IH]; simpl; intros H; [reflexivity|].
  destruct (String.eqb k k') eqn:E.
  - apply String.eqb_eq in E. exfalso. apply H. now left.
  - apply IH. tauto.
Qed.

Lemma assocSet_app_r (k : string) (v : V) (l1 l2 : list (string * V)) :
  ~ In k (map fst l1) -> assocSet k v (l1 ++ l2) = l1 ++ assocSet k v l2.
Proof.
  induction l1 as [|[k' v'] l1 IH]; simpl; intros H; [reflexivity|].
  destruct (String.eqb k k') eqn:E.
  - apply String.eqb_eq in E. exfalso. apply H. now left.
  - f_equal. apply IH. tauto.
Qed.

Lemma assocSet_absent (k : string) (v : V) (l : list (string * V)) :
  assoc k l = None -> assocSet k v l = l ++ [(k, v)].
Proof.
  induction l as [|[k' v'] l IH]; simpl; intros H; [reflexivity|].
  destruct (String.eqb k k'); [discriminate|]. f_equal. now apply IH.
Qed.

Lemma assocSet_Forall (P : string * V -> Prop) (k : string) (v : V)
  (l : list (string * V)) :
  Forall P l -> (forall k', k' = k -> P (k', v)) -> Forall P (assocSet k v l).
Proof.
  intros Hl Hv. induction Hl as [|[k' v'] l Hx Hl IH]; simpl.
  - constructor; [now apply Hv | constructor].
  - destruct (String.eqb k k') eqn:E.
    + apply String.eqb_eq in E. constructor; [|assumption].
      apply Hv. congruence.
    + constructor; assumption.
Qed.

End MoreDictFacts.

Lemma alias_key (rt : Runtime) (label : JsVal) (key : string) :
  isUtilAlias label = true -> ToString rt label = Ok key ->
  key = "F" \/ key = "UTIL" \/ key = "BN".
Proof.
  destruct label as [[| | | |s]| |]; try discriminate. simpl.
  intros H E. inversion E; subst.
  apply orb_true_iff in H. destruct H as [H|H].
  - apply orb_true_iff in H. destruct H as [H|H];
      apply String.eqb_eq in H; auto.
  - apply String.eqb_eq in H. auto.
Qed.

Lemma slotsShape_six (out : Slots) :
  slotsShape out ->
  exists c1 c2 c3 c4 c5 c6 junk,
    out = ("C", Count c1) :: ("LW", Count c2) :: ("RW", Count c3)
          :: ("D", Count c4) :: ("Util", Count c5) :: ("G", Count c6) :: junk /\
    Forall (fun kv => In (fst kv) objectPrototypeKeys /\
                      fst kv <> "__proto__" /\
                      exists s, snd kv = Text s) junk /\
    NoDup (map fst junk).
Proof.
  intros (counts & junk & Hout & Hlen & Hj & Hnd).
  destruct counts as [|c1 [|c2 [|c3 [|c4 [|c5 [|c6 [|]]]]]]]; try discriminate.
  exists c1, c2, c3, c4, c5, c6, junk. auto.
Qed.

Lemma six_slotsShape (c1 c2 c3 c4 c5 c6 : float) (junk : Slots) :
  Forall (fun kv => In (fst kv) objectPrototypeKeys /\
                    fst kv <> "__proto__" /\
                    exists s, snd kv = Text s) junk ->
  NoDup (map fst junk) ->
  slotsShape (("C", Count c1) :: ("LW", Count c2) :: ("RW", Count c3)
              :: ("D", Count c4) :: ("Util", Count c5) :: ("G", Count c6)
              :: junk).
Proof.
  intros Hj Hnd. exists [c1; c2; c3; c4; c5; c6], junk. auto.
Qed.

Lemma proto_not_label (k : string) :
  In k objectPrototypeKeys -> ~ In k slotLabels.
Proof.
  intros H. simpl in H.
  repeat (destruct H as [<-|H]; [simpl; intuition discriminate|]).
  destruct H.
Qed.

Lemma proto_not_alias (k : string) :
  In k objectPrototypeKeys -> k <> "F" /\ k <> "UTIL" /\ k <> "BN".
Proof.
  intros H. simpl in H.
  repeat (destruct H as [<-|H]; [repeat split; discriminate|]).
  destruct H.
Qed.

Ltac each_label H :=
  repeat (destruct H as [H|H]; [symmetry in H; subst|]); try contradiction.

(** One turn of the loop keeps the shape of [out] and adds the count to
    the labels the entry feeds, and to no other. *)
Lemma addSlots_step (rt : Runtime) (bt : string -> string)
  (out out' : Slots) (label : JsVal) (count : float) :
  slotsShape out ->
  addSlots rt bt out label count = Ok out' ->
  slotsShape out' /\
  forall slot, In slot slotLabels ->
    countOf out' slot
    = bump (feeds rt slot (label, count)) count (countOf out slot).
Proof.
  intros Hshape Hadd.
  destruct (slotsShape_six out Hshape)
    as (c1 & c2 & c3 & c4 & c5 & c6 & junk & Hout & Hj & Hnd).
  unfold addSlots in Hadd. unfold feeds. cbn [fst snd].
  destruct (F64.falsy count) eqn:Fc.
  { inversion Hadd; subst out'. split; [assumption|]. intros; reflexivity. }
  destruct (ToString rt label) as [key|] eqn:Ek; [|discriminate].
  cbn [bind negb andb] in *.
  assert (Halias : isUtilAlias label = true ->
                   key = "F" \/ key = "UTIL" \/ key = "BN")
    by (intros H; exact (alias_key rt label key H Ek)).
  destruct (in_dec string_dec key slotLabels) as [Hin|Hnot].
  - (* the key is one of the six labels *)
    assert (Hna : isUtilAlias label = false).
    { destruct (isUtilAlias label); [|reflexivity].
      destruct (Halias eq_refl) as [-> | [-> | ->]]; simpl in Hin;
        intuition discriminate. }
    simpl in Hin.
    each_label Hin;
      simpl in Hadd; inversion Hadd; subst out';
      (split; [now apply six_slotsShape|]);
      intros slot Hs; rewrite Hna, andb_false_r, orb_false_r; simpl in Hs;
      each_label Hs; reflexivity.
  - (* the key is not one of the six *)
    assert (Hk : forall slot, In slot slotLabels ->
                 String.eqb key slot = false).
    { intros slot Hs. apply String.eqb_neq. intros ->. contradiction. }
    assert (Hassoc : assoc key out = assoc key junk).
    { subst out.
      change (assoc key (combine slotLabels
                (map Count [c1; c2; c3; c4; c5; c6]) ++ junk) = assoc key junk).
      apply assoc_app_r. simpl. simpl in Hnot. tauto. }
    assert (Hset : forall v, assocSet key v out
                   = ("C", Count c1) :: ("LW", Count c2) :: ("RW", Count c3)
                     :: ("D", Count c4) :: ("Util", Count c5)
                     :: ("G", Count c6) :: assocSet key v junk).
    { intros v. subst out.
      change (assocSet key v (combine slotLabels
                (map Count [c1; c2; c3; c4; c5; c6]) ++ junk)
              = combine slotLabels (map Count [c1; c2; c3; c4; c5; c6])
                ++ assocSet key v junk).
      apply assocSet_app_r. simpl. simpl in Hnot. tauto. }
    rewrite Hassoc in Hadd.
    destruct (assoc key junk) as [v|] eqn:Ej.
    + (* an inherited name that already holds a text *)
      inversion Hadd; subst out'. rewrite Hset.
      pose proof (assoc_In _ _ _ Ej) as Hinj.
      rewrite Forall_forall in Hj. destruct (Hj _ Hinj) as (Hp & Hnp & s & Hs).
      simpl in Hp, Hnp, Hs. subst v.
      split.
      * apply six_slotsShape.
        -- apply assocSet_Forall; [now apply Forall_forall|].
           intros k' ->. simpl. eauto.
        -- now rewrite (assocSet_keys_present _ _ _ _ Ej).
      * intros slot Hslot. rewrite (Hk slot Hslot).
        assert (Hna : isUtilAlias label = false).
        { destruct (isUtilAlias label); [|reflexivity].
          destruct (proto_not_alias key Hp) as (A1 & A2 & A3).
          destruct (Halias eq_refl) as [-> | [-> | ->]]; congruence. }
        rewrite Hna, andb_false_r. cbn [orb bump].
        subst out. simpl in Hslot.
        each_label Hslot; reflexivity.
    + destruct (existsb (String.eqb key) objectPrototypeKeys) eqn:Ep.
      * (* an inherited name, met for the first time *)
        apply existsb_exists in Ep. destruct Ep as (k' & Hp & Ek').
        apply String.eqb_eq in Ek'. subst k'.
        assert (Hna : isUtilAlias label = false).
        { destruct (isUtilAlias label); [|reflexivity].
          destruct (proto_not_alias key Hp) as (A1 & A2 & A3).
          destruct (Halias eq_refl) as [-> | [-> | ->]]; congruence. }
        assert (Hcount : forall o, o = out \/
                  (exists v, o = assocSet key v out) ->
                  forall slot, In slot slotLabels ->
                  countOf o slot
                  = bump (String.eqb key slot
                          || String.eqb slot "Util" && isUtilAlias label)
                         count (countOf out slot)).
        { intros o Ho slot Hslot. rewrite (Hk slot Hslot).
          rewrite Hna, andb_false_r. cbn [orb bump].
          destruct Ho as [->|(v & ->)]; [reflexivity|].
          rewrite Hset. subst out. simpl in Hslot.
          each_label Hslot; reflexivity. }
        destruct (String.eqb key "__proto__") eqn:Epr.
        -- inversion Hadd; subst out'. split; [assumption|].
           apply Hcount. now left.
        -- inversion Hadd; subst out'. split; [|apply Hcount; eauto].
           rewrite Hset. apply six_slotsShape.
           ++ rewrite (assocSet_absent _ _ _ Ej).
              apply Forall_app. split; [assumption|].
              constructor; [|constructor]. simpl.
              apply String.eqb_neq in Epr. eauto.
           ++ rewrite (assocSet_absent _ _ _ Ej), map_app. simpl.
              apply (Permutation_NoDup
                       (Permutation_cons_append (map fst junk) key)).
              constructor; [now apply assoc_None_notin | assumption].
      * destruct (isUtilAlias label) eqn:Ea.
        -- (* F, UTIL or BN *)
           inversion Hadd; subst out'. subst out. simpl.
           split; [now apply six_slotsShape|].
           intros slot Hslot. rewrite (Hk slot Hslot). simpl in Hslot.
           each_label Hslot; reflexivity.
        -- inversion Hadd; subst out'. split; [assumption|].
           intros slot Hslot. rewrite (Hk slot Hslot).
           now rewrite andb_false_r.
Qed.

Lemma bump_total (rt : Runtime) (slot : string)
  (entries : list (JsVal * float)) (a : float) :
  fold_left (fun o e => bump (feeds rt slot e) (snd e) o) entries (Some a)
  = Some (fold_left PrimFloat.add
            (map snd (filter (feeds rt slot) entries)) a).
Proof.
  revert a. induction entries as [|e entries IH]; intros a; [reflexivity|].
  cbn [fold_left filter]. destruct (feeds rt slot e); cbn [bump option_map].
  - cbn [map fold_left]. apply IH.
  - apply IH.
Qed.

(** The loop: the entries it read, the shape of its result, and what it
    added to each label. *)
Lemma countSlots_sums (rt : Runtime) (bt : string -> string)
  (items : list JsVal) (out out' : Slots) :
  slotsShape out ->
  countSlots rt bt items out = Ok out' ->
  exists entries,
    Forall2 (fun rp e => rosterEntry rt rp = Ok e) items entries /\
    slotsShape out' /\
    forall slot, In slot slotLabels ->
      countOf out' slot
      = fold_left (fun o e => bump (feeds rt slot e) (snd e) o) entries
          (countOf out slot).
Proof.
  revert out. induction items as [|rp items IH]; intros out Hshape H.
  - simpl in H. inversion H; subst. exists []. repeat split; auto.
  - cbn [countSlots] in H.
    destruct (rosterEntry rt rp) as [[label count]|] eqn:Er; [|discriminate].
    cbn [bind fst snd] in H.
    destruct (addSlots rt bt out label count) as [out1|] eqn:Ea; [|discriminate].
    cbn [bind] in H.
    destruct (addSlots_step rt bt out out1 label count Hshape Ea)
      as [Hshape1 Hstep].
    destruct (IH out1 Hshape1 H) as (entries & Hall & Hs & Hc).
    exists ((label, count) :: entries). split; [|split].
    + now constructor.
    + assumption.
    + intros slot Hslot. cbn [fold_left]. rewrite (Hc slot Hslot).
      now rewrite (Hstep slot Hslot).
Qed.

Lemma noStarters_shape : slotsShape noStarters.
Proof.
  exists [0%float; 0%float; 0%float; 0%float; 0%float; 0%float], [].
  repeat split; constructor.
Qed.

(** X15.  Each of the six counts returned is the sum, in the order of the
    roster list, of the counts of the entries that carry its label; the
    entries labelled [F], [UTIL] or [BN] are added to [Util]; an entry
    whose count is [0], missing or not a number adds nothing. *)
Theorem computeStartersByPos_sums (rt : Runtime) (bt : string -> string)
  (settings : JsVal) (out : Slots) :
  computeStartersByPos rt bt settings = Ok out ->
  exists items entries,
    iterate (rosterPositions settings) = Ok items /\
    Forall2 (fun rp e => rosterEntry rt rp = Ok e) items entries /\
    forall slot, In slot slotLabels ->
      countOf out slot = Some (slotTotal rt slot entries).
Proof.
  unfold computeStartersByPos. intros H.
  destruct (iterate (rosterPositions settings)) as [items|]; [|discriminate].
  cbn [bind] in H.
  destruct (countSlots_sums rt bt items noStarters out noStarters_shape H)
    as (entries & Hall & _ & Hc).
  exists items, entries. split; [reflexivity|]. split; [assumption|].
  intros slot Hslot. rewrite (Hc slot Hslot).
  assert (E : countOf noStarters slot = Some 0%float).
  { simpl in Hslot. each_label Hslot; reflexivity. }
  rewrite E. apply bump_total.
Qed.

(** X16.  The object returned always has the six labels [C], [LW], [RW],
    [D], [Util], [G], in this order, each with a Number.  A label of the
    settings that is none of them (and none of [F], [UTIL], [BN]) adds
    no key, with one exception: a label that names a member of
    [Object.prototype] other than [__proto__] becomes a key that holds a
    text. *)
Theorem computeStartersByPos_shape (rt : Runtime) (bt : string -> string)
  (settings : JsVal) (out : Slots) :
  computeStartersByPos rt bt settings = Ok out -> slotsShape out.
Proof.
  unfold computeStartersByPos. intros H.
  destruct (iterate (rosterPositions settings)) as [items|]; [|discriminate].
  cbn [bind] in H.
  destruct (countSlots_sums rt bt items noStarters out noStarters_shape H)
    as (_ & _ & Hs & _).
  exact Hs.
Qed.

(** X17.  Settings without roster positions (no settings at all, no
    [roster_positions], or a falsy one) give the six labels with count
    [0], and no error. *)
Theorem computeStartersByPos_missing (rt : Runtime) (bt : string -> string)
  (settings : JsVal) :
  truthy (optProp settings "roster_positions") = false ->
  computeStartersByPos rt bt settings = Ok noStarters.
Proof.
  intros H. unfold computeStartersByPos, rosterPositions.
  assert (E : optProp (optProp settings "roster_positions") "roster_position"
              = JUndef).
  { destruct (optProp settings "roster_positions") as [p| |];
      try discriminate.
    destruct p; reflexivity. }
  rewrite E. unfold orVal. cbn [truthy JUndef truthyPrim]. rewrite H.
  reflexivity.
Qed.

Lemma countSlots_null (rt : Runtime) (bt : string -> string)
  (items : list JsVal) (out : Slots) :
  In JNull items -> countSlots rt bt items out = TypeError.
Proof.
  revert out. induction items as [|rp items IH]; intros out Hin; [destruct Hin|].
  cbn [countSlots]. destruct Hin as [->|Hin]; [reflexivity|].
  destruct (rosterEntry rt rp) as [e|]; [|reflexivity]. cbn [bind].
  destruct (addSlots rt bt out (fst e) (snd e)) as [out1|]; [|reflexivity].
  cbn [bind]. now apply IH.
Qed.

(** X18.  A roster list that is not iterable, or that holds a [null]
    entry, makes [computeStartersByPos] throw a [TypeError]: the guards
    [?.] and [||] cover missing values only. *)
Theorem computeStartersByPos_throws (rt : Runtime) (bt : string -> string)
  (settings : JsVal) :
  unreadableRoster settings ->
  computeStartersByPos rt bt settings = TypeError.
Proof.
  unfold computeStartersByPos.
  intros [(props & ->)|[(x & ->)|[(b & ->)|(items & -> & Hin)]]];
    try reflexivity.
  cbn [iterate bind]. now apply countSlots_null.
Qed.

Lemma addSlots_scalar (rt : Runtime) (bt : string -> string) (out : Slots)
  (p : Prim) (count : float) :
  exists out', addSlots rt bt out (JP p) count = Ok out'.
Proof.
  unfold addSlots. destruct (F64.falsy count); [eauto|].
  cbn [ToString bind].
  destruct (assoc _ out); [eauto|].
  destruct (existsb _ _); [destruct (String.eqb _ _); eauto|].
  destruct (isUtilAlias _); eauto.
Qed.

Lemma rosterEntry_plain (rt : Runtime) (rp : JsVal) :
  plainRosterEntry rp ->
  exists p count, rosterEntry rt rp = Ok (JP p, count).
Proof.
  unfold plainRosterEntry, rosterEntry. cbv zeta.
  set (d := orVal (optProp rp "roster_position") rp).
  intros ((props & Hd) & (a & Ha) & (b & Hb) & (c & Hc)).
  assert (G : forall k, getProp d k = Ok (optProp d k)).
  { intros k. rewrite Hd. reflexivity. }
  rewrite !G, Ha, Hb, Hc. cbn [bind].
  assert (L : exists p, orVal (orVal (JP a) (JP b)) (JStr "") = JP p).
  { unfold orVal, JStr. cbn [truthy].
    destruct (truthyPrim a) eqn:Ta; cbn [truthy]; rewrite ?Ta; [eauto|].
    destruct (truthyPrim b) eqn:Tb; cbn [truthy]; rewrite ?Tb; eauto. }
  destruct L as (p & ->).
  assert (N : exists q, orVal (orVal (JP c) (JP c)) (JNum 0) = JP q).
  { unfold orVal, JNum. cbn [truthy].
    destruct (truthyPrim c) eqn:Tc; cbn [truthy]; rewrite ?Tc; eauto. }
  destruct N as (q & ->). cbn [ToNumber bind]. eauto.
Qed.

(** X19.  A roster list that is an array of entries of the expected form
    is always read without error. *)
Theorem computeStartersByPos_plain (rt : Runtime) (bt : string -> string)
  (settings : JsVal) (items : list JsVal) :
  rosterPositions settings = JArr items ->
  Forall plainRosterEntry items ->
  exists out, computeStartersByPos rt bt settings = Ok out.
Proof.
  intros Hr Hall. unfold computeStartersByPos. rewrite Hr. cbn [iterate bind].
  clear Hr. generalize noStarters.
  induction Hall as [|rp items Hrp Hall IH]; intros out; [simpl; eauto|].
  cbn [countSlots].
  destruct (rosterEntry_plain rt rp Hrp) as (p & count & ->).
  cbn [bind fst snd].
  destruct (addSlots_scalar rt bt out p count) as (out1 & ->).
  cbn [bind]. apply IH.
Qed.

(** ** Rosters as the provider sends them *)

Lemma orElse_isNumber (x : float) : isNumber (orElse x 0%float).
Proof.
  unfold isNumber, orElse. simpl. unfold F64.falsy.
  destruct (PrimFloat.is_zero x); simpl; [reflexivity|].
  destruct (PrimFloat.is_nan x) eqn:E; [reflexivity | exact E].
Qed.

Lemma mapResult_Forall2 {A B} (f : A -> Result B) (l : list A) (l' : list B) :
  mapResult f l = Ok l' <-> Forall2 (fun x y => f x = Ok y) l l'.
Proof.
  revert l'. induction l as [|x l IH]; intros l'; simpl.
  - split; intros H; inversion H; subst; constructor.
  - split.
    + destruct (f x) as [y|] eqn:E; [|discriminate]. cbn [bind].
      destruct (mapResult f l) as [ys|] eqn:E'; [|discriminate]. cbn [bind].
      intros H; inversion H; subst. constructor; [assumption|].
      now apply IH.
    + intros H. inversion H as [|? y ? ys Hx Hl]; subst.
      rewrite Hx. cbn [bind]. apply IH in Hl. rewrite Hl. reflexivity.
Qed.

Lemma putStat_numbers (rt : Runtime) (stats stats' : list (string * float))
  (s : JsVal) :
  putStat rt stats s = Ok stats' ->
  Forall (fun kv => fst kv <> "__proto__" /\ isNumber (snd kv)) stats ->
  Forall (fun kv => fst kv <> "__proto__" /\ isNumber (snd kv)) stats'.
Proof.
  unfold putStat. intros H Hall.
  destruct (getProp s "stat") as [stat|]; [|discriminate]. cbn [bind] in H.
  destruct (getProp stat "stat_id") as [rawId|]; [|discriminate].
  cbn [bind] in H.
  destruct (ToString rt rawId) as [key|]; [|discriminate]. cbn [bind] in H.
  destruct (getProp s "value") as [rawValue|]; [|discriminate].
  cbn [bind] in H.
  destruct (ToNumber rt rawValue) as [n|]; [|discriminate]. cbn [bind] in H.
  destruct (String.eqb key "__proto__") eqn:E; inversion H; subst; clear H.
  - assumption.
  - apply String.eqb_neq in E.
    induction Hall as [|[k v] l Hx Hl IH]; simpl.
    + constructor; [|constructor]. split; [assumption | apply orElse_isNumber].
    + destruct (String.eqb key k) eqn:Ek.
      * apply String.eqb_eq in Ek. subst k.
        constructor; [|assumption].
        split; [assumption | apply orElse_isNumber].
      * constructor; assumption.
Qed.

Lemma putStats_numbers (rt : Runtime) (items : list JsVal)
  (stats stats' : list (string * float)) :
  putStats rt items stats = Ok stats' ->
  Forall (fun kv => fst kv <> "__proto__" /\ isNumber (snd kv)) stats ->
  Forall (fun kv => fst kv <> "__proto__" /\ isNumber (snd kv)) stats'.
Proof.
  revert stats. induction items as [|s items IH]; intros stats H Hall.
  - simpl in H. inversion H; subst. assumption.
  - cbn [putStats] in H.
    destruct (putStat rt stats s) as [stats1|] eqn:E; [|discriminate].
    cbn [bind] in H. apply (IH stats1 H).
    exact (putStat_numbers rt stats stats1 s E Hall).
Qed.

Lemma normalizeEntry_numbers (rt : Runtime) (p : JsVal) (e : Yahoo.Entry) :
  normalizeEntry rt p = Ok e ->
  isNumber (Yahoo.gp e) /\
  Forall (fun kv => fst kv <> "__proto__" /\ isNumber (snd kv))
    (Yahoo.stats e) /\
  Yahoo.isGoalie e = existsb isG (Yahoo.pos e).
Proof.
  unfold normalizeEntry. intros H.
  destruct (getProp p "player") as [player|]; [|discriminate]. cbn [bind] in H.
  destruct (getIndex player 0) as [info|]; [|discriminate]. cbn [bind] in H.
  destruct (getIndex player 1) as [second|]; [|discriminate]. cbn [bind] in H.
  destruct (positionsOf _) as [pos|]; [|discriminate]. cbn [bind] in H.
  destruct (ToNumber rt _) as [n|]; [|discriminate]. cbn [bind] in H.
  destruct (iterate _) as [items|]; [|discriminate]. cbn [bind] in H.
  destruct (putStats rt items []) as [stats|] eqn:Es; [|discriminate].
  cbn [bind] in H.
  destruct (if truthy (optProp p "player_key") then _ else _) as [key|];
    [|discriminate].
  cbn [bind] in H.
  destruct (getProp info "name") as [rawName|]; [|discriminate].
  cbn [bind] in H. inversion H; subst; clear H. cbn.
  split; [apply orElse_isNumber|]. split; [|reflexivity].
  apply (putStats_numbers rt items [] stats Es). constructor.
Qed.

(** X20.  Whatever the provider sends, a roster that [normalize] accepts
    comes out with one player per entry, in order, whose games played and
    statistics are Numbers and never [NaN] (a value that is missing or not
    numeric is [0]), whose statistics hold no key [__proto__], and whose
    goalie flag is set exactly when one of its positions is ["G"]. *)
Theorem normalize_numbers (rt : Runtime) (yPlayers : JsVal)
  (players : list Yahoo.Entry) :
  normalize rt yPlayers = Ok players ->
  (forall ps, yPlayers = JArr ps -> List.length players = List.length ps) /\
  Forall (fun e =>
            isNumber (Yahoo.gp e) /\
            Forall (fun kv => fst kv <> "__proto__" /\ isNumber (snd kv))
              (Yahoo.stats e) /\
            Yahoo.isGoalie e = existsb isG (Yahoo.pos e)) players.
Proof.
  unfold normalize. intros H.
  assert (G : forall ps l, mapResult (normalizeEntry rt) ps = Ok l ->
    List.length l = List.length ps /\
    Forall (fun e =>
            isNumber (Yahoo.gp e) /\
            Forall (fun kv => fst kv <> "__proto__" /\ isNumber (snd kv))
              (Yahoo.stats e) /\
            Yahoo.isGoalie e = existsb isG (Yahoo.pos e)) l).
  { intros ps l Hm. apply mapResult_Forall2 in Hm.
    induction Hm as [|p e ps es Hp Hm IH]; [split; constructor|].
    destruct IH as [IH1 IH2]. split; [simpl; congruence|].
    constructor; [|assumption].
    now apply (normalizeEntry_numbers rt p). }
  destruct yPlayers as [pr|ps|props].
  - destruct (truthy (JP pr)); [discriminate|]. inversion H; subst.
    split; [intros ps Hps; discriminate | constructor].
  - destruct (G ps players H) as [G1 G2]. split; [|assumption].
    intros ps' Hps. inversion Hps; subst. assumption.
  - simpl in H. discriminate.
Qed.

Lemma mapResult_throws {A B} (f : A -> Result B) (l : list A) (x : A) :
  In x l -> f x = TypeError -> mapResult f l = TypeError.
Proof.
  intros Hin Hx. induction l as [|y l IH]; [destruct Hin|].
  cbn [mapResult]. destruct Hin as [->|Hin].
  - now rewrite Hx.
  - destruct (f y); [|reflexivity]. cbn [bind]. now rewrite IH.
Qed.

Lemma normalizeEntry_lacksPlayer (rt : Runtime) (p : JsVal) :
  lacksPlayer p -> normalizeEntry rt p = TypeError.
Proof.
  unfold lacksPlayer, optProp, normalizeEntry.
  destruct (getProp p "player") as [player|]; [|reflexivity].
  intros [->| ->]; reflexivity.
Qed.

(** X21.  A roster that is there and is not an array, or one of whose
    entries has no [player] block, makes [normalize] throw a [TypeError];
    a roster that is missing is the empty list. *)
Theorem normalize_rejects (rt : Runtime) (yPlayers : JsVal) :
  unreadablePlayers yPlayers ->
  normalize rt yPlayers = TypeError /\
  normalize rt JUndef = Ok [] /\ normalize rt JNull = Ok [].
Proof.
  intros H. split; [|split; reflexivity].
  destruct H as [[Ht Hn]|(ps & p & -> & Hin & Hp)].
  - destruct yPlayers as [pr|ps|props]; cbn [normalize].
    + now rewrite Ht.
    + exfalso. now apply (Hn ps).
    + reflexivity.
  - cbn [normalize].
    apply (mapResult_throws _ ps p Hin). now apply normalizeEntry_lacksPlayer.
Qed.

(** ** The league of the session *)

(** X24.  A league key that was resolved is kept: when the function returns
    a key that is truthy, the session holds it afterwards, and every later
    call returns it again without looking at the environment or at the
    provider. *)
Theorem resolveLeagueKey_cached (rt : Runtime) (tidy : string -> string)
  (env : LeagueEnv) (provider : Provider) (session session' key : JsVal) :
  resolveLeagueKey rt tidy env provider session = Ok (session', key) ->
  truthy key = true ->
  session' = key /\
  forall env' provider',
    resolveLeagueKey rt tidy env' provider' session' = Ok (session', key).
Proof.
  unfold resolveLeagueKey. intros H Hk.
  assert (E : session' = key).
  { destruct (truthy session); [congruence|].
    destruct (envValue (LEAGUE_KEY env)); [congruence|].
    destruct (getProp _ "games") as [games|]; [|discriminate]. cbn [bind] in H.
    destruct (orEmpty games) as [all|]; [|discriminate]. cbn [bind] in H.
    destruct (filterResult isNhl all) as [nhl|]; [|discriminate].
    cbn [bind] in H.
    destruct (searchGames rt tidy env provider nhl) as [[k|]|];
      cbn [bind] in H; try discriminate; [congruence|].
    inversion H; subst. discriminate. }
  split; [exact E|]. subst session'. intros env' provider'.
  now rewrite Hk.
Qed.

Lemma leagueMatches_noCriterion (rt : Runtime) (tidy : string -> string)
  (env : LeagueEnv) (l : JsVal) :
  envValue (LEAGUE_ID env) = None -> envValue (LEAGUE_NAME env) = None ->
  leagueMatches rt tidy env l = Ok false.
Proof. unfold leagueMatches. now intros -> ->. Qed.

Lemma findResult_none (f : JsVal -> Result bool) (l : list JsVal) :
  (forall x, f x = Ok false) -> findResult f l = Ok None.
Proof.
  intros H. induction l as [|x l IH]; [reflexivity|].
  cbn [findResult]. now rewrite H.
Qed.

Lemma searchGames_noCriterion (rt : Runtime) (tidy : string -> string)
  (env : LeagueEnv) (provider : Provider) (games : list JsVal)
  (r : option JsVal) :
  envValue (LEAGUE_ID env) = None -> envValue (LEAGUE_NAME env) = None ->
  searchGames rt tidy env provider games = Ok r -> r = None.
Proof.
  intros H1 H2. induction games as [|g games IH]; cbn [searchGames].
  - congruence.
  - destruct (getProp g "game_key") as [k|]; [|discriminate]. cbn [bind].
    destruct (getProp _ "leagues") as [ls|]; [|discriminate]. cbn [bind].
    destruct (orEmpty ls) as [cs|]; [|discriminate]. cbn [bind].
    rewrite findResult_none
      by (intros x; now apply leagueMatches_noCriterion).
    cbn [bind]. exact IH.
Qed.

(** X25.  With no league key in the session and none of [LEAGUE_KEY],
    [LEAGUE_ID], [LEAGUE_NAME] set (or each set to the empty string), the
    function never picks a league: if it returns, it returns [null] and
    leaves the session as it was. *)
Theorem resolveLeagueKey_needs_criterion (rt : Runtime)
  (tidy : string -> string) (env : LeagueEnv) (provider : Provider)
  (session session' key : JsVal) :
  truthy session = false -> noCriterion env ->
  resolveLeagueKey rt tidy env provider session = Ok (session', key) ->
  key = JNull /\ session' = session.
Proof.
  unfold resolveLeagueKey. intros Hs (H0 & H1 & H2) H.
  rewrite Hs, H0 in H.
  destruct (getProp _ "games") as [games|]; [|discriminate]. cbn [bind] in H.
  destruct (orEmpty games) as [all|]; [|discriminate]. cbn [bind] in H.
  destruct (filterResult isNhl all) as [nhl|]; [|discriminate].
  cbn [bind] in H.
  destruct (searchGames rt tidy env provider nhl) as [r|] eqn:E;
    [|discriminate].
  cbn [bind] in H.
  rewrite (searchGames_noCriterion rt tidy env provider nhl r H1 H2 E) in H.
  inversion H; subst. auto.
Qed.

Lemma filterResult_In (f : JsVal -> Result bool) (l kept : list JsVal)
  (x : JsVal) :
  filterResult f l = Ok kept -> In x kept -> In x l /\ f x = Ok true.
Proof.
  revert kept. induction l as [|y l IH]; intros kept H Hin.
  - inversion H; subst. destruct Hin.
  - cbn [filterResult] in H.
    destruct (f y) as [keep|] eqn:Ey; [|discriminate]. cbn [bind] in H.
    destruct (filterResult f l) as [rest|]; [|discriminate]. cbn [bind] in H.
    inversion H; subst; clear H.
    destruct keep.
    + destruct Hin as [<-|Hin]; [split; [now left | assumption]|].
      destruct (IH rest eq_refl Hin). split; [now right | assumption].
    + destruct (IH rest eq_refl Hin). split; [now right | assumption].
Qed.

Lemma findResult_Some (f : JsVal -> Result bool) (l : list JsVal)
  (x : JsVal) :
  findResult f l = Ok (Some x) -> In x l /\ f x = Ok true.
Proof.
  induction l as [|y l IH]; cbn [findResult]; [discriminate|].
  destruct (f y) as [hit|] eqn:Ey; [|discriminate]. cbn [bind].
  destruct hit.
  - intros H; inversion H; subst. split; [now left | assumption].
  - intros H. destruct (IH H). split; [now right | assumption].
Qed.

Lemma searchGames_sound (rt : Runtime) (tidy : string -> string)
  (env : LeagueEnv) (provider : Provider) (games : list JsVal)
  (key : JsVal) :
  searchGames rt tidy env provider games = Ok (Some key) ->
  exists g l,
    In g games /\
    (exists leagues,
       orEmpty (optProp (gameLeagues provider (optProp g "game_key"))
                  "leagues") = Ok leagues /\ In l leagues) /\
    leagueMatches rt tidy env l = Ok true /\
    optProp l "league_key" = key.
Proof.
  induction games as [|g games IH]; cbn [searchGames]; [discriminate|].
  destruct (getProp g "game_key") as [k|] eqn:Ek; [|discriminate].
  cbn [bind].
  destruct (getProp (gameLeagues provider k) "leagues") as [ls|] eqn:El;
    [|discriminate].
  cbn [bind].
  destruct (orEmpty ls) as [cs|] eqn:Ec; [|discriminate]. cbn [bind].
  destruct (findResult _ cs) as [found|] eqn:Ef; [|discriminate]. cbn [bind].
  assert (Hrest : searchGames rt tidy env provider games = Ok (Some key) ->
    exists g0 l,
      In g0 (g :: games) /\
      (exists leagues,
         orEmpty (optProp (gameLeagues provider (optProp g0 "game_key"))
                    "leagues") = Ok leagues /\ In l leagues) /\
      leagueMatches rt tidy env l = Ok true /\
      optProp l "league_key" = key).
  { intros H. destruct (IH H) as (g0 & l & Hg & Hrest).
    exists g0, l. split; [now right | exact Hrest]. }
  destruct found as [m|]; [|exact Hrest].
  destruct (truthy m); [|exact Hrest].
  destruct (getProp m "league_key") as [k'|] eqn:Em; [|discriminate].
  cbn [bind]. intros H. inversion H; subst k'. clear H.
  destruct (findResult_Some _ _ _ Ef) as [Hin Hm].
  exists g, m. split; [now left|]. split.
  - exists cs. rewrite (getProp_optProp _ _ _ Ek), (getProp_optProp _ _ _ El).
    auto.
  - split; [assumption | now apply getProp_optProp].
Qed.

(** X26.  When the function has to search (no key in the session, no
    [LEAGUE_KEY]) and returns, it either returns [null] and leaves the
    session as it was, or it returns, and stores in the session, the
    [league_key] of a league that the provider lists under one of the
    user's NHL games and that matches [LEAGUE_ID] or [LEAGUE_NAME]. *)
Theorem resolveLeagueKey_sound (rt : Runtime) (tidy : string -> string)
  (env : LeagueEnv) (provider : Provider) (session session' key : JsVal) :
  truthy session = false -> envValue (LEAGUE_KEY env) = None ->
  resolveLeagueKey rt tidy env provider session = Ok (session', key) ->
  (key = JNull /\ session' = session) \/
  (session' = key /\
   exists g l, matchedLeague rt tidy env provider g l key).
Proof.
  unfold resolveLeagueKey. intros Hs H0 H. rewrite Hs, H0 in H.
  destruct (getProp _ "games") as [games|] eqn:Eg; [|discriminate].
  cbn [bind] in H.
  destruct (orEmpty games) as [all|] eqn:Ea; [|discriminate]. cbn [bind] in H.
  destruct (filterResult isNhl all) as [nhl|] eqn:En; [|discriminate].
  cbn [bind] in H.
  destruct (searchGames rt tidy env provider nhl) as [[k|]|] eqn:E;
    cbn [bind] in H; try discriminate; inversion H; subst; clear H.
  - right. split; [reflexivity|].
    destruct (searchGames_sound rt tidy env provider nhl key E)
      as (g & l & Hg & Hl & Hm & Hk).
    destruct (filterResult_In _ _ _ g En Hg) as [Hall Hnhl].
    exists g, l. unfold matchedLeague.
    rewrite (getProp_optProp _ _ _ Eg). repeat split; eauto.
  - now left.
Qed.

(* ================================================================== *)
(** * The theorems at concrete inputs *)

Lemma NoDup_slots : NoDup (map fst Witness.slots).
Proof.
  repeat constructor; simpl; intuition discriminate.
Defined.

Lemma pickStarters_partition_witness :
  let r := pickStarters Witness.slots Witness.roster in
  NoDup (map fst Witness.slots) /\
  Permutation (starters r ++ bench r) Witness.roster /\
  map player_key (starters r) = [Some "c1"; Some "w1"] /\
  map player_key (bench r) = [Some "g1"] /\
  assoc "C" Witness.slots = Some (F64.ofZ 1) /\
  (Z.of_nat (placedUnder "C"
               (fillTrace (sortByValue Witness.roster) Witness.slots)) <= 1)%Z /\
  placedUnder "LW" (fillTrace (sortByValue Witness.roster) Witness.slots)
  = 0%nat.
Proof.
  cbv zeta. split; [exact NoDup_slots|].
  destruct (pickStarters_partition Witness.slots Witness.roster NoDup_slots)
    as (Hperm & _ & _ & Hbound & Hclosed & _).
  split; [exact Hperm|].
  split; [reflexivity|]. split; [reflexivity|]. split; [reflexivity|].
  split.
  - apply (Hbound "C" 1%Z); [reflexivity | split; [discriminate | reflexivity]].
  - apply (Hclosed "LW" 0%float); reflexivity.
Defined.

(** The bound of the specification does not hold for a count that is not
    a whole number: league settings with one and a half centre slots give
    the count 1.5, the roster split then starts two players under [C], and
    the count that is left is -0.5. *)
Lemma pickStarters_fractional_count_counterexample :
  computeStartersByPos Host.runtime sampleBuiltinText Samples.halfSettings
  = Ok Samples.halfSlots /\
  let need := needOf Host.runtime Samples.halfSlots in
  let r := pickStarters need Witness.twoCentres in
  let trace := fillTrace (sortByValue Witness.twoCentres) need in
  NoDup (map fst need) /\
  assoc "C" need = Some 1.5%float /\
  map player_key (starters r) = [Some "c1"; Some "c2"] /\
  map fst trace = starters r /\
  map snd trace = ["C"; "C"] /\
  placedUnder "C" trace = 2%nat /\
  PrimFloat.ltb 1.5 (F64.ofZ 2) = true /\
  assoc "C" (needLeft need Witness.twoCentres) = Some (-0.5)%float.
Proof.
  split; [vm_compute; reflexivity|]. cbv zeta.
  split; [repeat constructor; simpl; intuition discriminate|].
  repeat split; vm_compute; reflexivity.
Qed.




Lemma buildCategoryList_rule_witness :
  buildCategoryListFromSettings Host.runtime (JObj []) = Ok [] /\
  Forall (fun c => PrimFloat.is_finite (id c) = true)
    [ {| id := 1%float; name := JStr "Goals"; position_type := JNull |};
      {| id := 2%float; name := JStr "Assists";
         position_type := JStr "P" |} ].
Proof.
  destruct (buildCategoryList_rule Host.runtime) as (_ & Hout & Hmiss & _).
  split; [apply (Hmiss (JObj [])); reflexivity|].
  destruct (Hout Examples.sampleSettings _ buildCategoryList_sample)
    as (items & steps & _ & _ & _ & Hall).
  eapply Forall_impl; [|exact Hall]. intros c [Hc _]. exact Hc.
Defined.

Lemma impact_strength_minus_remaining_baseline_witness :
  let e := Examples.swap in
  map player_key (starters (Asplit e)) = [Some "a1"; Some "a2"] /\
  map player_key (outgoingA e) = [Some "a1"] /\
  map player_key (outgoingB e) = [Some "b2"] /\
  map player_key (arg_starters (argsA e)) = [Some "a2"] /\
  map player_key (chosenLineup (argsA e)) = [Some "b2"; Some "f1"] /\
  map worth (chosenLineup (argsA e)) = [0.7071%float; 0%float] /\
  map worth (arg_starters (argsA e)) = [(-0.7071)%float] /\
  tiA e = 1.4142%float /\
  tiA e
  = (totalWorth (chosenLineup (argsA e))
     - totalWorth (arg_starters (argsA e)))%float /\
  chosenLineup (argsA e)
  = fst (fst (fillSlots
                (sortByValue ((arg_starters (argsA e) ++ arg_bench (argsA e))
                              ++ outgoingB e))
                Examples.centreAndUtil))
    ++ fst (fst (fillSlots (sortByValue (FAall e))
                   (snd (fillSlots
                           (sortByValue
                              ((arg_starters (argsA e) ++ arg_bench (argsA e))
                               ++ outgoingB e))
                           Examples.centreAndUtil)))).
Proof.
  cbv zeta.
  destruct (impact_strength_minus_remaining_baseline Host.runtime
              (-0.35) 0.25 1.0 Examples.centreAndUtil [Examples.goals]
              Examples.tradeA Examples.tradeB Examples.tradeFA ["a1"] ["b2"])
    as (_ & _ & (_ & Hlineup & Himpact & _) & _).
  do 8 (split; [vm_compute; reflexivity|]).
  split.
  - etransitivity; [exact Himpact|]. now rewrite <- Hlineup.
  - exact Hlineup.
Defined.

(* ================================================================== *)
(** * The further theorems at concrete inputs *)

Lemma verdict_nan_review_witness :
  someNaN PrimFloat.nan 0.3 None = true /\
  verdict PrimFloat.nan 0.3 None = {| status := REVIEW; color := "yellow" |}.
Proof.
  assert (H : someNaN PrimFloat.nan 0.3 None = true) by reflexivity.
  split; [exact H|]. exact (verdict_nan_review _ _ _ H).
Defined.

Lemma verdict_monotone_witness :
  fle (lossTolOf Samples.looseThresholds) (lossTolOf None) /\
  fle (gainMinOf Samples.looseThresholds) (gainMinOf None) /\
  fle (imbalanceMaxOf None) (imbalanceMaxOf Samples.looseThresholds) /\
  status (verdict 0.30 0.10 None) = APPROVE /\
  status (verdict 0.30 0.10 Samples.looseThresholds) = APPROVE.
Proof.
  assert (H1 : fle (lossTolOf Samples.looseThresholds) (lossTolOf None))
    by reflexivity.
  assert (H2 : fle (gainMinOf Samples.looseThresholds) (gainMinOf None))
    by reflexivity.
  assert (H3 : fle (imbalanceMaxOf None)
                   (imbalanceMaxOf Samples.looseThresholds)) by reflexivity.
  assert (H4 : status (verdict 0.30 0.10 None) = APPROVE) by reflexivity.
  repeat (split; [assumption|]).
  exact (verdict_monotone _ _ _ _ H1 H2 H3 H4).
Defined.

Lemma wholeCounts_slots : wholeCounts Witness.slots.
Proof.
  repeat constructor; cbn; intros H;
    first [ discriminate H
          | exists 1%Z; split; [split; reflexivity | reflexivity] ].
Defined.

Lemma pickStarters_maximal_witness :
  NoDup (map fst Witness.slots) /\
  wholeCounts Witness.slots /\
  Forall (unfit (needLeft Witness.slots Witness.roster))
    (bench (pickStarters Witness.slots Witness.roster)) /\
  (Z.of_nat (List.length (starters (pickStarters Witness.slots Witness.roster)))
   + capacity (needLeft Witness.slots Witness.roster)
   = capacity Witness.slots)%Z /\
  capacity Witness.slots = 2%Z /\
  capacity (needLeft Witness.slots Witness.roster) = 0%Z.
Proof.
  split; [exact NoDup_slots|]. split; [exact wholeCounts_slots|].
  destruct (pickStarters_maximal Witness.slots Witness.roster NoDup_slots)
    as (Hbench & Hwhole).
  split; [exact Hbench|].
  split; [exact (proj2 (Hwhole wholeCounts_slots))|].
  split; vm_compute; reflexivity.
Defined.

Lemma chosenLineup_maximal_witness :
  NoDup (map fst (startersByPos Samples.tradeArgs)) /\
  wholeCounts (startersByPos Samples.tradeArgs) /\
  (Z.of_nat (List.length (chosenLineup Samples.tradeArgs))
   + capacity (needAfter Samples.tradeArgs)
   = capacity (startersByPos Samples.tradeArgs))%Z /\
  map player_key (chosenLineup Samples.tradeArgs) = [Some "c1"; Some "w1"] /\
  capacity (startersByPos Samples.tradeArgs) = 2%Z.
Proof.
  split; [exact NoDup_slots|]. split; [exact wholeCounts_slots|].
  split.
  - exact (proj1 (proj2 (chosenLineup_maximal Samples.tradeArgs NoDup_slots)
                    wholeCounts_slots)).
  - split; vm_compute; reflexivity.
Defined.

Lemma no_slots_no_lineup_witness :
  anyOpen (startersByPos Samples.idleArgs) = false /\
  chosenLineup Samples.idleArgs = [] /\
  bench (pickStarters (startersByPos Samples.idleArgs) Witness.roster)
  = sortByValue Witness.roster.
Proof.
  assert (H : anyOpen (startersByPos Samples.idleArgs) = false) by reflexivity.
  split; [exact H|].
  destruct (no_slots_no_lineup Witness.roster Samples.idleArgs H)
    as (Hp & Hc & _).
  split; [exact Hc|]. now rewrite Hp.
Defined.

Lemma NoDup_roster_keys : NoDup (map keyOf Witness.roster).
Proof.
  repeat constructor; simpl; intuition discriminate.
Defined.

Lemma resolveOutgoing_selected_witness :
  NoDup (map keyOf Witness.roster) /\
  incl [Samples.centre; Samples.centre] Witness.roster /\
  resolveOutgoing (byKey Witness.roster) ["c1"; "c1"]
  = [Samples.centre; Samples.centre].
Proof.
  assert (H : incl [Samples.centre; Samples.centre] Witness.roster).
  { intros x [<-|[<-|[]]]; right; now left. }
  split; [exact NoDup_roster_keys|]. split; [exact H|].
  exact (resolveOutgoing_selected Witness.roster
           [Samples.centre; Samples.centre] NoDup_roster_keys H).
Defined.

Lemma removeOutgoing_by_key_witness :
  NoDup (map keyOf Witness.roster) /\
  Forall hasKey Witness.roster /\
  incl [Samples.centre; Samples.keeper] Witness.roster /\
  removeOutgoing [Samples.centre; Samples.keeper]
    (resolveOutgoing (byKey Witness.roster) ["g1"; "constructor"; "zz9"])
  = [Samples.centre].
Proof.
  assert (Hk : Forall hasKey Witness.roster)
    by (repeat constructor; discriminate).
  assert (H : incl [Samples.centre; Samples.keeper] Witness.roster).
  { intros x [<-|[<-|[]]]; [right; now left | right; right; now left]. }
  split; [exact NoDup_roster_keys|]. split; [exact Hk|]. split; [exact H|].
  rewrite (removeOutgoing_by_key Witness.roster
             [Samples.centre; Samples.keeper]
             ["g1"; "constructor"; "zz9"] NoDup_roster_keys Hk H).
  reflexivity.
Defined.

Lemma evaluate_rosters_valued_witness :
  NoDup (map keyOf (Examples.teamA ++ Examples.teamB ++ Examples.pool3)) /\
  Aall Examples.noTrade ++ Ball Examples.noTrade ++ FAall Examples.noTrade
  = valuedPool Host.runtime [Examples.goals]
      Examples.teamA Examples.teamB Examples.pool3.
Proof.
  assert (H : NoDup (map keyOf
                       (Examples.teamA ++ Examples.teamB ++ Examples.pool3))).
  { repeat constructor; simpl; intuition discriminate. }
  split; [exact H|].
  exact (proj1 (evaluate_rosters_valued Host.runtime (-0.35) 0.25 1.0
                  Examples.centreAndUtil [Examples.goals]
                  Examples.teamA Examples.teamB Examples.pool3 [] [] H)).
Defined.

Lemma evaluate_degenerate_settings_witness :
  (@nil Category = [] \/ anyOpen Examples.centreAndUtil = false) /\
  tiA (evaluate Host.runtime (-0.35) 0.25 1.0 Examples.centreAndUtil []
         Examples.teamA Examples.teamB Examples.pool3 ["a1"] []) = 0%float /\
  status (verdictOf
            (evaluate Host.runtime (-0.35) 0.25 1.0 Examples.centreAndUtil []
               Examples.teamA Examples.teamB Examples.pool3 ["a1"] []))
  = REVIEW.
Proof.
  assert (H : @nil Category = [] \/ anyOpen Examples.centreAndUtil = false)
    by (left; reflexivity).
  split; [exact H|].
  destruct (evaluate_degenerate_settings Host.runtime (-0.35) 0.25 1.0
              Examples.centreAndUtil [] Examples.teamA Examples.teamB
              Examples.pool3 ["a1"] [] H) as (HA & _ & Hv).
  split; [exact HA|]. rewrite Hv. reflexivity.
Defined.

Lemma no_trade_impact_witness :
  NoDup (map fst Witness.slots) /\
  exists filled,
    chosenLineup
      {| arg_starters :=
           removeOutgoing
             (starters (pickStarters Witness.slots Witness.roster)) [];
         arg_bench :=
           removeOutgoing
             (bench (pickStarters Witness.slots Witness.roster)) [];
         incoming := [];
         freeAgents := [Samples.freeAgent];
         startersByPos := Witness.slots |}
    = starters (pickStarters Witness.slots Witness.roster) ++ filled /\
    incl filled [Samples.freeAgent].
Proof.
  split; [exact NoDup_slots|].
  destruct (no_trade_impact Witness.slots Witness.roster [Samples.freeAgent]
              NoDup_slots) as (filled & H1 & H2 & _).
  exists filled. split; [exact H1 | exact H2].
Defined.

Lemma pickStarters_idempotent_witness :
  NoDup (map fst Witness.slots) /\
  pickStarters Witness.slots
    (starters (pickStarters Witness.slots Witness.roster)
     ++ bench (pickStarters Witness.slots Witness.roster))
  = pickStarters Witness.slots Witness.roster.
Proof.
  split; [exact NoDup_slots|].
  exact (pickStarters_idempotent Witness.slots Witness.roster NoDup_slots).
Defined.

Lemma leagueSlots_computed :
  computeStartersByPos Host.runtime sampleBuiltinText Samples.leagueSettings
  = Ok Samples.leagueSlots.
Proof. vm_compute. reflexivity. Defined.

Lemma computeStartersByPos_sums_witness :
  computeStartersByPos Host.runtime sampleBuiltinText Samples.leagueSettings
  = Ok Samples.leagueSlots /\
  exists items entries,
    iterate (rosterPositions Samples.leagueSettings) = Ok items /\
    Forall2 (fun rp e => rosterEntry Host.runtime rp = Ok e) items entries /\
    forall slot, In slot slotLabels ->
      countOf Samples.leagueSlots slot
      = Some (slotTotal Host.runtime slot entries).
Proof.
  split; [exact leagueSlots_computed|].
  exact (computeStartersByPos_sums Host.runtime sampleBuiltinText
           Samples.leagueSettings Samples.leagueSlots leagueSlots_computed).
Defined.

Lemma computeStartersByPos_shape_witness :
  computeStartersByPos Host.runtime sampleBuiltinText Samples.leagueSettings
  = Ok Samples.leagueSlots /\
  slotsShape Samples.leagueSlots.
Proof.
  split; [exact leagueSlots_computed|].
  exact (computeStartersByPos_shape Host.runtime sampleBuiltinText
           Samples.leagueSettings Samples.leagueSlots leagueSlots_computed).
Defined.

Lemma computeStartersByPos_missing_witness :
  truthy (optProp (JObj []) "roster_positions") = false /\
  computeStartersByPos Host.runtime sampleBuiltinText (JObj [])
  = Ok noStarters.
Proof.
  split; [reflexivity|].
  exact (computeStartersByPos_missing Host.runtime sampleBuiltinText
           (JObj []) eq_refl).
Defined.

Lemma computeStartersByPos_throws_witness :
  unreadableRoster Samples.singleEntrySettings /\
  computeStartersByPos Host.runtime sampleBuiltinText
    Samples.singleEntrySettings = TypeError.
Proof.
  assert (H : unreadableRoster Samples.singleEntrySettings).
  { left. eexists. reflexivity. }
  split; [exact H|].
  exact (computeStartersByPos_throws Host.runtime sampleBuiltinText
           Samples.singleEntrySettings H).
Defined.

Lemma computeStartersByPos_plain_witness :
  rosterPositions Samples.leagueSettings = JArr Samples.rosterList /\
  Forall plainRosterEntry Samples.rosterList /\
  exists out,
    computeStartersByPos Host.runtime sampleBuiltinText Samples.leagueSettings
    = Ok out.
Proof.
  assert (H : Forall plainRosterEntry Samples.rosterList).
  { repeat constructor; try (eexists; reflexivity). }
  split; [reflexivity|]. split; [exact H|].
  exact (computeStartersByPos_plain Host.runtime sampleBuiltinText
           Samples.leagueSettings Samples.rosterList eq_refl H).
Defined.

Lemma yahooPlayers_computed :
  normalize Host.runtime Samples.yahooRoster = Ok Samples.yahooPlayers.
Proof. vm_compute. reflexivity. Defined.

Lemma normalize_numbers_witness :
  normalize Host.runtime Samples.yahooRoster = Ok Samples.yahooPlayers /\
  Forall (fun e =>
            isNumber (Yahoo.gp e) /\
            Forall (fun kv => fst kv <> "__proto__" /\ isNumber (snd kv))
              (Yahoo.stats e) /\
            Yahoo.isGoalie e = existsb isG (Yahoo.pos e)) Samples.yahooPlayers.
Proof.
  split; [exact yahooPlayers_computed|].
  exact (proj2 (normalize_numbers Host.runtime Samples.yahooRoster
                  Samples.yahooPlayers yahooPlayers_computed)).
Defined.

Lemma normalize_rejects_witness :
  unreadablePlayers (JArr [JObj [("player_key", JStr "p1")]]) /\
  normalize Host.runtime (JArr [JObj [("player_key", JStr "p1")]]) = TypeError.
Proof.
  assert (H : unreadablePlayers (JArr [JObj [("player_key", JStr "p1")]])).
  { right. exists [JObj [("player_key", JStr "p1")]],
             (JObj [("player_key", JStr "p1")]).
    split; [reflexivity|]. split; [now left | now left]. }
  split; [exact H|].
  exact (proj1 (normalize_rejects Host.runtime _ H)).
Defined.

Lemma valuePlayers_reads_ids_and_rates_witness :
  sameIds [Examples.goals] [Samples.goalsForGoalies] /\
  sameRates [Samples.ratedSkater] [Samples.ratedGoalie] /\
  map value (valuePlayers Host.runtime [Samples.ratedSkater] [Examples.goals])
  = map value (valuePlayers Host.runtime [Samples.ratedGoalie]
                 [Samples.goalsForGoalies]).
Proof.
  assert (H1 : sameIds [Examples.goals] [Samples.goalsForGoalies])
    by (repeat constructor).
  assert (H2 : sameRates [Samples.ratedSkater] [Samples.ratedGoalie])
    by (repeat constructor).
  split; [exact H1|]. split; [exact H2|].
  exact (valuePlayers_reads_ids_and_rates Host.runtime _ _ _ _ H1 H2).
Defined.

Lemma league_resolved :
  resolveLeagueKey Host.runtime toLowerCase Samples.byId Samples.provider
    JUndef
  = Ok (JStr "453.l.77", JStr "453.l.77").
Proof. vm_compute. reflexivity. Defined.

Lemma resolveLeagueKey_cached_witness :
  resolveLeagueKey Host.runtime toLowerCase Samples.byId Samples.provider
    JUndef
  = Ok (JStr "453.l.77", JStr "453.l.77") /\
  truthy (JStr "453.l.77") = true /\
  resolveLeagueKey Host.runtime toLowerCase Samples.unset Samples.provider
    (JStr "453.l.77")
  = Ok (JStr "453.l.77", JStr "453.l.77").
Proof.
  split; [exact league_resolved|]. split; [reflexivity|].
  exact (proj2 (resolveLeagueKey_cached Host.runtime toLowerCase
                  Samples.byId Samples.provider JUndef _ _
                  league_resolved eq_refl)
           Samples.unset Samples.provider).
Defined.

Lemma resolveLeagueKey_needs_criterion_witness :
  truthy JUndef = false /\ noCriterion Samples.unset /\
  resolveLeagueKey Host.runtime toLowerCase Samples.unset Samples.provider
    JUndef
  = Ok (JUndef, JNull) /\
  JNull = JNull /\ JUndef = JUndef.
Proof.
  assert (H : noCriterion Samples.unset) by (repeat split).
  assert (E : resolveLeagueKey Host.runtime toLowerCase Samples.unset
                Samples.provider JUndef = Ok (JUndef, JNull))
    by (vm_compute; reflexivity).
  split; [reflexivity|]. split; [exact H|]. split; [exact E|].
  exact (resolveLeagueKey_needs_criterion Host.runtime toLowerCase
           Samples.unset Samples.provider JUndef JUndef JNull
           eq_refl H E).
Defined.

Lemma resolveLeagueKey_sound_witness :
  truthy JUndef = false /\ envValue (LEAGUE_KEY Samples.byId) = None /\
  resolveLeagueKey Host.runtime toLowerCase Samples.byId Samples.provider
    JUndef
  = Ok (JStr "453.l.77", JStr "453.l.77") /\
  ((JStr "453.l.77" = JNull /\ JStr "453.l.77" = JUndef) \/
   (JStr "453.l.77" = JStr "453.l.77" /\
    exists g l,
      matchedLeague Host.runtime toLowerCase Samples.byId Samples.provider
        g l (JStr "453.l.77"))).
Proof.
  split; [reflexivity|]. split; [reflexivity|].
  split; [exact league_resolved|].
  exact (resolveLeagueKey_sound Host.runtime toLowerCase Samples.byId
           Samples.provider JUndef _ _ eq_refl eq_refl league_resolved).
Defined.

Lemma exchange_conserves_roster_witness :
  NoDup (map keyOf Witness.roster) /\
  Forall hasKey Witness.roster /\
  NoDup ["g1"; "w1"] /\
  incl ["g1"; "w1"] (map keyOf Witness.roster) /\
  map keyOf (resolveOutgoing (byKey Witness.roster) ["g1"; "w1"])
  = ["g1"; "w1"].
Proof.
  assert (Hk : Forall hasKey Witness.roster)
    by (repeat constructor; discriminate).
  assert (Hs : NoDup ["g1"; "w1"])
    by (repeat constructor; simpl; intuition discriminate).
  assert (Hi : incl ["g1"; "w1"] (map keyOf Witness.roster)).
  { intros x [<-|[<-|[]]]; simpl; auto. }
  split; [exact NoDup_roster_keys|]. split; [exact Hk|].
  split; [exact Hs|]. split; [exact Hi|].
  exact (proj1 (exchange_conserves_roster Witness.slots Witness.roster
                  ["g1"; "w1"] NoDup_roster_keys Hk Hs Hi)).
Defined.

(* ================================================================== *)
(** * Runs of the engine *)

Example toFixed4_samples :
  F64.toFixed4 0.12345%float = 0.1235%float /\
  F64.toFixed4 (-0.12345)%float = (-0.1235)%float /\
  F64.toFixed4 1.00004%float = 1%float /\
  F64.toFixed4 1.005%float = 1.005%float /\
  F64.toFixed4 2.5%float = 2.5%float /\
  F64.toFixed4 (-0.00001)%float = (-0)%float /\
  F64.toFixed4 0.70710678118654757%float = 0.7071%float /\
  F64.toFixed4 1e21%float = 1e21%float /\
  F64.toFixed4 PrimFloat.infinity = PrimFloat.infinity /\
  F64.toFixed4 PrimFloat.nan = PrimFloat.nan.
Proof. repeat split; vm_compute; reflexivity. Qed.

Example pickStarters_sample :
  map player_key (starters (pickStarters Witness.slots Witness.roster))
  = [Some "c1"; Some "w1"] /\
  map player_key (bench (pickStarters Witness.slots Witness.roster))
  = [Some "g1"] /\
  fillTrace (sortByValue Witness.roster) Witness.slots
  = [ (Witness.valued (Examples.skater "c1" ["C"; "LW"] 3) 1.5, "C");
      (Witness.valued (Examples.skater "w1" ["LW"] 1) 0.5, "Util") ].
Proof. repeat split; vm_compute; reflexivity. Qed.

Example evaluate_sample :
  map value (Aall Examples.noTrade) = [Some 0.2673%float] /\
  map value (Ball Examples.noTrade) = [Some (-1.3363)%float] /\
  map value (FAall Examples.noTrade) = [Some 1.069%float] /\
  map player_key (chosenLineup (argsA Examples.noTrade))
  = [Some "a1"; Some "f1"] /\
  tiA Examples.noTrade = 1.069%float.
Proof. repeat split; vm_compute; reflexivity. Qed.

Example computePerGame_sample :
  map per (computePerGame Host.runtime
             (Some [Witness.rawPlayer; Witness.idlePlayer]))
  = [ [("1", 1.5%float); ("2", 0%float)]; [] ].
Proof. vm_compute. reflexivity. Qed.
